(** * anko: rule compilation, caching and output validation

    A shallow embedding of the engine of [anko.go] and of the helpers of
    [utils.go] and [extras/extra.go] it calls, followed by the properties
    of the specification that concern them.

    The Tengo script engine, Go's [fmt] and [strconv] are collaborators
    that live outside the repository; they enter through the two classes
    [GoFmt] and [ScriptEngine] below. *)

From Stdlib Require Import Ascii.
From stdpp Require Import base strings list gmap sorting pretty.

#[local] Set Warnings "-register-all".

(** ** Go values of static type [any]

    The values that cross the boundary between the engine and its callers:
    what YAML decoding and Tengo's [ToInterface] produce.  A [float64] is
    carried by its IEEE-754 bit pattern.  A [map[string]any] is carried by
    the list of its entries in the order the runtime happens to iterate
    them; a well-formed map has pairwise distinct keys.  Maps and slices
    are non-nil; where the engine reads a nil one ([Variable.Array] and
    [Variable.Map] of another kind of value) it reads it as empty. *)

Inductive value : Type :=
  | VNil
  | VBool (b : bool)
  | VInt (n : Z)
  | VFloat (bits : Z)
  | VString (s : string)
  | VArray (elems : list value)
  | VMap (entries : list (string * value)).

Abbreviation gomap := (list (string * value)).

(** [v, ok := m[key]] *)
Fixpoint mapGet (key : string) (m : gomap) : option value :=
  match m with
  | [] => None
  | (k, v) :: rest => if decide (k = key) then Some v else mapGet key rest
  end.

(** [m[key] = v]: an existing entry is overwritten where it stands, a new
    one is added. *)
Fixpoint mapSet (key : string) (v : value) (m : gomap) : gomap :=
  match m with
  | [] => [(key, v)]
  | (k, x) :: rest =>
      if decide (k = key) then (k, v) :: rest else (k, x) :: mapSet key v rest
  end.

(** [make(map[string]any)] followed by the assignments [m[k] = v] of
    [kvs], first to last. *)
Definition makeMap (kvs : list (string * value)) : gomap :=
  foldl (λ m kv, mapSet kv.1 kv.2 m) [] kvs.

(** [item.(map[string]any)] and [val.([]any)] *)
Definition asMap (v : value) : option gomap :=
  match v with VMap m => Some m | _ => None end.

Definition asSlice (v : value) : option (list value) :=
  match v with VArray l => Some l | _ => None end.

(** ** [fmt.Sprintf("%#v", ...)]

    [strconv.Quote] and the shortest ['g'] rendering of a float are taken
    as given.  Since Go 1.12 [fmt] prints a map with its keys sorted
    (package [internal/fmtsort]; strings compare bytewise). *)

Class GoFmt := {
  Quote : string → string;
  FormatFloat : Z → string;
}.

Definition joinStrings (sep : string) (l : list string) : string :=
  String.concat sep l.

(** The order [fmtsort] puts the entries of a string-keyed map in. *)
Definition keyLe (a b : string * string) : Prop := String.le a.1 b.1.

Global Instance keyLe_dec : RelDecision keyLe.
Proof. intros a b. unfold keyLe. apply _. Defined.

Section fmt.
Context {fmt : GoFmt}.

(** A key with its value already rendered, as printed inside the
    braces. *)
Definition fmtEntry (kv : string * string) : string :=
  Quote kv.1 +:+ ":" +:+ kv.2.

(** [%#v] of a value held in an interface.  The values of a map are
    rendered and the entries then put in key order, which prints what
    [fmt] prints when it sorts first and renders second. *)
Fixpoint fmtSharpV (v : value) : string :=
  match v with
  | VNil => "interface {}(nil)"
  | VBool b => if b then "true" else "false"
  | VInt n => pretty n
  | VFloat bits => FormatFloat bits
  | VString s => Quote s
  | VArray elems =>
      "[]interface {}{" +:+ joinStrings ", " (map fmtSharpV elems) +:+ "}"
  | VMap entries =>
      "map[string]interface {}{" +:+
      joinStrings ", "
        (map fmtEntry
           (merge_sort keyLe
              (map (λ kv, let '(k, x) := kv in (k, fmtSharpV x)) entries)))
      +:+ "}"
  end.

(** utils.go, [serializeEnv]. *)
Definition serializeEnv (envVars : gomap) : string :=
  fmtSharpV (VMap envVars).
End fmt.

(** ** Strings *)

Definition newline : string := String "010"%char "".
Definition dquote : string := String "034"%char "".

Fixpoint stripPrefix (prefix s : string) : option string :=
  match prefix, s with
  | "", _ => Some s
  | String c p, String d t => if decide (c = d) then stripPrefix p t else None
  | String _ _, "" => None
  end.

(** [strings.HasPrefix], [strings.TrimPrefix] *)
Definition HasPrefix (s prefix : string) : bool :=
  bool_decide (is_Some (stripPrefix prefix s)).

Definition TrimPrefix (s prefix : string) : string :=
  default s (stripPrefix prefix s).

(** [strings.ReplaceAll(s, old, new)] for a one-byte [old] and [new]. *)
Fixpoint ReplaceAllByte (s : string) (old new : ascii) : string :=
  match s with
  | "" => ""
  | String c t =>
      String (if decide (c = old) then new else c) (ReplaceAllByte t old new)
  end.

(** [slices.Contains] *)
Definition Contains (l : list string) (x : string) : bool := bool_decide (x ∈ l).

(** ** Logging

    What reaches the [*slog.Logger], in the order it is written.  The
    fields [errorToFields] derives from an engine error are carried by
    the text of that error. *)

Inductive Level := LevelDebug | LevelInfo | LevelWarn | LevelError.

Inductive Attr :=
  | KV (key : string) (v : value)
  | ErrorFields (err : string).

Record LogRecord := mkLog {
  level : Level;
  message : string;
  attrs : list Attr;
}.

(** [withPrefixes(ctxOne, ctxTwo, err)] *)
Definition withPrefixes (ctxOne ctxTwo err : string) : list Attr :=
  [KV ctxOne (VString ctxTwo); ErrorFields err].

(** ** extras/extra.go *)

(** [ToSet]; a key that was never stored reads as [false]. *)
Definition ToSet (items : list string) : gmap string bool :=
  foldl (λ set v, <[v := true]> set) ∅ items.

Definition setHas (set : gmap string bool) (k : string) : bool :=
  default false (set !! k).

(** The keys of [ExtraModules]. *)
Definition AllExtraModuleNames : list string := ["log"; "req"; "html"; "anko"].

(** ** utils.go, [buildPreamble] *)

Record Rule := mkRule {
  Imports : list string;
  Code : string;
}.

(** One [WriteString] to the preamble builder. *)
Inductive Stmt :=
  | FnBinding (globalName fnLiteral : string)
  | ImportStmt (imp : string).

Definition stmtText (s : Stmt) : string :=
  match s with
  | FnBinding globalName fnLiteral =>
      newline +:+ globalName +:+ " := " +:+ fnLiteral
  | ImportStmt imp =>
      imp +:+ " := import(" +:+ dquote +:+ imp +:+ dquote +:+ ")" +:+ newline
  end.

(** The builder, [allowedModules] and the log while the loop runs. *)
Record Resolving := mkResolving {
  written : list Stmt;
  allowedModules : list string;
  warned : list LogRecord;
}.

(** [preamble.String()]: the writes, one after the other. *)
Definition builderString (ss : list Stmt) : string :=
  foldr (λ s text, stmtText s +:+ text) "" ss.

(** An empty builder, no module, nothing logged. *)
Definition resolvingStart : Resolving := mkResolving [] [] [].

(** The writes, modules and log records of [a] followed by those of [b]. *)
Definition resolvingApp (a b : Resolving) : Resolving :=
  mkResolving (written a ++ written b) (allowedModules a ++ allowedModules b)
    (warned a ++ warned b).

Section buildPreamble.
Context (stdlibNames : list string).
Context (functions : gmap string string) (denyList : list string).

(** One turn of the loop over [rule.Imports]; [allowedSet] and [denySet]
    are those built before the loop. *)
Definition importStep (st : Resolving) (imp : string) : Resolving :=
  let allowedSet := ToSet stdlibNames in
  let denySet := ToSet denyList in
  if HasPrefix imp "fn:" then
    let key := TrimPrefix imp "fn:" in
    match functions !! key with
    | None =>
        mkResolving (written st) (allowedModules st)
          (warned st ++
             [mkLog LevelError "Function not found" [KV "function" (VString key)]])
    | Some fnLiteral =>
        let globalName := "fn_" +:+ ReplaceAllByte key "." "_" in
        mkResolving (written st ++ [FnBinding globalName fnLiteral])
          (allowedModules st) (warned st)
    end
  else if setHas denySet imp then
    mkResolving (written st) (allowedModules st)
      (warned st ++ [mkLog LevelWarn "Import denied" [KV "import" (VString imp)]])
  else if setHas allowedSet imp || Contains AllExtraModuleNames imp then
    mkResolving (written st ++ [ImportStmt imp]) (allowedModules st ++ [imp])
      (warned st)
  else
    mkResolving (written st) (allowedModules st)
      (warned st ++
         [mkLog LevelWarn "Unrecognized standard import" [KV "import" (VString imp)]]).

Definition resolveImports (rule : Rule) : Resolving :=
  foldl importStep resolvingStart (Imports rule).

(** The preamble text and the allowed modules, with what was logged. *)
Definition buildPreamble (rule : Rule) : (string * list string) * list LogRecord :=
  let st := resolveImports rule in
  ((builderString (written st), allowedModules st), warned st).
End buildPreamble.

(** ** The script engine

    [tengo.Script], [Script.Compile], [Compiled.Run] and [Compiled.Get]
    as the engine of anko.go uses them.  A script is its source, the
    modules it may import and the [env] object bound to it; the helpers
    [url_encode] and [to_title_case] are bound to every script alike.  A
    run may change the program's globals and whatever lies outside the
    process, and the modules it calls may log.  An engine error is
    carried by its text. *)

Record Script := mkScript {
  scriptSource : string;
  scriptModules : list string;
  scriptEnv : gmap string value;
}.

Record RunOutcome (C O : Type) := mkRan {
  ranProgram : C;
  ranOutside : O;
  ranLog : list LogRecord;
  ranErr : option string;
}.
Arguments mkRan {C O}.
Arguments ranProgram {C O}.
Arguments ranOutside {C O}.
Arguments ranLog {C O}.
Arguments ranErr {C O}.

Class ScriptEngine := {
  Compiled : Type;
  Outside : Type;
  (** [stdlib.AllModuleNames()] *)
  AllModuleNames : list string;
  (** [Script.Compile] *)
  Compile : Script → string + Compiled;
  (** [Compiled.Run] *)
  Run : Compiled → Outside → RunOutcome Compiled Outside;
  (** [Compiled.Get]; [None] is the nil [*Variable]. *)
  Get : Compiled → string → option value;
}.

(** [Variable.Array], [Variable.Map]: nil unless the value is one. *)
Definition Variable_Array (v : value) : list value :=
  match v with VArray l => l | _ => [] end.

Definition Variable_Map (v : value) : gomap :=
  match v with VMap m => m | _ => [] end.

(** What Tengo's own [Compiled.Get] does: it returns a variable for
    every name, and one the program never set holds the undefined
    value, whose [Value()] is nil.  It never returns a nil
    [*Variable]. *)
Definition GetNeverNil `{ScriptEngine} : Prop :=
  ∀ (c : Compiled) (name : string), is_Some (Get c name).

(** ** Errors of the engine, by the place that makes them *)

Inductive error :=
  | RuleNotFound (ruleName : string)
  | CompileError (ruleName cause : string)
  | RuntimeError (ruleName cause : string)
  | MissingResult
  | ItemNotMap (fn : string) (i : nat)
  | ItemMissingKey (fn : string) (i : nat) (key : string)
  | InfoMissingKey (key : string)
  | GenresNotArray
  | ContentMissingKey (key : string)
  (** a cache entry that points at no program; see [cacheValid] *)
  | NilCompiled.

(** [err.Error()] *)
Definition errorText (err : error) : string :=
  match err with
  | RuleNotFound r => "rule '" +:+ r +:+ "' not found"
  | CompileError r cause => "failed to compile rule '" +:+ r +:+ "': " +:+ cause
  | RuntimeError r cause => "failed to run rule '" +:+ r +:+ "': " +:+ cause
  | MissingResult => "rule did not set the global variable 'result'"
  | ItemNotMap fn i => fn +:+ ": item " +:+ pretty i +:+ " is not a map"
  | ItemMissingKey fn i key =>
      fn +:+ ": item " +:+ pretty i +:+ " missing required key: " +:+ key
  | InfoMissingKey key => "NovelInfoRule: missing required key: " +:+ key
  | GenresNotArray => "NovelInfoRule: key 'genres' is not an array"
  | ContentMissingKey key => "ContentRule: missing required key: " +:+ key
  | NilCompiled => "invalid memory address or nil pointer dereference"
  end.

(** ** The engine and the world it runs in *)

(** A [*tengo.Compiled]: the place of the program in [heap]. *)
Abbreviation loc := nat.

Record Engine := mkEngine {
  Env : option (gmap string value);
  Rules : gmap string Rule;
  Functions : gmap string string;
  compiledCache : gmap string loc;
  denyLibs : list string;
  CacheEnabled : bool;
  lastInputs : gmap string string;
}.

Inductive Event :=
  | EvLog (r : LogRecord)
  | EvCompile (ruleName : string) (script : Script)
  | EvRun (ruleName : string) (compiled : loc).

Section engine.
Context {fmt : GoFmt} {eng : ScriptEngine}.

Record World := mkWorld {
  engine : Engine;
  heap : list Compiled;
  outside : Outside;
  trace : list Event;
}.

(** A Go function with results [(A, error)] acting on the world. *)
Definition M (A : Type) : Type := World → (error + A) * World.

Definition ret {A} (a : A) : M A := λ w, (inr a, w).
Definition fail {A} (err : error) : M A := λ w, (inl err, w).
Definition bind {A B} (m : M A) (k : A → M B) : M B :=
  λ w, match m w with
       | (inr a, w') => k a w'
       | (inl err, w') => (inl err, w')
       end.

Definition getEngine : M Engine := λ w, (inr (engine w), w).
Definition setEngine (e : Engine) : M unit :=
  λ w, (inr tt, mkWorld e (heap w) (outside w) (trace w)).
Definition emit (evs : list Event) : M unit :=
  λ w, (inr tt, mkWorld (engine w) (heap w) (outside w) (trace w ++ evs)).
Definition logAt (lvl : Level) (msg : string) (kvs : list Attr) : M unit :=
  emit [EvLog (mkLog lvl msg kvs)].
End engine.

Notation "x <- m ;; k" := (bind m (λ x, k))
  (at level 100, m at next level, right associativity,
   format "'[v' x  <-  m  ;;  '/' k ']'").
Notation "m ;;; k" := (bind m (λ _, k))
  (at level 100, right associativity,
   format "'[v' m  ;;;  '/' k ']'").

Definition withEnv (env : option (gmap string value)) (e : Engine) : Engine :=
  mkEngine env (Rules e) (Functions e) (compiledCache e) (denyLibs e)
    (CacheEnabled e) (lastInputs e).

Definition withCache (cache : gmap string loc) (e : Engine) : Engine :=
  mkEngine (Env e) (Rules e) (Functions e) cache (denyLibs e)
    (CacheEnabled e) (lastInputs e).

Definition withLastInputs (inputs : gmap string string) (e : Engine) : Engine :=
  mkEngine (Env e) (Rules e) (Functions e) (compiledCache e) (denyLibs e)
    (CacheEnabled e) inputs.

(** ** anko.go: construction and switches *)

(** [NewEngine]; nothing is loaded yet. *)
Definition NewEngine : Engine :=
  mkEngine None ∅ ∅ ∅ [] true ∅.

Definition SetDenyLibs (deny : list string) (e : Engine) : Engine :=
  mkEngine (Env e) (Rules e) (Functions e) (compiledCache e) deny
    (CacheEnabled e) (lastInputs e).

Definition EnableCache (e : Engine) : Engine :=
  mkEngine (Env e) (Rules e) (Functions e) (compiledCache e) (denyLibs e)
    true (lastInputs e).

Definition DisableCache (e : Engine) : Engine :=
  mkEngine (Env e) (Rules e) (Functions e) ∅ (denyLibs e) false ∅.

(** utils.go, [createEnvVariable]: the [env] object of a script.  A nil
    map has no entries to convert. *)
Definition createEnvVariable (envData : option (gmap string value))
    : gmap string value :=
  default ∅ envData.

(** What the validation of a sequence result names and logs. *)
Record ItemsRule := mkItemsRule {
  fnName : string;
  onNotMap : nat → list Event;
  onMissingKey : string → list Event;
  onSkipped : value → list Event;
}.

Definition searchItems : ItemsRule :=
  mkItemsRule "SearchRule"
    (λ i, [EvLog (mkLog LevelError "SearchRule"
             [KV "message" (VString "item is not a map");
              KV "item" (VInt (Z.of_nat i))])])
    (λ key, [EvLog (mkLog LevelError "SearchRule"
               [KV "message" (VString "missing required key");
                KV "key" (VString key)])])
    (λ item, [EvLog (mkLog LevelWarn "SearchRule"
                [KV "message" (VString "skipped non-map item");
                 KV "item" item])]).

Definition chapterListItems : ItemsRule :=
  mkItemsRule "ChapterListRule"
    (λ _, [])
    (λ _, [])
    (λ item, [EvLog (mkLog LevelWarn "ChapterListRule: skipped non-map item"
                [KV "item" item])]).

(** The loop over [required]: the first key the record lacks. *)
Fixpoint firstMissing (m : gomap) (required : list string) : option string :=
  match required with
  | [] => None
  | key :: rest =>
      match mapGet key m with
      | None => Some key
      | Some _ => firstMissing m rest
      end
  end.

(** A record that passes the first loop of [SearchRule] and
    [ChapterListRule]. *)
Definition hasItemKeys (m : gomap) : Prop :=
  is_Some (mapGet "title" m) ∧ is_Some (mapGet "url" m).

(** [required] of [NovelInfoRule]. *)
Definition infoRequired : list string :=
  ["title"; "cover"; "author"; "description"; "status"; "genres"].

Section rules.
Context {fmt : GoFmt} {eng : ScriptEngine}.

(** [script.Compile()]: a new program on success. *)
Definition compileScript (ruleName : string) (script : Script)
    : M (string + loc) :=
  λ w,
    let tr := trace w ++ [EvCompile ruleName script] in
    match Compile script with
    | inl err => (inr (inl err), mkWorld (engine w) (heap w) (outside w) tr)
    | inr c =>
        (inr (inr (length (heap w))),
         mkWorld (engine w) (heap w ++ [c]) (outside w) tr)
    end.

(** [compiled.Run()]: its error, or [None] for nil. *)
Definition runCompiled (ruleName : string) (compiled : loc)
    : M (option string) :=
  λ w,
    match heap w !! compiled with
    | None => (inl NilCompiled, w)
    | Some c =>
        let r := Run c (outside w) in
        (inr (ranErr r),
         mkWorld (engine w) (<[compiled := ranProgram r]> (heap w))
           (ranOutside r)
           (trace w ++ EvRun ruleName compiled :: (EvLog <$> ranLog r)))
    end.

(** [compiled.Get(name)] *)
Definition getVariable (compiled : loc) (name : string)
    : M (option value) :=
  λ w,
    match heap w !! compiled with
    | None => (inl NilCompiled, w)
    | Some c => (inr (Get c name), w)
    end.

(** anko.go, [RunRule] *)
Definition RunRule (ruleName : string) : M loc :=
  e <- getEngine ;;
  match (if CacheEnabled e then compiledCache e !! ruleName else None) with
  | Some cached =>
      logAt LevelInfo "Running cached rule" [KV "rule" (VString ruleName)] ;;;
      _ <- runCompiled ruleName cached ;;
      ret cached
  | None =>
      match Rules e !! ruleName with
      | None =>
          logAt LevelError "Rule not found" [KV "rule" (VString ruleName)] ;;;
          fail (RuleNotFound ruleName)
      | Some rule =>
          let '((preamble, allowed), warnings) :=
            buildPreamble AllModuleNames (Functions e) (denyLibs e) rule in
          emit (EvLog <$> warnings) ;;;
          let finalCode := preamble +:+ newline +:+ Code rule in
          logAt LevelDebug "Compiling rule"
            [KV "rule" (VString ruleName); KV "code" (VString finalCode)] ;;;
          r <- compileScript ruleName
                 (mkScript finalCode allowed (createEnvVariable (Env e))) ;;
          match r with
          | inl err =>
              logAt LevelError "Failed to compile rule"
                [KV "rule" (VString ruleName)] ;;;
              fail (CompileError ruleName err)
          | inr compiled =>
              (if CacheEnabled e
               then setEngine (withCache (<[ruleName := compiled]> (compiledCache e)) e)
               else ret tt) ;;;
              err <- runCompiled ruleName compiled ;;
              match err with
              | Some err =>
                  logAt LevelError "Engine error"
                    (withPrefixes "rule" ruleName err) ;;;
                  fail (RuntimeError ruleName err)
              | None => ret compiled
              end
          end
      end
  end.

(** anko.go, [RunRuleAndGetResult] *)
Definition RunRuleAndGetResult (ruleName : string) : M value :=
  compiled <- RunRule ruleName ;;
  resultVar <- getVariable compiled "result" ;;
  match resultVar with
  | None =>
      logAt LevelError "Rule did not set 'result'"
        [KV "rule" (VString ruleName)] ;;;
      fail MissingResult
  | Some v => ret v
  end.

(** anko.go, [AddEnvVar] *)
Definition AddEnvVar (key : string) (v : value) : M unit :=
  e <- getEngine ;;
  let env := match Env e with None => ∅ | Some env => env end in
  setEngine (withEnv (Some (<[key := v]> env)) e).

(** The block that opens each of the four rule functions: a changed
    input evicts the cached program of the rule. *)
Definition refreshInput (ruleName : string) (envVars : gomap) : M unit :=
  e <- getEngine ;;
  if CacheEnabled e then
    let key := serializeEnv envVars in
    match lastInputs e !! ruleName with
    | Some prev =>
        if decide (prev = key) then ret tt
        else setEngine
               (withLastInputs (<[ruleName := key]> (lastInputs e))
                  (withCache (delete ruleName (compiledCache e)) e))
    | None =>
        setEngine
          (withLastInputs (<[ruleName := key]> (lastInputs e))
             (withCache (delete ruleName (compiledCache e)) e))
    end
  else ret tt.

(** The first loop of [SearchRule] and [ChapterListRule]: every item a
    map that holds each required key. *)
Fixpoint checkItems (spec : ItemsRule) (i : nat) (arr : list value) : M unit :=
  match arr with
  | [] => ret tt
  | item :: rest =>
      match asMap item with
      | None =>
          emit (onNotMap spec i) ;;;
          fail (ItemNotMap (fnName spec) i)
      | Some m =>
          match firstMissing m ["title"; "url"] with
          | Some key =>
              emit (onMissingKey spec key) ;;;
              fail (ItemMissingKey (fnName spec) i key)
          | None => checkItems spec (S i) rest
          end
      end
  end.

(** The second loop: the maps among the items, in order. *)
Fixpoint collectItems (spec : ItemsRule) (arr : list value)
    (out : list gomap) : M (list gomap) :=
  match arr with
  | [] => ret out
  | item :: rest =>
      match asMap item with
      | Some m => collectItems spec rest (out ++ [m])
      | None => emit (onSkipped spec item) ;;; collectItems spec rest out
      end
  end.

Definition validateItems (spec : ItemsRule) (arr : list value)
    : M (list gomap) :=
  checkItems spec 0 arr ;;;
  collectItems spec arr [].

(** anko.go, [SearchRule] *)
Definition SearchRule (envVars : gomap) : M (list gomap) :=
  refreshInput "search" envVars ;;;
  AddEnvVar "search" (VMap envVars) ;;;
  resultVar <- RunRuleAndGetResult "search" ;;
  validateItems searchItems (Variable_Array resultVar).

(** The loop of [NovelInfoRule] over [required]. *)
Fixpoint checkInfo (info : gomap) (required : list string) : option error :=
  match required with
  | [] => None
  | key :: rest =>
      match mapGet key info with
      | None => Some (InfoMissingKey key)
      | Some val =>
          if decide (key = "genres") then
            match asSlice val with
            | None => Some GenresNotArray
            | Some _ => checkInfo info rest
            end
          else checkInfo info rest
      end
  end.

Definition validateInfo (info : gomap) : M gomap :=
  match checkInfo info infoRequired with
  | Some err => fail err
  | None => ret info
  end.

(** anko.go, [NovelInfoRule] *)
Definition NovelInfoRule (envVars : gomap) : M gomap :=
  refreshInput "info" envVars ;;;
  AddEnvVar "info" (VMap envVars) ;;;
  resultVar <- RunRuleAndGetResult "info" ;;
  validateInfo (Variable_Map resultVar).

(** anko.go, [ChapterListRule] *)
Definition ChapterListRule (envVars : gomap) : M (list gomap) :=
  refreshInput "chapter-list" envVars ;;;
  AddEnvVar "chapter_list" (VMap envVars) ;;;
  resultVar <- RunRuleAndGetResult "chapter-list" ;;
  validateItems chapterListItems (Variable_Array resultVar).

Definition validateContent (content : gomap) : M gomap :=
  match firstMissing content ["title"; "content"] with
  | Some key => fail (ContentMissingKey key)
  | None => ret content
  end.

(** anko.go, [ContentRule] *)
Definition ContentRule (envVars : gomap) : M gomap :=
  refreshInput "content" envVars ;;;
  AddEnvVar "content" (VMap envVars) ;;;
  resultVar <- RunRuleAndGetResult "content" ;;
  validateContent (Variable_Map resultVar).
End rules.

(** ** Observing an invocation *)

(** How often [script.Compile()] was called for a rule. *)
Fixpoint compileEvents (ruleName : string) (tr : list Event) : nat :=
  match tr with
  | [] => 0
  | EvCompile r _ :: rest =>
      if decide (r = ruleName) then S (compileEvents ruleName rest)
      else compileEvents ruleName rest
  | _ :: rest => compileEvents ruleName rest
  end.

(** A log record, as opposed to a compilation or a run. *)
Definition isLog (ev : Event) : Prop :=
  match ev with EvLog _ => True | _ => False end.

(** A nil error. *)
Definition succeeded {A} (r : error + A) : Prop :=
  match r with inr _ => True | inl _ => False end.

(** The four rule categories with a public entry point, the rule each
    runs and the key of [Env] under which it stores its inputs. *)
Inductive Category := Search | Info | ChapterList | Content.

Definition ruleNameOf (c : Category) : string :=
  match c with
  | Search => "search"
  | Info => "info"
  | ChapterList => "chapter-list"
  | Content => "content"
  end.

Definition envKeyOf (c : Category) : string :=
  match c with
  | Search => "search"
  | Info => "info"
  | ChapterList => "chapter_list"
  | Content => "content"
  end.

Section observing.
Context {fmt : GoFmt} {eng : ScriptEngine}.

(** The script [RunRule] hands to the compiler for a rule. *)
Definition ruleScript (e : Engine) (rule : Rule) : Script :=
  let st := resolveImports AllModuleNames (Functions e) (denyLibs e) rule in
  mkScript (builderString (written st) +:+ newline +:+ Code rule)
    (allowedModules st) (createEnvVariable (Env e)).

(** The cache has nothing to offer [RunRule] for this rule. *)
Definition missesCache (ruleName : string) (e : Engine) : Prop :=
  (if CacheEnabled e then compiledCache e !! ruleName else None) = None.

(** What a fresh compilation leaves in the trace up to the call of
    [script.Compile()]. *)
Definition compilingLog (ruleName : string) (e : Engine) (rule : Rule)
    : list Event :=
  (EvLog <$> warned (resolveImports AllModuleNames (Functions e) (denyLibs e) rule)) ++
  [EvLog (mkLog LevelDebug "Compiling rule"
            [KV "rule" (VString ruleName);
             KV "code" (VString (scriptSource (ruleScript e rule)))]);
   EvCompile ruleName (ruleScript e rule)].

(** The engine once [RunRule] has stored a fresh program. *)
Definition cacheStore (ruleName : string) (l : loc) (e : Engine) : Engine :=
  if CacheEnabled e then withCache (<[ruleName := l]> (compiledCache e)) e
  else e.

(** The engine as the opening block of a rule function and its call of
    [AddEnvVar] leave it. *)
Definition refreshedEngine (ruleName : string) (envVars : gomap) (e : Engine)
    : Engine :=
  if CacheEnabled e then
    if decide (lastInputs e !! ruleName = Some (serializeEnv envVars)) then e
    else withLastInputs (<[ruleName := serializeEnv envVars]> (lastInputs e))
           (withCache (delete ruleName (compiledCache e)) e)
  else e.

Definition preparedEngine (ruleName envKey : string) (envVars : gomap)
    (e : Engine) : Engine :=
  let e' := refreshedEngine ruleName envVars e in
  withEnv (Some (<[envKey := VMap envVars]> (default ∅ (Env e')))) e'.

Definition preparedWorld (c : Category) (envVars : gomap) (w : World) : World :=
  mkWorld (preparedEngine (ruleNameOf c) (envKeyOf c) envVars (engine w))
    (heap w) (outside w) (trace w).

(** Every cache entry points at a program. *)
Definition cacheValid (w : World) : Prop :=
  ∀ r l, compiledCache (engine w) !! r = Some l → l < length (heap w).

(** The validation a category applies to the variable [result]. *)
Definition validateCategory (c : Category) (resultVar : value)
    : M (list gomap + gomap) :=
  match c with
  | Search =>
      r <- validateItems searchItems (Variable_Array resultVar) ;; ret (inl r)
  | Info => r <- validateInfo (Variable_Map resultVar) ;; ret (inr r)
  | ChapterList =>
      r <- validateItems chapterListItems (Variable_Array resultVar) ;;
      ret (inl r)
  | Content => r <- validateContent (Variable_Map resultVar) ;; ret (inr r)
  end.

(** The entry point of a category. *)
Definition entryPoint (c : Category) (envVars : gomap)
    : M (list gomap + gomap) :=
  match c with
  | Search => r <- SearchRule envVars ;; ret (inl r)
  | Info => r <- NovelInfoRule envVars ;; ret (inr r)
  | ChapterList => r <- ChapterListRule envVars ;; ret (inl r)
  | Content => r <- ContentRule envVars ;; ret (inr r)
  end.
End observing.

(** ** Stand-ins for the collaborators

    Used to run the definitions above on concrete inputs. *)

(** Quoting without escapes, a float shown by its bit pattern. *)
Definition plainFmt : GoFmt :=
  {| Quote := λ s, dquote +:+ s +:+ dquote;
     FormatFloat := λ bits, pretty bits |}.

(** An engine whose runs are scripted: every script compiles, and each
    run takes the next planned outcome, an error or nil together with the
    value it leaves in the global [result], if it sets it at all.  A
    program is the current value of that global; as in Tengo, [Get]
    answers for every name, with the undefined value for a global that
    was never set. *)
Definition scriptedEngine : ScriptEngine :=
  {| Compiled := option value;
     Outside := list (option string * option value);
     AllModuleNames :=
       ["math"; "os"; "text"; "times"; "rand"; "fmt"; "json"; "base64";
        "hex"; "enum"];
     Compile := λ _, inr None;
     Run := λ c o,
       match o with
       | [] => mkRan c [] [] None
       | (err, res) :: rest => mkRan res rest [] err
       end;
     Get := λ c name,
       Some (if decide (name = "result") then default VNil c else VNil) |}.

(** A freshly made engine holding one rule without imports. *)
Definition oneRule (ruleName code : string) : Engine :=
  mkEngine None {[ruleName := mkRule [] code]} ∅ ∅ [] true ∅.

Definition startWorld (e : Engine) (plan : list (option string * option value))
    : @World scriptedEngine :=
  @mkWorld scriptedEngine e [] plan [].

#[local] Existing Instance plainFmt.
#[local] Existing Instance scriptedEngine.

(** *** Worlds and inputs the properties below are run on *)

(** The world after a first [RunRule "search"] whose run failed; every
    later run is planned to fail as well. *)
Definition afterFailedRun : World :=
  snd (RunRule "search"
         (startWorld (oneRule "search" "result := fetch()")
            [(Some "Runtime Error: boom", None);
             (Some "Runtime Error: boom", None)])).

Definition recordA : gomap := [("title", VString "A"); ("url", VString "u1")].

(** A world in which the rule of the category is about to produce
    [[{title:"A",url:"u1"}, 42]]. *)
Definition mixedResultWorld (ruleName : string) : World :=
  startWorld (oneRule ruleName "result = [{title: 'A', url: 'u1'}, 42]")
    [(None, Some (VArray [VMap recordA; VInt 42]))].

(** A fresh engine with a search rule whose next two runs succeed and
    leave an empty sequence in [result]. *)
Definition searchWorld : World :=
  startWorld (oneRule "search" "result = []")
    [(None, Some (VArray [])); (None, Some (VArray []))].

Definition queryA : gomap := [("query", VString "a")].
Definition queryB : gomap := [("query", VString "b")].

Definition infoNoGenres : gomap :=
  [("title", VString "T"); ("cover", VString "c.png"); ("author", VString "A");
   ("description", VString "D"); ("status", VString "ongoing")].

Definition chapterTC : gomap := [("title", VString "T"); ("content", VString "C")].

(** A fresh engine with a content rule; its run leaves [result] as
    planned. *)
Definition contentWorld (result : option value) : World :=
  startWorld (oneRule "content" "result = {title: 'T', content: 'C'}")
    [(None, result)].

(** A rule that imports [os], which the standard library provides and
    the deny list forbids, next to [html]. *)
Definition osRule : Rule := mkRule ["html"; "os"] "result = os.args()".

(** A search whose first run fails, after the opening block of
    [SearchRule] has recorded the fingerprint of [queryA]. *)
Definition failingSearch : World :=
  preparedWorld Search queryA
    (startWorld (oneRule "search" "result := fetch()")
       [(Some "Runtime Error: boom", None); (None, Some (VArray []))]).

(** * More of the code

    The functions around the ones above: the module map a script may
    import from, the fields of an engine error, and the modules the
    project adds to the script language. *)

(** ** utils.go, [buildPreamble]: what an import comes to *)

(** The imports that reach [allowedModules]: not a function import, not
    denied, and known to the standard library or to the extras. *)
Definition allowedImport (stdlibNames denyList : list string) (imp : string) : bool :=
  negb (HasPrefix imp "fn:") && negb (bool_decide (imp ∈ denyList)) &&
  (bool_decide (imp ∈ stdlibNames) || bool_decide (imp ∈ AllExtraModuleNames)).

Definition importOf (s : Stmt) : option string :=
  match s with ImportStmt imp => Some imp | FnBinding _ _ => None end.

(** ** extras/extra.go: the module map

    A module map binds a name to a module of the standard library or to
    one of the extras.  [stdlib.GetModuleMap] is the library's. *)

Inductive ModuleOrigin := StdlibModule | ExtraModule.

Section moduleMap.
Context (stdlibGetModuleMap : list string → gmap string ModuleOrigin).

Definition GetExtraModuleMap (names : list string) : gmap string ModuleOrigin :=
  foldl (λ modules name,
           if Contains AllExtraModuleNames name
           then <[name := ExtraModule]> modules else modules)
    ∅ names.

(** [moduleMap.AddMap(extraMap)] overwrites what is bound already. *)
Definition GetCustomModuleMap (allowedModules : list string)
    : gmap string ModuleOrigin :=
  let moduleMap := stdlibGetModuleMap allowedModules in
  let extras := List.filter (Contains AllExtraModuleNames) allowedModules in
  let extraMap := GetExtraModuleMap extras in
  extraMap ∪ moduleMap.
End moduleMap.

(** ** Tengo objects and module functions

    The objects a [tengo.UserFunction] of the extra modules receives and
    returns.  A call returns, fails with an error, or panics. *)

Inductive Object : Type :=
  | OUndefined
  | OBool (b : bool)
  | OInt (n : Z)
  | OFloat (bits : Z)
  | OString (s : string)
  | OArray (elems : list Object)
  | OMap (entries : list (string * Object)).

Inductive Outcome (A : Type) : Type :=
  | Returned (a : A)
  | Failed (err : string)
  | Panicked.
Arguments Returned {A}.
Arguments Failed {A}.
Arguments Panicked {A}.

Definition isFailed {A} (o : Outcome A) : bool :=
  match o with Failed _ => true | _ => false end.

(** The type assertion of an argument to a Tengo string. *)
Definition asString (o : Object) : option string :=
  match o with OString s => Some s | _ => None end.

(** ** extras/log.go

    The four functions of the module differ in their name and in the
    level they log at. *)

(** The loop over the key/value arguments: a key that is not a string
    ends the call with an error; a value that is not a string leaves a
    nil pointer whose [Value] is then read; so does a key without a
    value. *)
Fixpoint logPairs (fn : string) (args : list Object) : Outcome (list Attr) :=
  match args with
  | [] => Returned []
  | [_] => Panicked
  | k :: v :: rest =>
      match asString k with
      | None => Failed (fn +:+ ": key must be a string")
      | Some key =>
          match asString v with
          | None => Panicked
          | Some val =>
              match logPairs fn rest with
              | Returned kv => Returned (KV key (VString val) :: kv)
              | Failed err => Failed err
              | Panicked => Panicked
              end
          end
      end
  end.

Definition logFunction (name : string) (lvl : Level) (args : list Object)
    : Outcome unit * list LogRecord :=
  let fn := "log." +:+ name in
  match args with
  | [] => (Failed (fn +:+ ": expected at least one argument"), [])
  | first :: rest =>
      match asString first with
      | None => (Failed (fn +:+ ": first argument must be a string"), [])
      | Some msg =>
          if negb (Nat.even (length rest)) then
            (Failed (fn +:+ ": key-value pairs must be even in number"), [])
          else
            match logPairs fn rest with
            | Returned kv => (Returned tt, [mkLog lvl msg kv])
            | Failed err => (Failed err, [])
            | Panicked => (Panicked, [])
            end
      end
  end.

Definition logModule : list (string * (list Object → Outcome unit * list LogRecord)) :=
  [("debug", logFunction "debug" LevelDebug);
   ("info", logFunction "info" LevelInfo);
   ("warn", logFunction "warn" LevelWarn);
   ("error", logFunction "error" LevelError)].

(** Arguments that are strings throughout, taken two by two. *)
Fixpoint stringPairs (args : list Object) : option (list (string * string)) :=
  match args with
  | [] => Some []
  | OString k :: OString v :: rest =>
      match stringPairs rest with
      | Some kv => Some ((k, v) :: kv)
      | None => None
      end
  | _ => None
  end.

Definition pairArgs (pairs : list (string * string)) : list Object :=
  concat ((λ p, [OString p.1; OString p.2]) <$> pairs).

Definition pairAttrs (pairs : list (string * string)) : list Attr :=
  (λ p, KV p.1 (VString p.2)) <$> pairs.

(** ** Go's [strings] package beyond prefixes *)

(** What of [strings] depends on Unicode tables is a parameter:
    [strings.TrimSpace], and [strings.Map(unicode.ToLower, s)], which
    [strings.ToLower] falls back to when [s] is not all ASCII. *)
Class GoStrings := {
  TrimSpace : string → string;
  unicodeToLower : string → string;
}.

Fixpoint allBytes (p : ascii → bool) (s : string) : bool :=
  match s with
  | "" => true
  | String c t => p c && allBytes p t
  end.

Fixpoint mapBytes (f : ascii → ascii) (s : string) : string :=
  match s with
  | "" => ""
  | String c t => String (f c) (mapBytes f t)
  end.

Definition noByte (sep : ascii) (s : string) : bool :=
  allBytes (λ c, negb (bool_decide (c = sep))) s.

Definition isASCIIByte (c : ascii) : bool := bool_decide (nat_of_ascii c < 128).
Definition isUpperByte (c : ascii) : bool :=
  bool_decide (65 ≤ nat_of_ascii c ≤ 90).
Definition isDigitByte (c : ascii) : bool :=
  bool_decide (48 ≤ nat_of_ascii c ≤ 57).

Definition lowerByte (c : ascii) : ascii :=
  if isUpperByte c then ascii_of_nat (nat_of_ascii c + 32) else c.

(** [strings.ToLower]: bytewise on an ASCII string. *)
Definition ToLower `{GoStrings} (s : string) : string :=
  if allBytes isASCIIByte s then mapBytes lowerByte s else unicodeToLower s.

(** [strings.Contains(s, substr)] *)
Fixpoint ContainsStr (s substr : string) : bool :=
  HasPrefix s substr ||
  match s with
  | "" => false
  | String _ t => ContainsStr t substr
  end.

(** [strings.Index(s, sep)] for a one-byte [sep], as the pair
    [(s[:i], s[i+1:])]; [None] when [sep] does not occur. *)
Fixpoint cutByte (sep : ascii) (s : string) : option (string * string) :=
  match s with
  | "" => None
  | String c t =>
      if decide (c = sep) then Some ("", t)
      else prod_map (String c) id <$> cutByte sep t
  end.

(** ** utils.go: the fields of an error *)

Definition errorPrefixes : list string :=
  ["Runtime Error: "; "Compile Error: "; "Parse Error: "].

(** The loop over the prefixes: the prefix found and the header left. *)
Fixpoint findPrefix (header : string) (prefixes : list string) : string * string :=
  match prefixes with
  | [] => ("", header)
  | prefix :: rest =>
      if HasPrefix header prefix then (prefix, TrimPrefix header prefix)
      else findPrefix header rest
  end.

(** [errorToFields], on the text of the error; [strings.SplitN(s, "\n", 2)]
    cuts at the first line feed. *)
Definition errorToFields `{GoStrings} (s : string) : list string :=
  let parts := cutByte "010" s in
  let header := from_option fst s parts in
  let location := from_option (TrimSpace ∘ snd) "" parts in
  let '(foundPrefix, header) := findPrefix header errorPrefixes in
  let fields :=
    match (if decide (foundPrefix = "Runtime Error: ")
           then cutByte ":" header else None) with
    | Some (funcName, msg) => ["func"; TrimSpace funcName; "message"; TrimSpace msg]
    | None => ["message"; TrimSpace header]
    end in
  let location :=
    if HasPrefix location "at " then TrimPrefix location "at " else location in
  if decide (location = "") then fields else fields ++ ["at"; location].

(** The arguments an attribute list hands to the logger, one after the
    other; for [withPrefixes] these are the elements of the slice it
    returns. *)
Definition attrArgs `{GoStrings} (a : Attr) : list value :=
  match a with
  | KV key v => [VString key; v]
  | ErrorFields err => VString <$> errorToFields err
  end.

Definition loggerArgs `{GoStrings} (kv : list Attr) : list value :=
  concat (attrArgs <$> kv).

(** The location field of an error whose text goes on, after the first
    line, with [rest]. *)
Definition atField `{GoStrings} (rest : string) : list string :=
  let location := TrimPrefix (TrimSpace rest) "at " in
  if decide (location = "") then [] else ["at"; location].

(** ** The [anko] module *)

(** The regular expression of one or more digits, [FindString]: the
    first run of ASCII digits, as long as it goes. *)
Fixpoint takeDigits (s : string) : string :=
  match s with
  | "" => ""
  | String c t => if isDigitByte c then String c (takeDigits t) else ""
  end.

Fixpoint FindDigits (s : string) : string :=
  match s with
  | "" => ""
  | String c t => if isDigitByte c then String c (takeDigits t) else FindDigits t
  end.

Definition startsWithDigit (s : string) : bool :=
  match s with
  | "" => false
  | String c _ => isDigitByte c
  end.

Fixpoint decimalValue (acc : Z) (digits : string) : Z :=
  match digits with
  | "" => acc
  | String c t => decimalValue (10 * acc + (Z.of_nat (nat_of_ascii c) - 48))%Z t
  end.

(** [fmt.Sscanf(match, "%d", &num)] on a run of digits, for an [int] of
    [intBits] bits: a number that does not fit is a scan error, which
    the caller ignores, and [num] keeps its zero. *)
Definition scanInt (intBits : Z) (digits : string) : Z :=
  let n := decimalValue 0 digits in
  if decide (n < 2 ^ (intBits - 1))%Z then n else 0%Z.

Definition slug `{GoStrings} (s : string) : string :=
  ToLower (ReplaceAllByte s " " "-").

(** A byte a slug of an ASCII string is made of. *)
Definition slugByte (c : ascii) : bool :=
  isASCIIByte c && negb (isUpperByte c) && negb (bool_decide (c = " "%char)).

Definition slugify `{GoStrings} (args : list Object) : Outcome Object :=
  match args with
  | [a] =>
      match asString a with
      | Some s => Returned (OString (slug s))
      | None => Failed "novel.slugify: argument must be a string"
      end
  | _ => Failed "novel.slugify: expected 1 argument"
  end.

Definition chapter_number (intBits : Z) (args : list Object) : Outcome Object :=
  match args with
  | [a] =>
      match asString a with
      | Some title =>
          let found := FindDigits title in
          if decide (found = "") then Returned (OInt 0%Z)
          else Returned (OInt (scanInt intBits found))
      | None => Failed "novel.chapter_number: argument must be a string"
      end
  | _ => Failed "novel.chapter_number: expected 1 argument"
  end.

Definition is_chapter_url `{GoStrings} (args : list Object) : Outcome Object :=
  match args with
  | [a] =>
      match asString a with
      | Some urlStr => Returned (OBool (ContainsStr (ToLower urlStr) "chapter"))
      | None => Failed "novel.is_chapter_url: argument must be a string"
      end
  | _ => Failed "novel.is_chapter_url: expected 1 argument"
  end.

(** The loop of [filter_chapter_links] over the items. *)
Fixpoint chapterLinks `{GoStrings} (items : list Object) : list Object :=
  match items with
  | [] => []
  | item :: rest =>
      match asString item with
      | None => chapterLinks rest
      | Some str =>
          if ContainsStr (ToLower str) "chapter" then item :: chapterLinks rest
          else chapterLinks rest
      end
  end.

(** A call that returned [tengo.TrueValue]. *)
Definition answersTrue (r : Outcome Object) : bool :=
  match r with Returned (OBool true) => true | _ => false end.

Definition filter_chapter_links `{GoStrings} (args : list Object) : Outcome Object :=
  match args with
  | [OArray items] => Returned (OArray (chapterLinks items))
  | [_] => Failed "novel.filter_chapter_links: argument must be an array"
  | _ => Failed "novel.filter_chapter_links: expected 1 argument"
  end.

(** ** The [req] module

    The HTTP client is a collaborator: a request with its headers goes
    out, and an error or a response comes back. *)

Record Response := mkResponse {
  StatusCode : Z;
  Body : string;
  Header : list (string * list string);
}.

(** A request as the module builds it: the method, the map it gives to
    [SetHeaders], the body it sets, the URL.  What the client adds of
    its own is the client's. *)
Record Request := mkRequest {
  reqMethod : string;
  reqHeaders : list (string * string);
  reqBody : option string;
  reqURL : string;
}.

Class HttpClient := {
  Net : Type;
  send : Request → Net → (string + Response) * Net;
}.

Definition stringsToTengoArray (strs : list string) : list Object :=
  OString <$> strs.

Definition convertHeaders (hdr : list (string * list string)) : Object :=
  OMap ((λ kv, (kv.1, OArray (stringsToTengoArray kv.2))) <$> hdr).

Definition responseObject (r : Response) : Object :=
  OMap [("status", OInt (StatusCode r));
        ("body", OString (Body r));
        ("headers", convertHeaders (Header r))].

Definition retryWarning (fn : string) (attempt : Z) (err : string) : LogRecord :=
  mkLog LevelWarn (fn +:+ ": retry")
    [KV "attempt" (VInt attempt); KV "error" (VString err)].

(** What a call leaves behind: the requests sent and the records
    logged, in order. *)
Record Sent := mkSent {
  requests : list Request;
  warnings : list LogRecord;
}.

(** The loop [for i := range 2] around the request, with [turns] turns
    to go after [i] requests: [last] is what [r] and [err] hold.  A
    request that fails is logged and the loop goes on; one that succeeds
    ends it. *)
Fixpoint retryLoop `{HttpClient} (fn : string) (rq : Request) (turns : nat) (i : Z)
    (last : option (string + Response)) (sent : Sent) (net : Net)
    : option (string + Response) * Sent * Net :=
  match turns with
  | 0 => (last, sent, net)
  | S turns =>
      match send rq net with
      | (inl err, net1) =>
          retryLoop fn rq turns (i + 1) (Some (inl err))
            (mkSent (requests sent ++ [rq])
               (warnings sent ++ [retryWarning fn (i + 1) err]))
            net1
      | (inr r, net1) =>
          (Some (inr r), mkSent (requests sent ++ [rq]) (warnings sent), net1)
      end
  end.

(** The loop and what follows it: the error left in [err] is returned,
    wrapped; otherwise the response in [r] is read, which is nil had
    the loop never run. *)
Definition withRetry `{HttpClient} (fn : string) (rq : Request) (net : Net)
    : Outcome Object * Sent * Net :=
  match retryLoop fn rq 2 0 None (mkSent [] []) net with
  | (Some (inl err), sent, net1) => (Failed (fn +:+ ": " +:+ err), sent, net1)
  | (Some (inr r), sent, net1) => (Returned (responseObject r), sent, net1)
  | (None, sent, net1) => (Panicked, sent, net1)
  end.

(** [get]: the branch that reads a headers map from a second argument
    sits behind the check that there is exactly one argument. *)
Definition reqGet `{HttpClient} (args : list Object) (net : Net)
    : Outcome Object * Sent * Net :=
  match args with
  | [a] =>
      match asString a with
      | None => (Failed "http.get: argument must be a string", mkSent [] [], net)
      | Some urlStr => withRetry "http.get" (mkRequest "GET" [] None urlStr) net
      end
  | _ => (Failed "http.get: expected 1 argument", mkSent [] [], net)
  end.

(** ** More stand-ins, and the worlds the further properties are run on *)

(** The white space of ASCII: tab, line feed, vertical tab, form feed,
    carriage return and space. *)
Definition isSpaceByte (c : ascii) : bool :=
  bool_decide (9 ≤ nat_of_ascii c ≤ 13) || bool_decide (c = " "%char).

Fixpoint trimLeftSpaces (s : string) : string :=
  match s with
  | String c t => if isSpaceByte c then trimLeftSpaces t else s
  | "" => ""
  end.

Fixpoint trimRightSpaces (s : string) : string :=
  match s with
  | "" => ""
  | String c t =>
      let t' := trimRightSpaces t in
      if isSpaceByte c && bool_decide (t' = "") then "" else String c t'
  end.

(** A stand-in for the Unicode-dependent part of [strings]: ASCII white
    space is trimmed at both ends, and no letter beyond ASCII has a
    lower case. *)
Definition plainStrings : GoStrings :=
  {| TrimSpace := λ s, trimRightSpaces (trimLeftSpaces s);
     unicodeToLower := id |}.

(** A client whose answers are scripted: each request takes the next
    planned outcome; when none is left the request fails. *)
Definition scriptedClient : HttpClient :=
  {| Net := list (string + Response);
     send := λ _ net,
       match net with
       | [] => (inl "no route to host", [])
       | answer :: rest => (answer, rest)
       end |}.

Definition pageResponse : Response :=
  mkResponse 200 "<html></html>" [("Content-Type", ["text/html"])].

(** An engine that compiles nothing: every script is refused. *)
Definition refusingEngine : ScriptEngine :=
  {| Compiled := unit;
     Outside := unit;
     AllModuleNames := ["math"; "os"; "text"];
     Compile := λ _, inl "Compile Error: unresolved reference 'fetch'";
     Run := λ c o, mkRan c o [] None;
     Get := λ _ _, Some VNil |}.

Definition refusedWorld : @World refusingEngine :=
  @mkWorld refusingEngine (oneRule "search" "result = fetch()") [] tt [].

(** A standard library of three modules. *)
Definition threeModules (names : list string) : gmap string ModuleOrigin :=
  list_to_map ((λ name, (name, StdlibModule)) <$>
               List.filter (Contains ["math"; "os"; "text"]) names).

(** A search rule with the cache switched off; two runs are planned. *)
Definition uncachedWorld : World :=
  startWorld (DisableCache (oneRule "search" "result = []"))
    [(None, Some (VArray [])); (None, Some (VArray []))].

(** [searchWorld] after a first successful search for [queryA]. *)
Definition searchedWorld : World := snd (entryPoint Search queryA searchWorld).

(** A search rule whose run leaves a number in [result]. *)
Definition numberWorld : World :=
  startWorld (oneRule "search" "result = 1") [(None, Some (VInt 1))].

#[local] Existing Instance plainStrings.

Ltac each_byte c :=
  destruct c as [[] [] [] [] [] [] [] []]; vm_compute; try done.

(** * Properties *)

(** ** Maps as entry lists *)

Lemma mapGet_Some_elem_of (k : string) (v : value) (m : gomap) :
  mapGet k m = Some v → (k, v) ∈ m.
Proof.
  induction m as [|[k' x] m IH]; simpl; [done|].
  case_decide; intros Hget.
  - simplify_eq. left.
  - right. auto.
Qed.

Lemma mapGet_None (k : string) (m : gomap) :
  mapGet k m = None ↔ k ∉ m.*1.
Proof.
  induction m as [|[k' x] m IH]; simpl.
  - split; [intros _; apply not_elem_of_nil | done].
  - rewrite not_elem_of_cons. case_decide.
    + split; [done | intros [? _]; congruence].
    + rewrite IH. split; [intros ?; split; [congruence | done] | by intros [_ ?]].
Qed.

Lemma elem_of_mapGet (k : string) (v : value) (m : gomap) :
  NoDup m.*1 → (k, v) ∈ m → mapGet k m = Some v.
Proof.
  induction m as [|[k' x] m IH]; simpl; intros Hnd Hin.
  - by apply elem_of_nil in Hin.
  - apply NoDup_cons in Hnd as [Hk' Hnd].
    apply elem_of_cons in Hin as [Heq|Hin].
    + simplify_eq. by case_decide.
    + case_decide; [|by auto].
      subst k'. exfalso. apply Hk'.
      apply (list_elem_of_fmap_2 fst) in Hin. done.
Qed.

Lemma mapSet_keys (k : string) (v : value) (m : gomap) :
  (mapSet k v m).*1 = if decide (k ∈ m.*1) then m.*1 else m.*1 ++ [k].
Proof.
  induction m as [|[k' x] m IH]; cbn [mapSet].
  - rewrite decide_False; [done | apply not_elem_of_nil].
  - destruct (decide (k' = k)) as [->|Hne]; rewrite !fmap_cons; cbn [fst].
    + rewrite decide_True; [done | left].
    + rewrite IH. destruct (decide (k ∈ m.*1)) as [Hin|Hnin].
      * rewrite decide_True; [done | by right].
      * rewrite decide_False; [done|].
        rewrite not_elem_of_cons. split; [congruence | done].
Qed.

Lemma mapSet_fresh (k : string) (v : value) (m : gomap) :
  k ∉ m.*1 → mapSet k v m = m ++ [(k, v)].
Proof.
  induction m as [|[k' x] m IH]; simpl; [done|].
  rewrite not_elem_of_cons. intros [Hne Hnin].
  rewrite decide_False by congruence. by rewrite IH.
Qed.

Lemma mapSet_NoDup (k : string) (v : value) (m : gomap) :
  NoDup m.*1 → NoDup (mapSet k v m).*1.
Proof.
  intros Hnd. rewrite mapSet_keys. case_decide; [done|].
  apply NoDup_app. split_and!; [done | | apply NoDup_singleton].
  intros x Hx Hx'. apply list_elem_of_singleton in Hx'. by subst.
Qed.

Lemma mapGet_mapSet (k k' : string) (v : value) (m : gomap) :
  mapGet k' (mapSet k v m) = if decide (k = k') then Some v else mapGet k' m.
Proof.
  induction m as [|[k0 x] m IH]; simpl.
  - done.
  - destruct (decide (k0 = k)) as [->|Hne]; simpl.
    + by destruct (decide (k = k')).
    + destruct (decide (k0 = k')) as [->|Hne'].
      * by rewrite decide_False by congruence.
      * done.
Qed.

Lemma foldl_mapSet_NoDup (kvs : list (string * value)) (m : gomap) :
  NoDup m.*1 → NoDup (foldl (λ m kv, mapSet kv.1 kv.2 m) m kvs).*1.
Proof.
  revert m. induction kvs as [|[k v] kvs IH]; simpl; intros m Hnd; [done|].
  apply IH, mapSet_NoDup, Hnd.
Qed.

(** Whatever the assignments, the map that results has distinct keys. *)
Lemma makeMap_NoDup (kvs : list (string * value)) : NoDup (makeMap kvs).*1.
Proof. apply foldl_mapSet_NoDup. simpl. constructor. Qed.

Lemma foldl_mapSet_fresh (kvs : list (string * value)) (m : gomap) :
  NoDup (m ++ kvs).*1 →
  foldl (λ m kv, mapSet kv.1 kv.2 m) m kvs = m ++ kvs.
Proof.
  revert m. induction kvs as [|[k v] kvs IH]; simpl; intros m Hnd.
  - by rewrite app_nil_r.
  - rewrite mapSet_fresh.
    + rewrite IH; rewrite <-app_assoc; done.
    + rewrite fmap_app in Hnd. apply NoDup_app in Hnd as (_ & Hdisj & _).
      intros Hin. apply (Hdisj k Hin). simpl. left.
Qed.

(** Assignments to distinct keys leave the entries in assignment order. *)
Lemma makeMap_fresh (kvs : list (string * value)) :
  NoDup kvs.*1 → makeMap kvs = kvs.
Proof. intros Hnd. unfold makeMap. by rewrite foldl_mapSet_fresh. Qed.

(** Two maps with distinct keys that answer every lookup alike hold the
    same entries. *)
Lemma same_lookups_Permutation (m1 m2 : gomap) :
  NoDup m1.*1 → NoDup m2.*1 →
  (∀ k, mapGet k m1 = mapGet k m2) → m1 ≡ₚ m2.
Proof.
  intros Hnd1 Hnd2 Hget.
  apply NoDup_Permutation.
  - by eapply NoDup_fmap_1.
  - by eapply NoDup_fmap_1.
  - intros [k v]. split; intros Hin.
    + apply mapGet_Some_elem_of. rewrite <-Hget. by apply elem_of_mapGet.
    + apply mapGet_Some_elem_of. rewrite Hget. by apply elem_of_mapGet.
Qed.

(** ** The order of printed map entries *)

#[local] Instance keyLe_trans : Transitive keyLe.
Proof. intros a b c. unfold keyLe. apply transitivity. Qed.

#[local] Instance keyLe_total : Total keyLe.
Proof. intros a b. unfold keyLe. apply total, _. Qed.

(** Sorting by key forgets the order the entries came in. *)
Lemma merge_sort_keyLe_Permutation (l1 l2 : list (string * string)) :
  NoDup l1.*1 → l1 ≡ₚ l2 → merge_sort keyLe l1 = merge_sort keyLe l2.
Proof.
  intros Hnd Hperm.
  apply (StronglySorted_unique_strong keyLe).
  - intros [k1 x1] [k2 x2] Hin1 Hin2 Hle1 Hle2.
    rewrite merge_sort_Permutation in Hin1.
    rewrite merge_sort_Permutation, <-Hperm in Hin2.
    unfold keyLe in Hle1, Hle2. simpl in *.
    assert (k1 = k2) as -> by (by apply (anti_symm String.le)).
    f_equal.
    assert (Hfun : ∀ (x : string) (y1 y2 : string),
               (x, y1) ∈ l1 → (x, y2) ∈ l1 → y1 = y2).
    { intros x y1 y2. revert Hnd. clear. intros Hnd.
      induction l1 as [|[k y] l IH]; simpl in *; intros H1 H2.
      - by apply elem_of_nil in H1.
      - apply NoDup_cons in Hnd as [Hk Hnd].
        apply elem_of_cons in H1 as [E1|H1]; apply elem_of_cons in H2 as [E2|H2];
          simplify_eq; auto.
        + exfalso. apply Hk. apply (list_elem_of_fmap_2 fst) in H2. done.
        + exfalso. apply Hk. apply (list_elem_of_fmap_2 fst) in H1. done. }
    by eapply Hfun.
  - apply StronglySorted_merge_sort; apply _.
  - apply StronglySorted_merge_sort; apply _.
  - by rewrite !merge_sort_Permutation.
Qed.

Section fmt_facts.
Context {fmt : GoFmt}.

Lemma serializeEnv_Permutation (m1 m2 : gomap) :
  NoDup m1.*1 → m1 ≡ₚ m2 → serializeEnv m1 = serializeEnv m2.
Proof.
  intros Hnd Hperm. unfold serializeEnv. simpl. do 4 f_equal.
  apply merge_sort_keyLe_Permutation.
  - rewrite <-list_fmap_compose.
    erewrite (list_fmap_ext _ fst); [exact Hnd|].
    by intros ? [??].
  - by apply fmap_Permutation.
Qed.

(** The fingerprint is a function of the lookups alone. *)
Lemma serializeEnv_same_lookups (m1 m2 : gomap) :
  NoDup m1.*1 → NoDup m2.*1 →
  (∀ k, mapGet k m1 = mapGet k m2) → serializeEnv m1 = serializeEnv m2.
Proof.
  intros Hnd1 Hnd2 Hget.
  apply serializeEnv_Permutation; [done|].
  by apply same_lookups_Permutation.
Qed.
End fmt_facts.

(** ** Strings, sets and the preamble *)

Lemma ToSet_lookup (items : list string) (k : string) :
  setHas (ToSet items) k = bool_decide (k ∈ items).
Proof.
  unfold ToSet, setHas.
  induction items as [|x items IH] using rev_ind.
  - cbn [foldl]. by rewrite lookup_empty.
  - rewrite foldl_snoc. destruct (decide (x = k)) as [->|Hne].
    + rewrite lookup_insert_eq. simpl.
      rewrite bool_decide_eq_true_2; [done|]. apply elem_of_app. right. left.
    + rewrite lookup_insert_ne by done. rewrite IH.
      apply bool_decide_ext. rewrite elem_of_app, list_elem_of_singleton.
      split; [by left | by intros [?|?]].
Qed.

Lemma stripPrefix_app (prefix s : string) : stripPrefix prefix (prefix +:+ s) = Some s.
Proof.
  induction prefix as [|c prefix IH]; [done|].
  change (String c prefix +:+ s) with (String c (prefix +:+ s)).
  cbn [stripPrefix]. by rewrite decide_True.
Qed.

Lemma HasPrefix_app (prefix s : string) : HasPrefix (prefix +:+ s) prefix = true.
Proof. unfold HasPrefix. rewrite stripPrefix_app. by apply bool_decide_eq_true. Qed.

Lemma TrimPrefix_app (prefix s : string) : TrimPrefix (prefix +:+ s) prefix = s.
Proof. unfold TrimPrefix. by rewrite stripPrefix_app. Qed.

Lemma string_app_assoc (a b c : string) : (a +:+ b) +:+ c = a +:+ (b +:+ c).
Proof.
  induction a as [|x a IH]; [done|].
  change (String x a +:+ b) with (String x (a +:+ b)).
  change (String x (a +:+ b) +:+ c) with (String x ((a +:+ b) +:+ c)).
  by rewrite IH.
Qed.

Lemma builderString_app (l1 l2 : list Stmt) :
  builderString (l1 ++ l2) = builderString l1 +:+ builderString l2.
Proof.
  induction l1 as [|s l1 IH]; [done|].
  unfold builderString in *. simpl. by rewrite IH, string_app_assoc.
Qed.

Section preamble_facts.
Context (stdlibNames : list string).
Context (functions : gmap string string) (denyList : list string).

Lemma importStep_app (st : Resolving) (imp : string) :
  importStep stdlibNames functions denyList st imp = resolvingApp st (importStep stdlibNames functions denyList resolvingStart imp).
Proof.
  destruct st as [ws al lg]. unfold importStep, resolvingApp. simpl.
  repeat case_match; simpl; by rewrite ?app_nil_r.
Qed.

Lemma resolvingApp_assoc (a b c : Resolving) :
  resolvingApp (resolvingApp a b) c = resolvingApp a (resolvingApp b c).
Proof. unfold resolvingApp. simpl. by rewrite !app_assoc. Qed.

Lemma resolvingApp_start_r (a : Resolving) : resolvingApp a resolvingStart = a.
Proof. destruct a. unfold resolvingApp. simpl. by rewrite !app_nil_r. Qed.

Lemma resolvingApp_start_l (a : Resolving) : resolvingApp resolvingStart a = a.
Proof. by destruct a. Qed.

Lemma foldl_importStep (imports : list string) (st : Resolving) :
  foldl (importStep stdlibNames functions denyList) st imports = resolvingApp st (foldl (importStep stdlibNames functions denyList) resolvingStart imports).
Proof.
  revert st. induction imports as [|imp imports IH]; intros st; simpl.
  - by rewrite resolvingApp_start_r.
  - rewrite IH, (IH (importStep stdlibNames functions denyList resolvingStart imp)), importStep_app.
    by rewrite resolvingApp_assoc.
Qed.

(** Resolution goes import by import: what a list of imports yields is
    what its parts yield, one after the other. *)
Lemma resolveImports_app (l1 l2 : list string) (code : string) :
  resolveImports stdlibNames functions denyList (mkRule (l1 ++ l2) code) =
  resolvingApp (resolveImports stdlibNames functions denyList (mkRule l1 code))
    (resolveImports stdlibNames functions denyList (mkRule l2 code)).
Proof.
  unfold resolveImports. simpl. rewrite foldl_app. apply foldl_importStep.
Qed.

Lemma resolveImports_cons (imp : string) (l : list string) (code : string) :
  resolveImports stdlibNames functions denyList (mkRule (imp :: l) code) =
  resolvingApp (importStep stdlibNames functions denyList resolvingStart imp)
    (resolveImports stdlibNames functions denyList (mkRule l code)).
Proof. unfold resolveImports. simpl. apply foldl_importStep. Qed.

Lemma step_denied (imp : string) :
  HasPrefix imp "fn:" = false → imp ∈ denyList →
  importStep stdlibNames functions denyList resolvingStart imp =
    mkResolving [] []
      [mkLog LevelWarn "Import denied" [KV "import" (VString imp)]].
Proof.
  intros Hfn Hdeny. unfold importStep. rewrite Hfn, ToSet_lookup.
  by rewrite bool_decide_eq_true_2.
Qed.

Lemma step_fn_missing (key : string) :
  functions !! key = None →
  importStep stdlibNames functions denyList resolvingStart ("fn:" +:+ key) =
    mkResolving [] []
      [mkLog LevelError "Function not found" [KV "function" (VString key)]].
Proof.
  intros Hkey. unfold importStep.
  by rewrite HasPrefix_app, TrimPrefix_app, Hkey.
Qed.

Lemma step_fn_found (key fnLiteral : string) :
  functions !! key = Some fnLiteral →
  importStep stdlibNames functions denyList resolvingStart ("fn:" +:+ key) =
    mkResolving [FnBinding ("fn_" +:+ ReplaceAllByte key "." "_") fnLiteral] [] [].
Proof.
  intros Hkey. unfold importStep.
  by rewrite HasPrefix_app, TrimPrefix_app, Hkey.
Qed.

(** A step names in its import statement and in [allowedModules] only
    the import it handles, and only when the deny list does not hold it. *)
Lemma step_allows (imp other : string) :
  ImportStmt other ∈ written (importStep stdlibNames functions denyList resolvingStart imp) ∨
  other ∈ allowedModules (importStep stdlibNames functions denyList resolvingStart imp) →
  other = imp ∧ HasPrefix imp "fn:" = false ∧ imp ∉ denyList.
Proof.
  unfold importStep. destruct (HasPrefix imp "fn:") eqn:Hfn.
  - destruct (functions !! TrimPrefix imp "fn:"); simpl; intros [Hin|Hin];
      first [by apply elem_of_nil in Hin | by apply list_elem_of_singleton in Hin].
  - rewrite ToSet_lookup. case_bool_decide as Hdeny; simpl.
    { intros [Hin|Hin]; by apply elem_of_nil in Hin. }
    case_match; simpl; intros [Hin|Hin];
      first [by apply elem_of_nil in Hin
            | apply list_elem_of_singleton in Hin; by simplify_eq].
Qed.
End preamble_facts.

(** ** Validation of results *)

Lemma firstMissing_item_None (m : gomap) :
  firstMissing m ["title"; "url"] = None ↔ hasItemKeys m.
Proof.
  unfold hasItemKeys. simpl.
  destruct (mapGet "title" m), (mapGet "url" m); split; try done;
    intros [[? ?] [? ?]]; done.
Qed.

Section validation_facts.
Context {fmt : GoFmt} {eng : ScriptEngine}.

Lemma checkItems_complete (spec : ItemsRule) (records : list gomap) (i : nat) (w : World) :
  Forall hasItemKeys records →
  checkItems spec i (VMap <$> records) w = (inr tt, w).
Proof.
  intros Hall. revert i.
  induction Hall as [|m records Hm _ IH]; intros i; [done|].
  rewrite fmap_cons. cbn [checkItems asMap].
  apply firstMissing_item_None in Hm. rewrite Hm. apply IH.
Qed.

Lemma checkItems_app_complete (spec : ItemsRule) (pre : list gomap)
    (rest : list value) (i : nat) (w : World) :
  Forall hasItemKeys pre →
  checkItems spec i ((VMap <$> pre) ++ rest) w =
  checkItems spec (i + length pre) rest w.
Proof.
  intros Hall. revert i.
  induction Hall as [|m records Hm _ IH]; intros i.
  - simpl. by rewrite Nat.add_0_r.
  - rewrite fmap_cons. cbn [app checkItems asMap length].
    apply firstMissing_item_None in Hm. rewrite Hm, IH.
    by rewrite Nat.add_succ_r.
Qed.

Lemma collectItems_records (spec : ItemsRule) (records out : list gomap) (w : World) :
  collectItems spec (VMap <$> records) out w = (inr (out ++ records), w).
Proof.
  revert out. induction records as [|m records IH]; intros out.
  - simpl. by rewrite app_nil_r.
  - rewrite fmap_cons. cbn [collectItems asMap]. rewrite IH.
    by rewrite <-app_assoc.
Qed.

Lemma validateItems_complete (spec : ItemsRule) (records : list gomap) (w : World) :
  Forall hasItemKeys records →
  validateItems spec (VMap <$> records) w = (inr records, w).
Proof.
  intros Hall. unfold validateItems, bind.
  rewrite checkItems_complete by done. apply collectItems_records.
Qed.

Lemma validateItems_first_bad (spec : ItemsRule) (pre : list gomap)
    (item : value) (post : list value) (w : World) :
  Forall hasItemKeys pre →
  fst (validateItems spec ((VMap <$> pre) ++ item :: post) w) =
    match asMap item with
    | None => inl (ItemNotMap (fnName spec) (length pre))
    | Some m =>
        match firstMissing m ["title"; "url"] with
        | Some key => inl (ItemMissingKey (fnName spec) (length pre) key)
        | None => fst (validateItems spec ((VMap <$> pre ++ [m]) ++ post) w)
        end
    end.
Proof.
  intros Hall. unfold validateItems, bind.
  rewrite checkItems_app_complete by done. cbn [checkItems Nat.add].
  destruct (asMap item) as [m|] eqn:Hitem.
  - destruct (firstMissing m ["title"; "url"]) as [key|] eqn:Hkey.
    + done.
    + rewrite fmap_app, <-app_assoc. simpl.
      rewrite checkItems_app_complete by done. cbn [checkItems Nat.add asMap].
      rewrite Hkey. destruct item; try done. simpl in Hitem. by simplify_eq.
  - done.
Qed.

Lemma validateItems_frame (spec : ItemsRule) (arr : list value) (w : World) :
  let w' := snd (validateItems spec arr w) in
  engine w' = engine w ∧ heap w' = heap w ∧ outside w' = outside w.
Proof.
  assert (Hcheck : ∀ i w,
    let w' := snd (checkItems spec i arr w) in
    engine w' = engine w ∧ heap w' = heap w ∧ outside w' = outside w).
  { clear w. induction arr as [|item arr IH]; intros i w; [done|].
    cbn [checkItems]. destruct (asMap item) as [m|]; [|done].
    destruct (firstMissing m ["title"; "url"]); [done|]. apply IH. }
  assert (Hcollect : ∀ out w,
    let w' := snd (collectItems spec arr out w) in
    engine w' = engine w ∧ heap w' = heap w ∧ outside w' = outside w).
  { clear w Hcheck. induction arr as [|item arr IH]; intros out w; [done|].
    cbn [collectItems]. destruct (asMap item) as [m|]; [apply IH|].
    unfold bind, emit. cbn -[collectItems].
    specialize (IH out (mkWorld (engine w) (heap w) (outside w) (trace w ++ onSkipped spec item))).
    apply IH. }
  unfold validateItems, bind.
  specialize (Hcheck 0 w).
  destruct (checkItems spec 0 arr w) as [[err|[]] w1]; simpl in *; [done|].
  destruct (Hcollect [] w1) as (-> & -> & ->). naive_solver.
Qed.
End validation_facts.

Section info_facts.
Context {fmt : GoFmt} {eng : ScriptEngine}.

Lemma validateInfo_missing (info : gomap) (w : World) :
  (∃ key, key ∈ infoRequired ∧ mapGet key info = None) →
  ∃ key, key ∈ infoRequired ∧ mapGet key info = None ∧
         validateInfo info w = (inl (InfoMissingKey key), w).
Proof.
  intros (key & Hin & Hnone).
  unfold validateInfo, infoRequired in *. cbn [checkInfo].
  destruct (mapGet "title" info) eqn:Ht; [|by exists "title"; repeat constructor].
  destruct (mapGet "cover" info) eqn:Hc; [|by exists "cover"; repeat constructor].
  destruct (mapGet "author" info) eqn:Ha; [|by exists "author"; repeat constructor].
  destruct (mapGet "description" info) eqn:Hd;
    [|by exists "description"; repeat constructor].
  destruct (mapGet "status" info) eqn:Hs; [|by exists "status"; repeat constructor].
  destruct (mapGet "genres" info) eqn:Hg; [|by exists "genres"; repeat constructor].
  exfalso.
  repeat (apply elem_of_cons in Hin as [->|Hin]; [congruence|]).
  by apply elem_of_nil in Hin.
Qed.

Lemma validateInfo_present (info : gomap) (w : World) :
  (∀ key, key ∈ infoRequired → is_Some (mapGet key info)) →
  ∃ genres, mapGet "genres" info = Some genres ∧
    validateInfo info w =
      match asSlice genres with
      | None => (inl GenresNotArray, w)
      | Some _ => (inr info, w)
      end.
Proof.
  intros Hall. unfold infoRequired in Hall.
  destruct (Hall "title") as [? Ht]; [repeat constructor|].
  destruct (Hall "cover") as [? Hc]; [repeat constructor|].
  destruct (Hall "author") as [? Ha]; [repeat constructor|].
  destruct (Hall "description") as [? Hd]; [repeat constructor|].
  destruct (Hall "status") as [? Hs]; [repeat constructor|].
  destruct (Hall "genres") as [genres Hg]; [repeat constructor|].
  exists genres. split; [done|].
  unfold validateInfo, infoRequired. cbn [checkInfo].
  rewrite Ht, Hc, Ha, Hd, Hs, Hg. simpl.
  by destruct (asSlice genres).
Qed.
End info_facts.

(** ** Running a rule *)

Section engine_facts.
Context {fmt : GoFmt} {eng : ScriptEngine}.

Lemma RunRule_hit (ruleName : string) (w : World) (cached : loc) (c : Compiled) :
  CacheEnabled (engine w) = true →
  compiledCache (engine w) !! ruleName = Some cached →
  heap w !! cached = Some c →
  RunRule ruleName w =
    (inr cached,
     mkWorld (engine w) (<[cached := ranProgram (Run c (outside w))]> (heap w))
       (ranOutside (Run c (outside w)))
       (trace w ++
          EvLog (mkLog LevelInfo "Running cached rule" [KV "rule" (VString ruleName)])
          :: EvRun ruleName cached :: (EvLog <$> ranLog (Run c (outside w))))).
Proof.
  intros Hon Hhit Hheap.
  unfold RunRule, bind, getEngine. rewrite Hon, Hhit.
  unfold logAt, emit, runCompiled, ret. simpl. rewrite Hheap.
  by rewrite <-app_assoc.
Qed.

Lemma RunRule_not_found (ruleName : string) (w : World) :
  missesCache ruleName (engine w) →
  Rules (engine w) !! ruleName = None →
  RunRule ruleName w =
    (inl (RuleNotFound ruleName),
     mkWorld (engine w) (heap w) (outside w)
       (trace w ++
          [EvLog (mkLog LevelError "Rule not found" [KV "rule" (VString ruleName)])])).
Proof.
  intros Hmiss Hrule.
  unfold RunRule, bind, getEngine. unfold missesCache in Hmiss.
  rewrite Hmiss, Hrule. reflexivity.
Qed.

Lemma RunRule_compile_error (ruleName : string) (w : World) (rule : Rule) (err : string) :
  missesCache ruleName (engine w) →
  Rules (engine w) !! ruleName = Some rule →
  Compile (ruleScript (engine w) rule) = inl err →
  RunRule ruleName w =
    (inl (CompileError ruleName err),
     mkWorld (engine w) (heap w) (outside w)
       (trace w ++ compilingLog ruleName (engine w) rule ++
          [EvLog (mkLog LevelError "Failed to compile rule" [KV "rule" (VString ruleName)])])).
Proof.
  intros Hmiss Hrule Hc.
  unfold RunRule, bind, getEngine. unfold missesCache in Hmiss.
  rewrite Hmiss, Hrule. unfold buildPreamble.
  unfold compileScript, logAt, emit. simpl.
  unfold ruleScript in Hc. rewrite Hc. simpl.
  unfold compilingLog, ruleScript. simpl.
  by rewrite <-!app_assoc.
Qed.

Lemma RunRule_fresh (ruleName : string) (w : World) (rule : Rule) (c : Compiled) :
  missesCache ruleName (engine w) →
  Rules (engine w) !! ruleName = Some rule →
  Compile (ruleScript (engine w) rule) = inr c →
  let l := length (heap w) in
  let r := Run c (outside w) in
  RunRule ruleName w =
    (match ranErr r with
     | Some err => inl (RuntimeError ruleName err)
     | None => inr l
     end,
     mkWorld (cacheStore ruleName l (engine w)) (heap w ++ [ranProgram r])
       (ranOutside r)
       (trace w ++ compilingLog ruleName (engine w) rule ++
          EvRun ruleName l :: (EvLog <$> ranLog r) ++
          match ranErr r with
          | Some err =>
              [EvLog (mkLog LevelError "Engine error" (withPrefixes "rule" ruleName err))]
          | None => []
          end)).
Proof.
  intros Hmiss Hrule Hc l r.
  unfold RunRule, bind, getEngine. unfold missesCache in Hmiss.
  rewrite Hmiss, Hrule. unfold buildPreamble.
  unfold compileScript, logAt, emit. simpl.
  unfold ruleScript in Hc. rewrite Hc. simpl.
  unfold cacheStore, compilingLog, ruleScript, runCompiled.
  assert (Hl : (heap w ++ [c]) !! length (heap w) = Some c).
  { rewrite lookup_app_r by done. by rewrite Nat.sub_diag. }
  assert (Hi : ∀ x, <[length (heap w) := x]> (heap w ++ [c]) = heap w ++ [x]).
  { intros x. rewrite insert_app_r_alt by done. by rewrite Nat.sub_diag. }
  destruct (CacheEnabled (engine w)); simpl; rewrite Hl; simpl; rewrite Hi;
    fold r; fold l; destruct (ranErr r); simpl;
    (f_equal; f_equal; rewrite <-?app_assoc, ?app_nil_r; simpl;
     rewrite <-?app_assoc; done).
Qed.
Lemma RunRule_hit_nil (ruleName : string) (w : World) (cached : loc) :
  CacheEnabled (engine w) = true →
  compiledCache (engine w) !! ruleName = Some cached →
  heap w !! cached = None →
  RunRule ruleName w =
    (inl NilCompiled,
     mkWorld (engine w) (heap w) (outside w)
       (trace w ++
          [EvLog (mkLog LevelInfo "Running cached rule" [KV "rule" (VString ruleName)])])).
Proof.
  intros Hon Hhit Hheap.
  unfold RunRule, bind, getEngine. rewrite Hon, Hhit.
  unfold logAt, emit, runCompiled, ret. simpl. by rewrite Hheap.
Qed.

Lemma missesCache_dec (ruleName : string) (e : Engine) :
  missesCache ruleName e ∨
  ∃ cached, CacheEnabled e = true ∧ compiledCache e !! ruleName = Some cached.
Proof.
  unfold missesCache. destruct (CacheEnabled e); [|by left].
  destruct (compiledCache e !! ruleName) as [cached|]; [right; eauto | by left].
Qed.

Lemma RunRuleAndGetResult_unfold (ruleName : string) (w : World) :
  RunRuleAndGetResult ruleName w =
    match RunRule ruleName w with
    | (inl err, w1) => (inl err, w1)
    | (inr compiled, w1) =>
        match heap w1 !! compiled with
        | None => (inl NilCompiled, w1)
        | Some c =>
            match Get c "result" with
            | None =>
                (inl MissingResult,
                 mkWorld (engine w1) (heap w1) (outside w1)
                   (trace w1 ++
                      [EvLog (mkLog LevelError "Rule did not set 'result'"
                                [KV "rule" (VString ruleName)])]))
            | Some v => (inr v, w1)
            end
        end
    end.
Proof.
  unfold RunRuleAndGetResult, bind.
  destruct (RunRule ruleName w) as [[err|compiled] w1]; [done|].
  unfold getVariable. destruct (heap w1 !! compiled) as [c|]; [|done].
  by destruct (Get c "result").
Qed.

Lemma refreshInput_spec (ruleName : string) (envVars : gomap) (w : World) :
  refreshInput ruleName envVars w =
    (inr tt,
     mkWorld (refreshedEngine ruleName envVars (engine w)) (heap w)
       (outside w) (trace w)).
Proof.
  destruct w as [e hp out tr].
  unfold refreshInput, refreshedEngine, bind, getEngine. simpl.
  destruct (CacheEnabled e); [|done].
  destruct (lastInputs e !! ruleName) as [prev|] eqn:Hprev.
  - destruct (decide (prev = serializeEnv envVars)) as [->|Hne].
    + by rewrite decide_True.
    + rewrite decide_False by congruence. done.
  - by rewrite decide_False.
Qed.

Lemma bind_assoc {A B C} (m : M A) (f : A → M B) (g : B → M C) (w : World) :
  bind (bind m f) g w = bind m (λ x, bind (f x) g) w.
Proof. unfold bind. by destruct (m w) as [[?|?] ?]. Qed.

Lemma bind_ok {A B} (m : M A) (k : A → M B) (w w1 : World) (a : A) :
  m w = (inr a, w1) → bind m k w = k a w1.
Proof. unfold bind. by intros ->. Qed.

Lemma bind_err {A B} (m : M A) (k : A → M B) (w w1 : World) (err : error) :
  m w = (inl err, w1) → bind m k w = (inl err, w1).
Proof. unfold bind. by intros ->. Qed.

Lemma AddEnvVar_spec (key : string) (v : value) (w : World) :
  AddEnvVar key v w =
    (inr tt,
     mkWorld (withEnv (Some (<[key := v]> (default ∅ (Env (engine w))))) (engine w))
       (heap w) (outside w) (trace w)).
Proof.
  unfold AddEnvVar, bind, getEngine, setEngine.
  by destruct (Env (engine w)).
Qed.

Lemma entryPoint_unfold (c : Category) (envVars : gomap) (w : World) :
  entryPoint c envVars w =
    (resultVar <- RunRuleAndGetResult (ruleNameOf c) ;;
     validateCategory c resultVar) (preparedWorld c envVars w).
Proof.
  destruct c; unfold entryPoint, validateCategory;
    unfold SearchRule, NovelInfoRule, ChapterListRule, ContentRule;
    rewrite bind_assoc; erewrite bind_ok by apply refreshInput_spec;
    rewrite bind_assoc; erewrite bind_ok by apply AddEnvVar_spec;
    rewrite bind_assoc; reflexivity.
Qed.
End engine_facts.

(** ** Counting compilations, and what an invocation leaves behind *)

Lemma compileEvents_app (ruleName : string) (a b : list Event) :
  compileEvents ruleName (a ++ b) = compileEvents ruleName a + compileEvents ruleName b.
Proof.
  induction a as [|ev a IH]; [done|].
  destruct ev; simpl; try done. case_decide; simpl; by rewrite IH.
Qed.

Lemma compileEvents_logs (ruleName : string) (rs : list LogRecord) :
  compileEvents ruleName (EvLog <$> rs) = 0.
Proof. by induction rs. Qed.

Lemma compileEvents_isLog (ruleName : string) (evs : list Event) :
  Forall isLog evs → compileEvents ruleName evs = 0.
Proof. induction 1 as [|[] ? ? ? IH]; done. Qed.

Section counting.
Context {fmt : GoFmt} {eng : ScriptEngine}.

Lemma compileEvents_compilingLog (ruleName r : string) (e : Engine) (rule : Rule) :
  compileEvents r (compilingLog ruleName e rule) = if decide (ruleName = r) then 1 else 0.
Proof.
  unfold compilingLog. rewrite compileEvents_app, compileEvents_logs. simpl.
  by case_decide.
Qed.

(** What a call of [RunRule] that returns a program has done. *)
Lemma RunRule_ok_effect (ruleName : string) (w w1 : World) (l : loc) :
  RunRule ruleName w = (inr l, w1) →
  is_Some (heap w1 !! l) ∧
  match (if CacheEnabled (engine w) then compiledCache (engine w) !! ruleName else None) with
  | Some cached =>
      l = cached ∧ engine w1 = engine w ∧
      compileEvents ruleName (trace w1) = compileEvents ruleName (trace w)
  | None =>
      engine w1 = cacheStore ruleName l (engine w) ∧
      compileEvents ruleName (trace w1) = S (compileEvents ruleName (trace w))
  end.
Proof.
  intros Hrun.
  destruct (missesCache_dec ruleName (engine w)) as [Hmiss|(cached & Hon & Hhit)].
  - pose proof Hmiss as Hmiss'. unfold missesCache in Hmiss'. rewrite Hmiss'.
    destruct (Rules (engine w) !! ruleName) as [rule|] eqn:Hrule.
    2: { rewrite RunRule_not_found in Hrun by done. done. }
    destruct (Compile (ruleScript (engine w) rule)) as [err|c] eqn:Hc.
    { erewrite RunRule_compile_error in Hrun by done. done. }
    erewrite RunRule_fresh in Hrun by done.
    destruct (ranErr (Run c (outside w))); [done|].
    simplify_eq. simpl. split_and!; [|done|].
    + rewrite lookup_app_r by done. rewrite Nat.sub_diag. by eexists.
    + rewrite !compileEvents_app, compileEvents_compilingLog.
      rewrite decide_True by done. cbn [compileEvents].
      rewrite compileEvents_app, compileEvents_logs. simpl. lia.
  - rewrite Hon, Hhit.
    destruct (heap w !! cached) as [c|] eqn:Hheap.
    2: { erewrite RunRule_hit_nil in Hrun by done. done. }
    erewrite RunRule_hit in Hrun by done. simplify_eq. simpl. split_and!; try done.
    + rewrite list_lookup_insert_eq; [by eexists|]. by eapply lookup_lt_Some.
    + rewrite compileEvents_app. simpl. rewrite compileEvents_logs. lia.
Qed.

(** [RunRule] touches no field of the engine but the cache, and there
    no entry but that of its rule. *)
Lemma RunRule_engine (ruleName : string) (w : World) :
  let e1 := engine (snd (RunRule ruleName w)) in
  e1 = engine w ∨ ∃ l, e1 = cacheStore ruleName l (engine w).
Proof.
  destruct (missesCache_dec ruleName (engine w)) as [Hmiss|(cached & Hon & Hhit)].
  - destruct (Rules (engine w) !! ruleName) as [rule|] eqn:Hrule.
    2: { rewrite RunRule_not_found by done. by left. }
    destruct (Compile (ruleScript (engine w) rule)) as [err|c] eqn:Hc.
    { erewrite RunRule_compile_error by done. by left. }
    erewrite RunRule_fresh by done. right. by eexists.
  - destruct (heap w !! cached) as [c|] eqn:Hheap.
    + erewrite RunRule_hit by done. by left.
    + erewrite RunRule_hit_nil by done. by left.
Qed.

(** The scripts [RunRule] compiles are those of its rule as the engine
    holds it at the call. *)
Lemma RunRule_compiles (ruleName r : string) (script : Script) (w : World) :
  EvCompile r script ∈ trace (snd (RunRule ruleName w)) →
  EvCompile r script ∈ trace w ∨
  r = ruleName ∧ ∃ rule, Rules (engine w) !! ruleName = Some rule ∧
                         script = ruleScript (engine w) rule.
Proof.
  assert (Hlogs : ∀ rs : list LogRecord, EvCompile r script ∉ (EvLog <$> rs)).
  { intros rs Hin. apply list_elem_of_fmap in Hin as (? & ? & _). done. }
  assert (Hcl : ∀ rule, EvCompile r script ∈ compilingLog ruleName (engine w) rule →
                        r = ruleName ∧ script = ruleScript (engine w) rule).
  { intros rule Hin. unfold compilingLog in Hin.
    apply elem_of_app in Hin as [Hin|Hin]; [by apply Hlogs in Hin|].
    apply elem_of_cons in Hin as [?|Hin]; [done|].
    apply list_elem_of_singleton in Hin. by simplify_eq. }
  destruct (missesCache_dec ruleName (engine w)) as [Hmiss|(cached & Hon & Hhit)].
  - destruct (Rules (engine w) !! ruleName) as [rule|] eqn:Hrule.
    2: { rewrite RunRule_not_found by done. simpl.
         intros [Hin|Hin]%elem_of_app; [by left|].
         apply list_elem_of_singleton in Hin. done. }
    destruct (Compile (ruleScript (engine w) rule)) as [err|c] eqn:Hc.
    { erewrite RunRule_compile_error by done. simpl.
      intros [Hin|[Hin|Hin]%elem_of_app]%elem_of_app; [by left| |].
      - right. apply Hcl in Hin as [-> ->]. eauto.
      - apply list_elem_of_singleton in Hin. done. }
    erewrite RunRule_fresh by done. simpl.
    intros [Hin|[Hin|Hin]%elem_of_app]%elem_of_app; [by left| |].
    + right. apply Hcl in Hin as [-> ->]. eauto.
    + apply elem_of_cons in Hin as [?|Hin]; [done|].
      apply elem_of_app in Hin as [Hin|Hin]; [by apply Hlogs in Hin|].
      destruct (ranErr (Run c (outside w))).
      * apply list_elem_of_singleton in Hin. done.
      * by apply elem_of_nil in Hin.
  - destruct (heap w !! cached) as [c|] eqn:Hheap.
    + erewrite RunRule_hit by done. simpl.
      intros [Hin|Hin]%elem_of_app; [by left|].
      apply elem_of_cons in Hin as [?|Hin]; [done|].
      apply elem_of_cons in Hin as [?|Hin]; [done|].
      by apply Hlogs in Hin.
    + erewrite RunRule_hit_nil by done. simpl.
      intros [Hin|Hin]%elem_of_app; [by left|].
      apply list_elem_of_singleton in Hin. done.
Qed.
End counting.

Section categories.
Context {fmt : GoFmt} {eng : ScriptEngine}.

Lemma RunRuleAndGetResult_ok (ruleName : string) (w w1 : World) (v : value) :
  RunRuleAndGetResult ruleName w = (inr v, w1) →
  ∃ l c, RunRule ruleName w = (inr l, w1) ∧ heap w1 !! l = Some c ∧
         Get c "result" = Some v.
Proof.
  rewrite RunRuleAndGetResult_unfold.
  destruct (RunRule ruleName w) as [[err|l] w'] eqn:Hrun; [done|].
  destruct (heap w' !! l) as [c|] eqn:Hheap; [|done].
  destruct (Get c "result") as [v'|] eqn:Hget; [|done].
  intros ?; simplify_eq. eauto.
Qed.

(** After [RunRule], [RunRuleAndGetResult] at most logs. *)
Lemma RunRuleAndGetResult_after (ruleName : string) (w : World) :
  let w1 := snd (RunRule ruleName w) in
  let w2 := snd (RunRuleAndGetResult ruleName w) in
  engine w2 = engine w1 ∧ heap w2 = heap w1 ∧ outside w2 = outside w1 ∧
  ∃ logs, trace w2 = trace w1 ++ logs ∧ Forall isLog logs.
Proof.
  rewrite RunRuleAndGetResult_unfold.
  destruct (RunRule ruleName w) as [[err|l] w'] eqn:Hrun; simpl.
  { split_and!; try done. exists []. by rewrite app_nil_r. }
  destruct (heap w' !! l) as [c|] eqn:Hheap; simpl.
  2: { split_and!; try done. exists []. by rewrite app_nil_r. }
  destruct (Get c "result") as [v'|] eqn:Hget; simpl.
  { split_and!; try done. exists []. by rewrite app_nil_r. }
  split_and!; try done. eexists. split; [done|]. by repeat constructor.
Qed.

Lemma checkItems_ok (spec : ItemsRule) (arr : list value) (i : nat) (w w1 : World) :
  checkItems spec i arr w = (inr tt, w1) →
  w1 = w ∧ ∃ records, arr = VMap <$> records ∧ Forall hasItemKeys records.
Proof.
  revert i. induction arr as [|item arr IH]; intros i; cbn [checkItems].
  - unfold ret. intros ?; simplify_eq. split; [done|]. by exists [].
  - destruct (asMap item) as [m|] eqn:Hitem; [|by cbv [bind emit fail]].
    destruct (firstMissing m ["title"; "url"]) eqn:Hkeys;
      [by cbv [bind emit fail]|].
    intros (-> & records & -> & Hall)%IH. split; [done|].
    exists (m :: records). split.
    + destruct item; try done. simpl in Hitem. by simplify_eq.
    + constructor; [by apply firstMissing_item_None | done].
Qed.

Lemma validateItems_ok (spec : ItemsRule) (arr : list value) (out : list gomap)
    (w w1 : World) :
  validateItems spec arr w = (inr out, w1) →
  w1 = w ∧ arr = VMap <$> out ∧ Forall hasItemKeys out.
Proof.
  unfold validateItems, bind.
  destruct (checkItems spec 0 arr w) as [[err|[]] w'] eqn:Hcheck; [done|].
  apply checkItems_ok in Hcheck as (-> & records & -> & Hall).
  rewrite collectItems_records. simpl. by intros ?; simplify_eq.
Qed.

Lemma validateCategory_ok (c : Category) (v : value) (r : list gomap + gomap)
    (w w1 : World) :
  validateCategory c v w = (inr r, w1) → w1 = w.
Proof.
  destruct c; unfold validateCategory, bind, ret, fail.
  - destruct (validateItems _ _ w) as [[err|out] w'] eqn:Hv; [done|].
    apply validateItems_ok in Hv as (-> & _). intros ?; by simplify_eq.
  - unfold validateInfo, ret, fail. destruct (checkInfo _ _); [done|].
    intros ?; by simplify_eq.
  - destruct (validateItems _ _ w) as [[err|out] w'] eqn:Hv; [done|].
    apply validateItems_ok in Hv as (-> & _). intros ?; by simplify_eq.
  - unfold validateContent, ret, fail. destruct (firstMissing _ _); [done|].
    intros ?; by simplify_eq.
Qed.

Lemma checkItems_trace (spec : ItemsRule) (arr : list value) (i : nat) (w : World) :
  (∀ j, Forall isLog (onNotMap spec j)) →
  (∀ key, Forall isLog (onMissingKey spec key)) →
  ∃ logs, trace (snd (checkItems spec i arr w)) = trace w ++ logs ∧ Forall isLog logs.
Proof.
  intros Hnm Hmk. revert i.
  induction arr as [|item arr IH]; intros i; cbn [checkItems].
  - exists []. by rewrite app_nil_r.
  - destruct (asMap item) as [m|]; [|by cbv [bind emit fail]; eexists].
    destruct (firstMissing m ["title"; "url"]);
      [by cbv [bind emit fail]; eexists | apply IH].
Qed.

Lemma collectItems_trace (spec : ItemsRule) (arr : list value) (out : list gomap)
    (w : World) :
  (∀ item, Forall isLog (onSkipped spec item)) →
  ∃ logs, trace (snd (collectItems spec arr out w)) = trace w ++ logs ∧
          Forall isLog logs.
Proof.
  intros Hsk. revert out w.
  induction arr as [|item arr IH]; intros out w; cbn [collectItems].
  - exists []. by rewrite app_nil_r.
  - destruct (asMap item) as [m|]; [apply IH|].
    unfold bind, emit. cbn -[collectItems].
    destruct (IH out (mkWorld (engine w) (heap w) (outside w)
                        (trace w ++ onSkipped spec item))) as (logs & -> & Hlogs).
    simpl. exists (onSkipped spec item ++ logs).
    split; [by rewrite app_assoc | by apply Forall_app].
Qed.

Lemma validateItems_trace (spec : ItemsRule) (arr : list value) (w : World) :
  (∀ j, Forall isLog (onNotMap spec j)) →
  (∀ key, Forall isLog (onMissingKey spec key)) →
  (∀ item, Forall isLog (onSkipped spec item)) →
  ∃ logs, trace (snd (validateItems spec arr w)) = trace w ++ logs ∧
          Forall isLog logs.
Proof.
  intros Hnm Hmk Hsk. unfold validateItems, bind.
  destruct (checkItems_trace spec arr 0 w Hnm Hmk) as (logs1 & Ht1 & Hl1).
  destruct (checkItems spec 0 arr w) as [[err|[]] w1]; simpl in *; [by eauto|].
  destruct (collectItems_trace spec arr [] w1 Hsk) as (logs2 & -> & Hl2).
  rewrite Ht1. exists (logs1 ++ logs2).
  split; [by rewrite app_assoc | by apply Forall_app].
Qed.

(** Validation leaves the engine alone and at most logs. *)
Lemma validateCategory_frame (c : Category) (v : value) (w : World) :
  let w1 := snd (validateCategory c v w) in
  engine w1 = engine w ∧ heap w1 = heap w ∧ outside w1 = outside w ∧
  ∃ logs, trace w1 = trace w ++ logs ∧ Forall isLog logs.
Proof.
  assert (Hitems : ∀ spec arr,
    (∀ j, Forall isLog (onNotMap spec j)) →
    (∀ key, Forall isLog (onMissingKey spec key)) →
    (∀ item, Forall isLog (onSkipped spec item)) →
    let w1 := snd (bind (validateItems spec arr)
                     (λ r, ret (inl r : list gomap + gomap)) w) in
    engine w1 = engine w ∧ heap w1 = heap w ∧ outside w1 = outside w ∧
    ∃ logs, trace w1 = trace w ++ logs ∧ Forall isLog logs).
  { intros spec arr Hnm Hmk Hsk. unfold bind.
    pose proof (validateItems_frame spec arr w) as (He & Hh & Ho).
    pose proof (validateItems_trace spec arr w Hnm Hmk Hsk) as Ht.
    by destruct (validateItems spec arr w) as [[err|out] w']. }
  destruct c; unfold validateCategory.
  - apply Hitems; intros; simpl; by repeat constructor.
  - unfold bind, validateInfo. destruct (checkInfo _ _); simpl;
      (split_and!; try done; exists []; by rewrite app_nil_r).
  - apply Hitems; intros; simpl; by repeat constructor.
  - unfold bind, validateContent. destruct (firstMissing _ _); simpl;
      (split_and!; try done; exists []; by rewrite app_nil_r).
Qed.
End categories.

Section cache_facts.
Context {fmt : GoFmt} {eng : ScriptEngine}.

Lemma preparedEngine_fields (ruleName envKey : string) (envVars : gomap) (e : Engine) :
  let e' := preparedEngine ruleName envKey envVars e in
  CacheEnabled e' = CacheEnabled e ∧ Rules e' = Rules e ∧
  Functions e' = Functions e ∧ denyLibs e' = denyLibs e ∧
  Env e' = Some (<[envKey := VMap envVars]> (default ∅ (Env e))).
Proof.
  unfold preparedEngine, refreshedEngine.
  destruct (CacheEnabled e) eqn:Hon; [case_decide|]; simpl; by rewrite ?Hon.
Qed.

Lemma preparedEngine_cache (ruleName envKey : string) (envVars : gomap) (e : Engine) :
  CacheEnabled e = true →
  let e' := preparedEngine ruleName envKey envVars e in
  lastInputs e' = <[ruleName := serializeEnv envVars]> (lastInputs e) ∧
  compiledCache e' =
    if decide (lastInputs e !! ruleName = Some (serializeEnv envVars))
    then compiledCache e else delete ruleName (compiledCache e).
Proof.
  intros Hon. unfold preparedEngine, refreshedEngine. rewrite Hon.
  case_decide as Hprev; simpl; [|done].
  by rewrite insert_id.
Qed.

Lemma entryPoint_ok (c : Category) (envVars : gomap) (w w1 : World)
    (r : list gomap + gomap) :
  entryPoint c envVars w = (inr r, w1) →
  ∃ l, RunRule (ruleNameOf c) (preparedWorld c envVars w) = (inr l, w1).
Proof.
  rewrite entryPoint_unfold. unfold bind.
  destruct (RunRuleAndGetResult _ _) as [[err|v] w'] eqn:Hrun; [done|].
  intros Hv. apply validateCategory_ok in Hv as ->.
  apply RunRuleAndGetResult_ok in Hrun as (l & c' & Hrun & _). eauto.
Qed.

Lemma cacheStore_fields (ruleName : string) (l : loc) (e : Engine) :
  CacheEnabled e = true →
  CacheEnabled (cacheStore ruleName l e) = true ∧
  compiledCache (cacheStore ruleName l e) !! ruleName = Some l ∧
  lastInputs (cacheStore ruleName l e) = lastInputs e.
Proof.
  intros Hon. unfold cacheStore. rewrite Hon. simpl.
  by rewrite lookup_insert_eq.
Qed.

End cache_facts.

Section hit_facts.
Context {fmt : GoFmt} {eng : ScriptEngine}.

(** With the recorded fingerprint, the opening block of a rule function
    keeps the cached program and [RunRule] runs it without compiling. *)
Lemma RunRule_same_input_hits (ruleName envKey : string) (envVars : gomap)
    (w1 : World) (l : loc) (c : Compiled) :
  CacheEnabled (engine w1) = true →
  compiledCache (engine w1) !! ruleName = Some l →
  heap w1 !! l = Some c →
  lastInputs (engine w1) !! ruleName = Some (serializeEnv envVars) →
  let w2 := mkWorld (preparedEngine ruleName envKey envVars (engine w1))
              (heap w1) (outside w1) (trace w1) in
  fst (RunRule ruleName w2) = inr l ∧
  compileEvents ruleName (trace (snd (RunRule ruleName w2))) =
    compileEvents ruleName (trace w1) ∧
  EvLog (mkLog LevelInfo "Running cached rule" [KV "rule" (VString ruleName)])
    ∈ trace (snd (RunRule ruleName w2)).
Proof.
  intros Hon Hc Hheap Hprev w2.
  pose proof (preparedEngine_fields ruleName envKey envVars (engine w1))
    as (Hon2 & _).
  pose proof (preparedEngine_cache ruleName envKey envVars (engine w1) Hon)
    as (_ & Hc2).
  rewrite decide_True in Hc2 by done.
  assert (Hon2' : CacheEnabled (engine w2) = true).
  { unfold w2. cbn [engine]. congruence. }
  assert (Hc2' : compiledCache (engine w2) !! ruleName = Some l).
  { unfold w2. cbn [engine]. by rewrite Hc2. }
  rewrite (RunRule_hit ruleName w2 l c Hon2' Hc2' Hheap).
  cbn [fst snd trace]. split_and!; [done| |].
  - rewrite compileEvents_app. cbn [compileEvents].
    rewrite compileEvents_logs. unfold w2. cbn [trace]. lia.
  - apply elem_of_app. right. left.
Qed.

End hit_facts.

Section entry_facts.
Context {fmt : GoFmt} {eng : ScriptEngine}.



(** The world after an entry point: the prepared engine, possibly with
    a fresh program stored for the rule; new compilations are of the
    rule of the category, in the prepared engine. *)
Lemma entryPoint_effect (c : Category) (envVars : gomap) (w : World) :
  let w1 := snd (entryPoint c envVars w) in
  let p := preparedEngine (ruleNameOf c) (envKeyOf c) envVars (engine w) in
  (engine w1 = p ∨ ∃ l, engine w1 = cacheStore (ruleNameOf c) l p) ∧
  ∀ r script,
    EvCompile r script ∈ trace w1 →
    EvCompile r script ∈ trace w ∨
    r = ruleNameOf c ∧
    ∃ rule, Rules (engine w) !! ruleNameOf c = Some rule ∧ script = ruleScript p rule.
Proof.
  intros w1 p. subst w1. rewrite entryPoint_unfold.
  set (pw := preparedWorld c envVars w).
  pose proof (RunRule_engine (ruleNameOf c) pw) as Heng.
  pose proof (RunRuleAndGetResult_after (ruleNameOf c) pw)
    as (He & _ & _ & logs1 & Ht1 & Hl1).
  pose proof (λ r script, RunRule_compiles (ruleNameOf c) r script pw) as Hcomp.
  assert (Hrules : Rules (engine pw) = Rules (engine w)).
  { unfold pw, preparedWorld. cbn [engine].
    by destruct (preparedEngine_fields (ruleNameOf c) (envKeyOf c) envVars (engine w))
      as (_ & -> & _). }
  assert (Hnolog : ∀ r script (logs : list Event),
             Forall isLog logs → EvCompile r script ∉ logs).
  { intros r script logs Hl Hin. rewrite Forall_forall in Hl.
    by apply Hl in Hin. }
  unfold bind.
  destruct (RunRuleAndGetResult (ruleNameOf c) pw) as [[err|v] w'] eqn:Hrun;
    cbn [snd] in *.
  - split; [by rewrite He|].
    intros r script Hin. rewrite Ht1 in Hin.
    apply elem_of_app in Hin as [Hin|Hin]; [|by apply Hnolog in Hin].
    apply Hcomp in Hin as [Hin|(-> & rule & Hrule & ->)]; [by left|].
    right. split; [done|]. exists rule. by rewrite <-Hrules.
  - pose proof (validateCategory_frame c v w') as (He2 & _ & _ & logs2 & Ht2 & Hl2).
    split; [by rewrite He2, He|].
    intros r script Hin. rewrite Ht2, Ht1 in Hin.
    apply elem_of_app in Hin as [Hin|Hin]; [|by apply Hnolog in Hin].
    apply elem_of_app in Hin as [Hin|Hin]; [|by apply Hnolog in Hin].
    apply Hcomp in Hin as [Hin|(-> & rule & Hrule & ->)]; [by left|].
    right. split; [done|]. exists rule. by rewrite <-Hrules.
Qed.



End entry_facts.

Section valid_facts.
Context {fmt : GoFmt} {eng : ScriptEngine}.

(** The cache never comes to hold a pointer to no program, so the
    error [NilCompiled] stays out of reach. *)
Lemma RunRule_cacheValid (ruleName : string) (w : World) :
  cacheValid w →
  cacheValid (snd (RunRule ruleName w)) ∧
  fst (RunRule ruleName w) ≠ inl NilCompiled.
Proof.
  intros Hv.
  destruct (missesCache_dec ruleName (engine w)) as [Hmiss|(cached & Hon & Hhit)].
  - destruct (Rules (engine w) !! ruleName) as [rule|] eqn:Hrule.
    2: { by rewrite RunRule_not_found. }
    destruct (Compile (ruleScript (engine w) rule)) as [err|c] eqn:Hc.
    { by erewrite RunRule_compile_error. }
    erewrite RunRule_fresh by done. cbn [fst snd]. split.
    + intros r l. cbn [engine heap]. rewrite length_app. cbn [length].
      unfold cacheStore. destruct (CacheEnabled (engine w));
        cbn [compiledCache withCache].
      * destruct (decide (ruleName = r)) as [->|Hne].
        -- rewrite lookup_insert_eq. intros ?; simplify_eq. lia.
        -- rewrite lookup_insert_ne by done. intros Hl%Hv. lia.
      * intros Hl%Hv. lia.
    + by destruct (ranErr _).
  - destruct (heap w !! cached) as [c|] eqn:Hheap.
    + erewrite RunRule_hit by done. cbn [fst snd]. split; [|done].
      intros r l. cbn [engine heap]. rewrite length_insert. apply Hv.
    + apply Hv in Hhit. apply lookup_ge_None in Hheap. lia.
Qed.

Lemma entryPoint_cacheValid (c : Category) (envVars : gomap) (w : World) :
  cacheValid w → cacheValid (snd (entryPoint c envVars w)).
Proof.
  intros Hv. rewrite entryPoint_unfold.
  set (pw := preparedWorld c envVars w).
  assert (Hpv : cacheValid pw).
  { intros r l. unfold pw, preparedWorld. cbn [engine heap].
    unfold preparedEngine, refreshedEngine.
    destruct (CacheEnabled (engine w)); [case_decide|];
      cbn [compiledCache withEnv withLastInputs withCache]; try apply Hv.
    intros Hl. apply lookup_delete_Some in Hl as [_ Hl]. by eapply Hv. }
  destruct (RunRule_cacheValid (ruleNameOf c) pw Hpv) as [Hv1 _].
  pose proof (RunRuleAndGetResult_after (ruleNameOf c) pw) as (He & Hh & _).
  unfold bind.
  destruct (RunRuleAndGetResult (ruleNameOf c) pw) as [[err|v] w'] eqn:Hrun;
    cbn [fst snd] in *.
  - intros r l. rewrite He, Hh. apply Hv1.
  - pose proof (validateCategory_frame c v w') as (He2 & Hh2 & _).
    intros r l. rewrite He2, Hh2, He, Hh. apply Hv1.
Qed.

(** Once caching is disabled every rule is compiled afresh. *)
Lemma DisableCache_misses (e : Engine) (ruleName : string) :
  missesCache ruleName (DisableCache e) ∧
  compiledCache (DisableCache e) = ∅ ∧ lastInputs (DisableCache e) = ∅.
Proof. done. Qed.

(** A world made from a fresh engine is valid. *)
Lemma NewEngine_cacheValid (hp : list Compiled) (out : Outside) (tr : list Event) :
  cacheValid (mkWorld NewEngine hp out tr).
Proof. intros r l. cbn. by rewrite lookup_empty. Qed.
End valid_facts.

(** * The claims of the specification *)

(** C1.  A run that fails is reported by [RunRule] as
    [RuntimeError ruleName] on the fresh-compile path only.  On the
    cache-hit path the error [Run] returns is discarded and [RunRule]
    returns the cached program with a nil error: the failure of the
    cached program is reported as success. *)
Theorem RunRule_execution_failure {fmt : GoFmt} {eng : ScriptEngine}
    (ruleName : string) (w : World) (c : Compiled) (err : string) :
  ranErr (Run c (outside w)) = Some err →
  (∀ rule, missesCache ruleName (engine w) →
           Rules (engine w) !! ruleName = Some rule →
           Compile (ruleScript (engine w) rule) = inr c →
           fst (RunRule ruleName w) = inl (RuntimeError ruleName err)) ∧
  (∀ cached, CacheEnabled (engine w) = true →
             compiledCache (engine w) !! ruleName = Some cached →
             heap w !! cached = Some c →
             fst (RunRule ruleName w) = inr cached).
Proof.
  intros Herr. split.
  - intros rule Hmiss Hrule Hc. erewrite RunRule_fresh by done.
    cbn [fst]. by rewrite Herr.
  - intros cached Hon Hhit Hheap. by erewrite RunRule_hit.
Qed.

Lemma RunRule_execution_failure_witness :
  ranErr (Run (None : Compiled) (outside afterFailedRun))
    = Some "Runtime Error: boom" ∧
  CacheEnabled (engine afterFailedRun) = true ∧
  compiledCache (engine afterFailedRun) !! "search" = Some 0 ∧
  heap afterFailedRun !! 0 = Some None ∧
  fst (RunRule "search" afterFailedRun) = inr 0.
Proof.
  split_and!; [vm_compute; reflexivity..|].
  apply (proj2 (RunRule_execution_failure "search" afterFailedRun None
                  "Runtime Error: boom" eq_refl));
    vm_compute; reflexivity.
Defined.

(** C2, as amended.  Validation of a search or chapter-list result stops
    at the first element that is not a record, or is a record without
    [title] or [url], with an error that names the index of that element;
    a sequence of records that all hold both keys is returned as it is,
    with nothing dropped. *)
Theorem validateItems_first_offender {fmt : GoFmt} {eng : ScriptEngine}
    (spec : ItemsRule) (pre : list gomap) (item : value) (post : list value)
    (w : World) :
  Forall hasItemKeys pre →
  let arr := (VMap <$> pre) ++ item :: post in
  let fails (err : error) := fst (validateItems spec arr w) = inl err in
  (asMap item = None → fails (ItemNotMap (fnName spec) (length pre))) ∧
  (∀ m, item = VMap m → mapGet "title" m = None →
        fails (ItemMissingKey (fnName spec) (length pre) "title")) ∧
  (∀ m, item = VMap m → is_Some (mapGet "title" m) → mapGet "url" m = None →
        fails (ItemMissingKey (fnName spec) (length pre) "url")) ∧
  validateItems spec (VMap <$> pre) w = (inr pre, w).
Proof.
  intros Hpre arr fails. subst arr fails. cbv beta.
  rewrite validateItems_first_bad by done.
  split_and!.
  - by intros ->.
  - intros m -> Ht. cbn [asMap firstMissing]. by rewrite Ht.
  - intros m -> [t Ht] Hu. cbn [asMap firstMissing]. by rewrite Ht, Hu.
  - by apply validateItems_complete.
Qed.

Lemma validateItems_first_offender_witness :
  Forall hasItemKeys [recordA] ∧
  fst (validateItems searchItems [VMap recordA; VInt 42]
         (mixedResultWorld "search"))
    = inl (ItemNotMap "SearchRule" 1) ∧
  validateItems chapterListItems [VMap recordA] (mixedResultWorld "chapter-list")
    = (inr [recordA], mixedResultWorld "chapter-list").
Proof.
  assert (Hpre : Forall hasItemKeys [recordA]).
  { repeat constructor; by eexists. }
  split_and!; [exact Hpre | |].
  - exact (proj1 (validateItems_first_offender searchItems [recordA] (VInt 42) []
                    (mixedResultWorld "search") Hpre) eq_refl).
  - exact (proj2 (proj2 (proj2
             (validateItems_first_offender chapterListItems [recordA] VNil []
                (mixedResultWorld "chapter-list") Hpre)))).
Defined.

(** The claim C2 as it stands fails: on [[{title:"A",url:"u1"}, 42]]
    both entry points return the error "item 1 is not a map", not the
    first record. *)
Lemma non_record_item_not_dropped :
  fst (SearchRule [] (mixedResultWorld "search"))
    = inl (ItemNotMap "SearchRule" 1) ∧
  fst (ChapterListRule [] (mixedResultWorld "chapter-list"))
    = inl (ItemNotMap "ChapterListRule" 1) ∧
  fst (validateItems searchItems [VMap recordA; VInt 42] (mixedResultWorld "search"))
    ≠ inr [recordA] ∧
  errorText (ItemNotMap "SearchRule" 1) = "SearchRule: item 1 is not a map".
Proof. split_and!; by vm_compute. Qed.

(** C3.  With caching enabled and no program cached for the rule of a
    category, two successful invocations of its entry point in a row
    compile once when their inputs have the same fingerprint and twice
    when the fingerprints differ. *)
Theorem cache_coherency {fmt : GoFmt} {eng : ScriptEngine}
    (c : Category) (env1 env2 : gomap) (w0 : World) :
  CacheEnabled (engine w0) = true →
  compiledCache (engine w0) !! ruleNameOf c = None →
  succeeded (fst (entryPoint c env1 w0)) →
  succeeded (fst (entryPoint c env2 (snd (entryPoint c env1 w0)))) →
  compileEvents (ruleNameOf c)
    (trace (snd (entryPoint c env2 (snd (entryPoint c env1 w0))))) =
  compileEvents (ruleNameOf c) (trace w0) +
    (if decide (serializeEnv env1 = serializeEnv env2) then 1 else 2).
Proof.
  intros Hon Hnone Hok1 Hok2.
  destruct (entryPoint c env1 w0) as [[err|r1] w1] eqn:Hrun1; [done|].
  cbn [fst snd] in *.
  destruct (entryPoint c env2 w1) as [[err|r2] w2] eqn:Hrun2; [done|].
  cbn [fst snd]. clear Hok1 Hok2.
  apply entryPoint_ok in Hrun1 as [l1 Hrun1].
  apply entryPoint_ok in Hrun2 as [l2 Hrun2].
  apply RunRule_ok_effect in Hrun1 as [_ Hrun1].
  apply RunRule_ok_effect in Hrun2 as [_ Hrun2].
  unfold preparedWorld in Hrun1, Hrun2. cbn [engine trace] in Hrun1, Hrun2.
  pose proof (preparedEngine_fields (ruleNameOf c) (envKeyOf c) env1 (engine w0))
    as (Hon0 & _).
  pose proof (preparedEngine_cache (ruleNameOf c) (envKeyOf c) env1 (engine w0) Hon)
    as (Hin0 & Hcache0).
  rewrite Hon0, Hon, Hcache0 in Hrun1.
  assert (Hmiss : (if decide (lastInputs (engine w0) !! ruleNameOf c
                              = Some (serializeEnv env1))
                   then compiledCache (engine w0)
                   else delete (ruleNameOf c) (compiledCache (engine w0)))
                  !! ruleNameOf c = None).
  { case_decide; [done | apply lookup_delete_eq]. }
  rewrite Hmiss in Hrun1. destruct Hrun1 as [He1 Hcount1].
  assert (Hon0' : CacheEnabled (preparedEngine (ruleNameOf c) (envKeyOf c) env1
                                  (engine w0)) = true) by congruence.
  pose proof (cacheStore_fields (ruleNameOf c) l1 _ Hon0') as (Hon1 & Hc1 & Hin1).
  rewrite <-He1 in Hon1, Hc1, Hin1.
  pose proof (preparedEngine_fields (ruleNameOf c) (envKeyOf c) env2 (engine w1))
    as (Hon2 & _).
  pose proof (preparedEngine_cache (ruleNameOf c) (envKeyOf c) env2 (engine w1) Hon1)
    as (_ & Hcache2).
  rewrite Hon2, Hon1, Hcache2 in Hrun2.
  rewrite Hin1, Hin0, lookup_insert_eq in Hrun2.
  destruct (decide (serializeEnv env1 = serializeEnv env2)) as [Heq|Hne].
  - rewrite decide_True in Hrun2 by congruence. rewrite Hc1 in Hrun2.
    destruct Hrun2 as (_ & _ & ->). rewrite Hcount1. lia.
  - rewrite decide_False in Hrun2 by congruence.
    rewrite lookup_delete_eq in Hrun2.
    destruct Hrun2 as (_ & ->). rewrite Hcount1. lia.
Qed.

Lemma cache_coherency_witness :
  CacheEnabled (engine searchWorld) = true ∧
  compiledCache (engine searchWorld) !! "search" = None ∧
  succeeded (fst (entryPoint Search queryA searchWorld)) ∧
  succeeded (fst (entryPoint Search queryB
                    (snd (entryPoint Search queryA searchWorld)))) ∧
  compileEvents "search"
    (trace (snd (entryPoint Search queryB
                   (snd (entryPoint Search queryA searchWorld))))) = 2 ∧
  compileEvents "search"
    (trace (snd (entryPoint Search queryA
                   (snd (entryPoint Search queryA searchWorld))))) = 1.
Proof.
  split_and!; [vm_compute; done..| |].
  - rewrite (cache_coherency Search queryA queryB searchWorld);
      vm_compute; done.
  - rewrite (cache_coherency Search queryA queryA searchWorld);
      vm_compute; done.
Defined.

(** C4.  Two maps built by assigning the same key/value pairs in
    different orders have the same fingerprint, so after an invocation
    with the one an invocation with the other evicts nothing. *)
Theorem serializeEnv_insertion_order {fmt : GoFmt} {eng : ScriptEngine}
    (ins1 ins2 : list (string * value)) :
  NoDup ins1.*1 → ins1 ≡ₚ ins2 →
  serializeEnv (makeMap ins1) = serializeEnv (makeMap ins2) ∧
  ∀ (ruleName : string) (w : World),
    lastInputs (engine w) !! ruleName = Some (serializeEnv (makeMap ins1)) →
    refreshInput ruleName (makeMap ins2) w = (inr tt, w).
Proof.
  intros Hnd Hperm.
  assert (Hnd2 : NoDup ins2.*1) by (by rewrite <-Hperm).
  assert (Heq : serializeEnv (makeMap ins1) = serializeEnv (makeMap ins2)).
  { rewrite !makeMap_fresh by done. by apply serializeEnv_Permutation. }
  split; [done|].
  intros ruleName w Hprev. rewrite refreshInput_spec.
  unfold refreshedEngine. rewrite Heq in Hprev.
  destruct w as [e hp out tr]. cbn [engine heap outside trace] in *.
  destruct (CacheEnabled e); [|done]. by rewrite decide_True.
Qed.

Lemma serializeEnv_insertion_order_witness :
  NoDup [("query", VString "a"); ("page", VInt 2)].*1 ∧
  [("query", VString "a"); ("page", VInt 2)]
    ≡ₚ [("page", VInt 2); ("query", VString "a")] ∧
  serializeEnv (makeMap [("query", VString "a"); ("page", VInt 2)]) =
  serializeEnv (makeMap [("page", VInt 2); ("query", VString "a")]).
Proof.
  assert (Hnd : NoDup [("query", VString "a"); ("page", VInt 2)].*1).
  { apply (bool_decide_unpack _). vm_compute. exact I. }
  assert (Hperm : [("query", VString "a"); ("page", VInt 2)]
                    ≡ₚ [("page", VInt 2); ("query", VString "a")])
    by apply perm_swap.
  split_and!; [exact Hnd | exact Hperm |].
  exact (proj1 (serializeEnv_insertion_order _ _ Hnd Hperm)).
Defined.

(** C5.  Validation of an item-info record: if one of the six required
    keys is absent it fails with a missing-key error for an absent key;
    if all six are present it fails with the shape error when [genres]
    is not a sequence and returns the record unchanged when it is; a
    [genres] that is present and not a sequence never passes. *)
Theorem validateInfo_outcome {fmt : GoFmt} {eng : ScriptEngine}
    (info : gomap) (w : World) :
  ((∃ key, key ∈ infoRequired ∧ mapGet key info = None) →
   ∃ key, key ∈ infoRequired ∧ mapGet key info = None ∧
          validateInfo info w = (inl (InfoMissingKey key), w)) ∧
  ((∀ key, key ∈ infoRequired → is_Some (mapGet key info)) →
   ∀ genres, mapGet "genres" info = Some genres →
     (asSlice genres = None → validateInfo info w = (inl GenresNotArray, w)) ∧
     (is_Some (asSlice genres) → validateInfo info w = (inr info, w))) ∧
  (∀ genres, mapGet "genres" info = Some genres → asSlice genres = None →
     ¬ succeeded (fst (validateInfo info w))).
Proof.
  split_and!.
  - apply validateInfo_missing.
  - intros Hall genres Hg.
    destruct (validateInfo_present info w Hall) as (genres' & Hg' & ->).
    assert (genres' = genres) as -> by congruence.
    split; [by intros -> | by intros [l ->]].
  - intros genres Hg Hns.
    destruct (decide (Forall (λ key, mapGet key info ≠ None) infoRequired))
      as [Hall|Hsome].
    + rewrite Forall_forall in Hall.
      destruct (validateInfo_present info w) as (genres' & Hg' & ->).
      { intros key Hin. specialize (Hall key Hin).
        by destruct (mapGet key info). }
      assert (genres' = genres) as -> by congruence.
      rewrite Hns. by intros [].
    + apply not_Forall_Exists in Hsome; [|apply _].
      apply Exists_exists in Hsome as (key & Hin & Hnone).
      destruct (validateInfo_missing info w) as (key' & _ & _ & ->).
      { exists key. split; [done|]. cbv beta in Hnone.
        destruct (mapGet key info) eqn:E; [|done].
        exfalso. apply Hnone. congruence. }
      by intros [].
Qed.

(** The two examples of the specification, and a record that passes. *)
Example validateInfo_examples :
  fst (validateInfo infoNoGenres searchWorld) = inl (InfoMissingKey "genres") ∧
  fst (validateInfo (infoNoGenres ++ [("genres", VString "fantasy")]) searchWorld)
    = inl GenresNotArray ∧
  fst (validateInfo (infoNoGenres ++ [("genres", VArray [VString "fantasy"])])
         searchWorld)
    = inr (infoNoGenres ++ [("genres", VArray [VString "fantasy"])]).
Proof. split_and!; by vm_compute. Qed.

(** C6.  With an engine whose [Get] never returns nil, as Tengo's does,
    [RunRuleAndGetResult] returns no error once [RunRule] has returned a
    program: the check for a nil variable does not fire and
    [MissingResult] is not returned.  The value of [result] is returned
    as it is.  For a program that never set [result] this is the
    undefined value, and [ContentRule] then fails for the missing key
    title; a content rule whose program left a record with [title] and
    [content] in [result] returns exactly that record. *)
Theorem RunRuleAndGetResult_result {fmt : GoFmt} {eng : ScriptEngine}
    (ruleName : string) (w w1 : World) (compiled : loc) :
  GetNeverNil →
  RunRule ruleName w = (inr compiled, w1) →
  ∃ c v, heap w1 !! compiled = Some c ∧ Get c "result" = Some v ∧
    RunRuleAndGetResult ruleName w = (inr v, w1) ∧
    fst (RunRuleAndGetResult ruleName w) ≠ inl MissingResult ∧
    (∀ envVars w0,
       ruleName = "content" → w = preparedWorld Content envVars w0 →
       (v = VNil →
          ContentRule envVars w0 = (inl (ContentMissingKey "title"), w1)) ∧
       (∀ record, v = VMap record →
          is_Some (mapGet "title" record) → is_Some (mapGet "content" record) →
          ContentRule envVars w0 = (inr record, w1))).
Proof.
  intros Hget Hrun.
  destruct (RunRule_ok_effect _ _ _ _ Hrun) as [[c Hheap] _].
  destruct (Hget c "result") as [v Hv].
  exists c, v. split; [done|]. split; [done|].
  assert (Hunf := RunRuleAndGetResult_unfold ruleName w).
  rewrite Hrun, Hheap, Hv in Hunf.
  split; [done|]. split; [by rewrite Hunf|].
  intros envVars w0 -> ->.
  assert (Hentry := entryPoint_unfold Content envVars w0).
  unfold entryPoint in Hentry.
  revert Hentry. unfold bind. cbn [ruleNameOf]. rewrite Hunf.
  unfold validateCategory, bind, validateContent. intros Hentry. split.
  - intros ->. revert Hentry. cbn [Variable_Map firstMissing mapGet]. unfold fail.
    destruct (ContentRule envVars w0) as [[?|?] ?]; intros ?; by simplify_eq.
  - intros record -> [t Ht] [b Hb]. revert Hentry.
    cbn [Variable_Map firstMissing]. rewrite Ht, Hb. unfold ret.
    destruct (ContentRule envVars w0) as [[?|?] ?]; intros ?; by simplify_eq.
Qed.

Lemma RunRuleAndGetResult_result_witness :
  GetNeverNil ∧
  RunRuleAndGetResult "content" (preparedWorld Content [] (contentWorld None))
    = (inr VNil,
       snd (RunRule "content" (preparedWorld Content [] (contentWorld None)))) ∧
  fst (ContentRule [] (contentWorld None)) = inl (ContentMissingKey "title") ∧
  ContentRule [] (contentWorld (Some (VMap chapterTC)))
    = (inr chapterTC,
       snd (RunRule "content"
              (preparedWorld Content [] (contentWorld (Some (VMap chapterTC)))))).
Proof.
  assert (Hget : GetNeverNil) by (intros c name; eexists; reflexivity).
  assert (Hunset :
    RunRule "content" (preparedWorld Content [] (contentWorld None))
    = (inr 0, snd (RunRule "content" (preparedWorld Content [] (contentWorld None)))))
    by (vm_compute; reflexivity).
  assert (Hset :
    RunRule "content" (preparedWorld Content [] (contentWorld (Some (VMap chapterTC))))
    = (inr 0,
       snd (RunRule "content"
              (preparedWorld Content [] (contentWorld (Some (VMap chapterTC)))))))
    by (vm_compute; reflexivity).
  destruct (RunRuleAndGetResult_result "content" _ _ 0 Hget Hunset)
    as (c & v & Hc & Hv & Hres & _ & Hcontent).
  vm_compute in Hc. injection Hc as <-. vm_compute in Hv. injection Hv as <-.
  destruct (RunRuleAndGetResult_result "content" _ _ 0 Hget Hset)
    as (c' & v' & Hc' & Hv' & _ & _ & Hcontent').
  vm_compute in Hc'. injection Hc' as <-. vm_compute in Hv'. injection Hv' as <-.
  split_and!; [exact Hget | exact Hres | |].
  - rewrite (proj1 (Hcontent [] (contentWorld None) eq_refl eq_refl) eq_refl).
    reflexivity.
  - apply (proj2 (Hcontent' [] _ eq_refl eq_refl) chapterTC eq_refl); by eexists.
Defined.

(** C7.  An import that names a capability and is on the deny list is
    not among the allowed modules, has no import statement in the
    preamble, and leaves the warning "Import denied" in the log; so it is
    when the name is also a recognised standard or extra module. *)
Theorem denied_import_excluded (stdlibNames : list string)
    (functions : gmap string string) (denyList : list string)
    (rule : Rule) (imp : string) :
  imp ∈ Imports rule → HasPrefix imp "fn:" = false → imp ∈ denyList →
  let st := resolveImports stdlibNames functions denyList rule in
  buildPreamble stdlibNames functions denyList rule =
    ((builderString (written st), allowedModules st), warned st) ∧
  (imp ∉ allowedModules st) ∧
  (ImportStmt imp ∉ written st) ∧
  mkLog LevelWarn "Import denied" [KV "import" (VString imp)] ∈ warned st.
Proof.
  intros Hin Hfn Hdeny st. subst st. split; [done|].
  destruct rule as [imports code]. cbn [Imports] in Hin.
  induction imports as [|x imports IH].
  - by apply elem_of_nil in Hin.
  - rewrite resolveImports_cons. unfold resolvingApp.
    cbn [written allowedModules warned].
    assert (Hx : ∀ other, other = imp →
               ¬ (ImportStmt other ∈ written (importStep stdlibNames functions
                                                denyList resolvingStart x) ∨
                  other ∈ allowedModules (importStep stdlibNames functions
                                            denyList resolvingStart x))).
    { intros other -> Hor. apply step_allows in Hor as (-> & _ & Hnd). done. }
    destruct (decide (imp ∈ imports)) as [Hin'|Hnin].
    + destruct (IH Hin') as (Hal & Hw & Hlog).
      split_and!.
      * rewrite elem_of_app. intros [?|?]; [by eapply Hx; eauto | done].
      * rewrite elem_of_app. intros [?|?]; [by eapply Hx; eauto | done].
      * apply elem_of_app. by right.
    + apply elem_of_cons in Hin as [<-|?]; [|done].
      assert (Hrest :
        (imp ∉ allowedModules
                 (resolveImports stdlibNames functions denyList (mkRule imports code))) ∧
        (ImportStmt imp ∉ written
                 (resolveImports stdlibNames functions denyList (mkRule imports code)))).
      { clear IH. induction imports as [|y imports IH]; [split; apply not_elem_of_nil|].
        apply not_elem_of_cons in Hnin as [Hne Hnin].
        rewrite resolveImports_cons. unfold resolvingApp.
        cbn [written allowedModules]. rewrite !elem_of_app.
        destruct (IH Hnin) as [Hal Hw].
        split; intros [Hy|?]; try done.
        - assert (imp = y) as <-; [|done].
          eapply step_allows. right. exact Hy.
        - assert (imp = y) as <-; [|done].
          eapply step_allows. left. exact Hy. }
      destruct Hrest as [Hal Hw].
      rewrite step_denied by done. cbn [written allowedModules warned].
      split_and!; [done | done | left].
Qed.

Lemma denied_import_excluded_witness :
  "os" ∈ Imports osRule ∧ HasPrefix "os" "fn:" = false ∧
  "os" ∈ AllModuleNames ∧ "os" ∈ ["os"] ∧
  buildPreamble AllModuleNames ∅ ["os"] osRule =
    ((stmtText (ImportStmt "html"), ["html"]),
     [mkLog LevelWarn "Import denied" [KV "import" (VString "os")]]) ∧
  ("os" ∉ allowedModules (resolveImports AllModuleNames ∅ ["os"] osRule)) ∧
  mkLog LevelWarn "Import denied" [KV "import" (VString "os")]
    ∈ warned (resolveImports AllModuleNames ∅ ["os"] osRule).
Proof.
  assert (Hin : "os" ∈ Imports osRule) by (right; left).
  assert (Hdeny : "os" ∈ ["os"]) by left.
  destruct (denied_import_excluded AllModuleNames ∅ ["os"] osRule "os"
              Hin eq_refl Hdeny) as (Hpre & Hal & _ & Hlog).
  split_and!; [exact Hin | reflexivity | | exact Hdeny | | exact Hal | exact Hlog].
  - right. left.
  - rewrite Hpre. vm_compute. reflexivity.
Defined.

(** A text occurs in what is written around it. *)
Lemma ContainsStr_infix (before text after : string) :
  ContainsStr (before +:+ text +:+ after) text = true.
Proof.
  induction before as [|c before IH].
  - change ("" +:+ text +:+ after) with (text +:+ after).
    pose proof (HasPrefix_app text after) as Hpre.
    destruct (text +:+ after); cbn [ContainsStr]; by rewrite Hpre.
  - change (String c before +:+ text +:+ after)
      with (String c (before +:+ text +:+ after)).
    cbn [ContainsStr]. rewrite IH. apply orb_true_r.
Qed.

(** C8.  An import [fn:<key>] whose key the function table holds puts
    the text of a line feed, [fn_<key>] with dots replaced by
    underscores, " := " and the snippet into the preamble, between what
    the imports before it and after it write, and logs nothing.  One
    whose key is absent writes nothing and resolution carries on: the
    preamble, the allowed modules and the log are those of the imports
    around it, with one record "Function not found" between them, at
    the level of an error. *)
Theorem fn_import_inlined_or_skipped (stdlibNames : list string)
    (functions : gmap string string) (denyList : list string)
    (before after : list string) (key code : string) :
  let resolve := resolveImports stdlibNames functions denyList in
  let rule := mkRule (before ++ ("fn:" +:+ key) :: after) code in
  let rb := resolve (mkRule before code) in
  let ra := resolve (mkRule after code) in
  let preamble := fst (fst (buildPreamble stdlibNames functions denyList rule)) in
  (∀ fnLiteral,
     functions !! key = Some fnLiteral →
     let text :=
       newline +:+ "fn_" +:+ ReplaceAllByte key "." "_" +:+ " := " +:+ fnLiteral in
     preamble = builderString (written rb) +:+ text +:+ builderString (written ra) ∧
     ContainsStr preamble text = true ∧
     FnBinding ("fn_" +:+ ReplaceAllByte key "." "_") fnLiteral ∈ written (resolve rule) ∧
     allowedModules (resolve rule) = allowedModules rb ++ allowedModules ra ∧
     warned (resolve rule) = warned rb ++ warned ra) ∧
  (functions !! key = None →
     preamble = builderString (written rb) +:+ builderString (written ra) ∧
     written (resolve rule) = written rb ++ written ra ∧
     allowedModules (resolve rule) = allowedModules rb ++ allowedModules ra ∧
     warned (resolve rule) =
       warned rb ++
       mkLog LevelError "Function not found" [KV "function" (VString key)]
       :: warned ra).
Proof.
  intros resolve rule rb ra preamble. subst resolve rule rb ra preamble.
  unfold buildPreamble. cbn [fst]. cbv beta.
  rewrite resolveImports_app, resolveImports_cons. split.
  - intros fnLiteral Hkey.
    set (text := newline +:+ "fn_" +:+ ReplaceAllByte key "." "_" +:+ " := " +:+
                 fnLiteral).
    rewrite (step_fn_found _ _ _ _ _ Hkey).
    unfold resolvingApp. cbn [written allowedModules warned].
    assert (Htext : builderString
              (written (resolveImports stdlibNames functions denyList
                          (mkRule before code)) ++
               [FnBinding ("fn_" +:+ ReplaceAllByte key "." "_") fnLiteral] ++
               written (resolveImports stdlibNames functions denyList
                          (mkRule after code))) =
            builderString (written (resolveImports stdlibNames functions denyList
                                      (mkRule before code))) +:+
            text +:+
            builderString (written (resolveImports stdlibNames functions denyList
                                      (mkRule after code)))).
    { assert (Hnil : ∀ s : string, s +:+ "" = s).
      { induction s as [|c s IH]; [done|].
        change (String c s +:+ "") with (String c (s +:+ "")). by rewrite IH. }
      rewrite !builderString_app. f_equal. f_equal.
      unfold builderString. cbn [foldr stmtText]. by rewrite Hnil. }
    split_and!.
    + exact Htext.
    + rewrite Htext. apply ContainsStr_infix.
    + apply elem_of_app. right. left.
    + done.
    + done.
  - intros Hkey. rewrite (step_fn_missing _ _ _ _ Hkey).
    unfold resolvingApp. cbn [written allowedModules warned app].
    by rewrite builderString_app.
Qed.

(** The claim C8 as it stands fails in its last part: an absent key is
    not reported with a warning.  What is logged for it is one record at
    the level of an error, and no record at the level of a warning. *)
Lemma absent_function_logged_as_error :
  snd (buildPreamble AllModuleNames ∅ [] (mkRule ["html"; "fn:text.trim"; "req"] ""))
    = [mkLog LevelError "Function not found" [KV "function" (VString "text.trim")]] ∧
  List.filter (λ r, match level r with LevelWarn => true | _ => false end)
    (snd (buildPreamble AllModuleNames ∅ []
            (mkRule ["html"; "fn:text.trim"; "req"] ""))) = [] ∧
  fst (buildPreamble AllModuleNames ∅ [] (mkRule ["html"; "fn:text.trim"; "req"] ""))
    = ("html := import(" +:+ dquote +:+ "html" +:+ dquote +:+ ")" +:+ newline +:+
       "req := import(" +:+ dquote +:+ "req" +:+ dquote +:+ ")" +:+ newline,
       ["html"; "req"]).
Proof. split_and!; by vm_compute. Qed.

(** The example of the specification, and an absent key between two
    imports that are kept. *)
Example fn_import_examples :
  buildPreamble AllModuleNames {["parseDate" := "func(x){return x}"]} []
    (mkRule ["fn:parseDate"] "result = fn_parseDate(1)") =
    ((newline +:+ "fn_parseDate := func(x){return x}", []), []) ∧
  buildPreamble AllModuleNames ∅ [] (mkRule ["html"; "fn:text.trim"; "req"] "") =
    ((stmtText (ImportStmt "html") +:+ stmtText (ImportStmt "req"), ["html"; "req"]),
     [mkLog LevelError "Function not found" [KV "function" (VString "text.trim")]]) ∧
  ReplaceAllByte "text.trim" "." "_" = "text_trim".
Proof. split_and!; by vm_compute. Qed.


(** A rule stored under "chapter_list" is not the one [ChapterListRule]
    runs. *)
Example ChapterListRule_rule_name :
  fst (ChapterListRule [] (startWorld (oneRule "chapter_list" "result = []") []))
    = inl (RuleNotFound "chapter-list") ∧
  succeeded
    (fst (ChapterListRule []
            (startWorld (oneRule "chapter-list" "result = []")
               [(None, Some (VArray []))]))).
Proof. split; by vm_compute. Qed.

(** C10.  With caching enabled, when a freshly compiled program fails in
    its run, [RunRule] returns the runtime error and the cache holds the
    new program all the same; an invocation whose input has the recorded
    fingerprint then finds it: [RunRule] returns the cached program and
    compiles nothing. *)
Theorem failed_run_stays_cached {fmt : GoFmt} {eng : ScriptEngine}
    (ruleName : string) (w : World) (rule : Rule) (c : Compiled) (err : string) :
  CacheEnabled (engine w) = true →
  compiledCache (engine w) !! ruleName = None →
  Rules (engine w) !! ruleName = Some rule →
  Compile (ruleScript (engine w) rule) = inr c →
  ranErr (Run c (outside w)) = Some err →
  let l := length (heap w) in
  let w1 := snd (RunRule ruleName w) in
  fst (RunRule ruleName w) = inl (RuntimeError ruleName err) ∧
  compiledCache (engine w1) !! ruleName = Some l ∧
  heap w1 !! l = Some (ranProgram (Run c (outside w))) ∧
  ∀ envVars envKey,
    lastInputs (engine w1) !! ruleName = Some (serializeEnv envVars) →
    let w2 := mkWorld (preparedEngine ruleName envKey envVars (engine w1))
                (heap w1) (outside w1) (trace w1) in
    fst (RunRule ruleName w2) = inr l ∧
    compileEvents ruleName (trace (snd (RunRule ruleName w2))) =
      compileEvents ruleName (trace w1) ∧
    EvLog (mkLog LevelInfo "Running cached rule" [KV "rule" (VString ruleName)])
      ∈ trace (snd (RunRule ruleName w2)).
Proof.
  intros Hon Hnone Hrule Hc Herr l w1.
  assert (Hmiss : missesCache ruleName (engine w)).
  { unfold missesCache. by rewrite Hon. }
  assert (Hfst : fst (RunRule ruleName w) = inl (RuntimeError ruleName err)).
  { erewrite RunRule_fresh by done. by rewrite Herr. }
  assert (He1 : engine w1 = cacheStore ruleName l (engine w)).
  { unfold w1. by erewrite RunRule_fresh. }
  assert (Hh1 : heap w1 = heap w ++ [ranProgram (Run c (outside w))]).
  { unfold w1. by erewrite RunRule_fresh. }
  destruct (cacheStore_fields ruleName l (engine w) Hon) as (Hon1 & Hc1 & Hin1).
  rewrite <-He1 in Hon1, Hc1.
  assert (Hheap : heap w1 !! l = Some (ranProgram (Run c (outside w)))).
  { rewrite Hh1. unfold l. rewrite lookup_app_r by done. by rewrite Nat.sub_diag. }
  split_and!; [done..|].
  intros envVars envKey Hprev. by eapply RunRule_same_input_hits.
Qed.

Lemma failed_run_stays_cached_witness :
  CacheEnabled (engine failingSearch) = true ∧
  compiledCache (engine failingSearch) !! "search" = None ∧
  Rules (engine failingSearch) !! "search"
    = Some (mkRule [] "result := fetch()") ∧
  fst (RunRule "search" failingSearch)
    = inl (RuntimeError "search" "Runtime Error: boom") ∧
  compiledCache (engine (snd (RunRule "search" failingSearch))) !! "search"
    = Some 0 ∧
  fst (RunRule "search"
         (preparedWorld Search queryA (snd (RunRule "search" failingSearch))))
    = inr 0.
Proof.
  destruct (failed_run_stays_cached "search" failingSearch
              (mkRule [] "result := fetch()") None "Runtime Error: boom"
              eq_refl eq_refl eq_refl eq_refl eq_refl)
    as (Hfst & Hcache & _ & Hagain).
  split_and!; [vm_compute; reflexivity..| exact Hfst | exact Hcache |].
  apply (Hagain queryA "search"). vm_compute. reflexivity.
Defined.

(** * Further properties of the code *)

(** ** Entry points: what a call leaves behind *)

Lemma preparedEngine_disabled {fmt : GoFmt} {eng : ScriptEngine}
    (ruleName envKey : string) (envVars : gomap) (e : Engine) :
  CacheEnabled e = false →
  preparedEngine ruleName envKey envVars e =
    withEnv (Some (<[envKey := VMap envVars]> (default ∅ (Env e)))) e.
Proof. intros Hoff. unfold preparedEngine, refreshedEngine. by rewrite Hoff. Qed.

(** With caching switched off every successful entry-point call
    compiles its rule once more and leaves the cache and the recorded
    inputs as they were. *)
Theorem disabled_cache_compiles_each_time {fmt : GoFmt} {eng : ScriptEngine}
    (c : Category) (envVars : gomap) (w : World) :
  CacheEnabled (engine w) = false →
  succeeded (fst (entryPoint c envVars w)) →
  let w1 := snd (entryPoint c envVars w) in
  compileEvents (ruleNameOf c) (trace w1) = S (compileEvents (ruleNameOf c) (trace w)) ∧
  compiledCache (engine w1) = compiledCache (engine w) ∧
  lastInputs (engine w1) = lastInputs (engine w) ∧
  CacheEnabled (engine w1) = false.
Proof.
  intros Hoff Hok w1. subst w1.
  destruct (entryPoint c envVars w) as [[err|r] w1] eqn:Hrun; [done|].
  cbn [fst snd]. clear Hok.
  apply entryPoint_ok in Hrun as [l Hrun].
  apply RunRule_ok_effect in Hrun as [_ Hrun].
  unfold preparedWorld in Hrun. cbn [engine trace] in Hrun.
  rewrite preparedEngine_disabled in Hrun by done.
  cbn [CacheEnabled withEnv] in Hrun. rewrite Hoff in Hrun.
  destruct Hrun as [-> ->]. unfold cacheStore. cbn [CacheEnabled withEnv].
  by rewrite Hoff.
Qed.

Lemma disabled_cache_compiles_each_time_witness :
  CacheEnabled (engine uncachedWorld) = false ∧
  succeeded (fst (entryPoint Search queryA uncachedWorld)) ∧
  compileEvents "search" (trace (snd (entryPoint Search queryA uncachedWorld))) = 1 ∧
  compileEvents "search"
    (trace (snd (entryPoint Search queryA
                   (snd (entryPoint Search queryA uncachedWorld))))) = 2 ∧
  compiledCache (engine (snd (entryPoint Search queryA uncachedWorld))) = ∅.
Proof.
  assert (Hok : succeeded (fst (entryPoint Search queryA uncachedWorld)))
    by (vm_compute; exact I).
  destruct (disabled_cache_compiles_each_time Search queryA uncachedWorld eq_refl Hok)
    as (Hn & Hc & _ & Hoff).
  assert (Hok2 : succeeded (fst (entryPoint Search queryA
                                   (snd (entryPoint Search queryA uncachedWorld)))))
    by (vm_compute; exact I).
  destruct (disabled_cache_compiles_each_time Search queryA _ Hoff Hok2)
    as (Hn2 & _).
  split_and!; [reflexivity | exact Hok | exact Hn | | exact Hc].
  cbn [ruleNameOf] in Hn, Hn2. rewrite Hn2, Hn. reflexivity.
Defined.

(** An entry-point call touches the cache entry and the recorded input
    of its own rule only: those of every other rule, the rules, the
    functions, the deny list and the cache switch stay as they were. *)
Theorem entryPoint_other_rules_untouched {fmt : GoFmt} {eng : ScriptEngine}
    (c : Category) (envVars : gomap) (w : World) (r : string) :
  r ≠ ruleNameOf c →
  let e1 := engine (snd (entryPoint c envVars w)) in
  compiledCache e1 !! r = compiledCache (engine w) !! r ∧
  lastInputs e1 !! r = lastInputs (engine w) !! r ∧
  Rules e1 = Rules (engine w) ∧ Functions e1 = Functions (engine w) ∧
  denyLibs e1 = denyLibs (engine w) ∧ CacheEnabled e1 = CacheEnabled (engine w).
Proof.
  intros Hne e1. subst e1.
  destruct (entryPoint_effect c envVars w) as [Heng _].
  set (p := preparedEngine (ruleNameOf c) (envKeyOf c) envVars (engine w)) in *.
  assert (Hp : compiledCache p !! r = compiledCache (engine w) !! r ∧
               lastInputs p !! r = lastInputs (engine w) !! r ∧
               Rules p = Rules (engine w) ∧ Functions p = Functions (engine w) ∧
               denyLibs p = denyLibs (engine w) ∧
               CacheEnabled p = CacheEnabled (engine w)).
  { unfold p, preparedEngine, refreshedEngine.
    destruct (CacheEnabled (engine w)) eqn:Hon; [case_decide|]; simpl;
      rewrite ?Hon; split_and!; try done.
    - by rewrite lookup_delete_ne by congruence.
    - by rewrite lookup_insert_ne by congruence. }
  destruct Heng as [->|[l ->]]; [exact Hp|].
  destruct Hp as (Hc & Hl & Hr & Hf & Hd & Ho).
  unfold cacheStore. destruct (CacheEnabled p) eqn:Hon; [|split_and!; congruence].
  cbn [compiledCache lastInputs Rules Functions denyLibs CacheEnabled withCache].
  rewrite lookup_insert_ne by congruence. split_and!; congruence.
Qed.

Lemma entryPoint_other_rules_untouched_witness :
  "search" ≠ ruleNameOf Info ∧
  compiledCache (engine (snd (entryPoint Info queryA searchedWorld))) !! "search" =
    compiledCache (engine searchedWorld) !! "search" ∧
  lastInputs (engine (snd (entryPoint Info queryA searchedWorld))) !! "search" =
    lastInputs (engine searchedWorld) !! "search".
Proof.
  assert (Hne : "search" ≠ ruleNameOf Info) by discriminate.
  destruct (entryPoint_other_rules_untouched Info queryA searchedWorld "search" Hne)
    as (Hc & Hl & _).
  split_and!; [exact Hne | exact Hc | exact Hl].
Defined.

Section more_entry_facts.
Context {fmt : GoFmt} {eng : ScriptEngine}.

Lemma preparedEngine_idem (ruleName envKey : string) (envVars : gomap) (e : Engine) :
  preparedEngine ruleName envKey envVars (preparedEngine ruleName envKey envVars e) =
  preparedEngine ruleName envKey envVars e.
Proof.
  unfold preparedEngine, refreshedEngine.
  destruct (CacheEnabled e) eqn:Hon; [case_decide as Hprev|];
    cbn [CacheEnabled lastInputs Env compiledCache withEnv withLastInputs withCache
         default].
  - rewrite Hon, decide_True by done.
    cbn [Env withEnv default]. unfold withEnv. cbn. by rewrite insert_insert_eq.
  - rewrite Hon, decide_True by apply lookup_insert_eq.
    cbn [Env withEnv withLastInputs withCache default]. unfold withEnv. cbn.
    by rewrite insert_insert_eq.
  - rewrite Hon. cbn [Env withEnv default]. unfold withEnv. cbn.
    by rewrite insert_insert_eq.
Qed.

Lemma preparedEngine_misses (ruleName envKey : string) (envVars : gomap) (e : Engine) :
  compiledCache e !! ruleName = None →
  missesCache ruleName (preparedEngine ruleName envKey envVars e).
Proof.
  intros Hnone. unfold missesCache, preparedEngine, refreshedEngine.
  destruct (CacheEnabled e) eqn:Hon; [case_decide|]; simpl; rewrite ?Hon; try done.
  apply lookup_delete_eq.
Qed.

(** An entry point whose [RunRule] fails returns that failure and the
    world [RunRule] left. *)
Lemma entryPoint_RunRule_err (c : Category) (envVars : gomap) (w w1 : World)
    (err : error) :
  RunRule (ruleNameOf c) (preparedWorld c envVars w) = (inl err, w1) →
  entryPoint c envVars w = (inl err, w1).
Proof.
  intros Hrun. rewrite entryPoint_unfold. unfold bind.
  by rewrite RunRuleAndGetResult_unfold, Hrun.
Qed.
End more_entry_facts.

(** A rule that does not compile is compiled again by the next call:
    the failure is returned as a compile error, nothing is cached and
    no program is stored. *)
Theorem compile_error_not_cached {fmt : GoFmt} {eng : ScriptEngine}
    (c : Category) (envVars : gomap) (w : World) (rule : Rule) (err : string) :
  let rn := ruleNameOf c in
  let p := preparedEngine rn (envKeyOf c) envVars (engine w) in
  compiledCache (engine w) !! rn = None →
  Rules (engine w) !! rn = Some rule →
  Compile (ruleScript p rule) = inl err →
  let w1 := snd (entryPoint c envVars w) in
  let w2 := snd (entryPoint c envVars w1) in
  fst (entryPoint c envVars w) = inl (CompileError rn err) ∧
  engine w1 = p ∧ compiledCache (engine w1) !! rn = None ∧
  heap w1 = heap w ∧ outside w1 = outside w ∧
  fst (entryPoint c envVars w1) = inl (CompileError rn err) ∧
  compileEvents rn (trace w2) = 2 + compileEvents rn (trace w).
Proof.
  intros rn p Hnone Hrule Hc w1 w2.
  assert (Hmiss : missesCache rn p) by by apply preparedEngine_misses.
  assert (Hrules : Rules p = Rules (engine w)).
  { unfold p.
    by destruct (preparedEngine_fields rn (envKeyOf c) envVars (engine w))
      as (_ & -> & _). }
  assert (Hrun1 := RunRule_compile_error rn (preparedWorld c envVars w) rule err).
  unfold preparedWorld in Hrun1 at 1 2 3. cbn [engine] in Hrun1. fold rn p in Hrun1.
  rewrite Hrules in Hrun1. specialize (Hrun1 Hmiss Hrule Hc).
  apply entryPoint_RunRule_err in Hrun1.
  assert (Hw1 : w1 = mkWorld p (heap w) (outside w) (trace w1)).
  { unfold w1. rewrite Hrun1. reflexivity. }
  assert (Hp1 : engine w1 = p) by (by rewrite Hw1).
  assert (Hrun2 := RunRule_compile_error rn (preparedWorld c envVars w1) rule err).
  unfold preparedWorld in Hrun2 at 1 2 3. cbn [engine] in Hrun2. fold rn in Hrun2.
  rewrite Hp1 in Hrun2. unfold p in Hrun2 at 1 2 3.
  rewrite !preparedEngine_idem in Hrun2. fold p in Hrun2.
  rewrite Hrules in Hrun2. specialize (Hrun2 Hmiss Hrule Hc).
  apply entryPoint_RunRule_err in Hrun2.
  split_and!.
  - by rewrite Hrun1.
  - done.
  - rewrite Hp1. unfold missesCache in Hmiss.
    destruct (preparedEngine_fields rn (envKeyOf c) envVars (engine w)) as (Hon & _).
    fold p in Hon.
    destruct (CacheEnabled p) eqn:E; [done|].
    unfold p, preparedEngine, refreshedEngine. rewrite <-Hon. by cbn.
  - by rewrite Hw1.
  - by rewrite Hw1.
  - by rewrite Hrun2.
  - unfold w2. rewrite Hrun2. cbn [snd trace]. unfold preparedWorld. cbn [trace].
    unfold w1. rewrite Hrun1. cbn [snd trace]. unfold preparedWorld. cbn [trace].
    rewrite !compileEvents_app, !compileEvents_compilingLog.
    rewrite !decide_True by done. cbn [compileEvents]. lia.
Qed.

Lemma compile_error_not_cached_witness :
  fst (entryPoint (eng := refusingEngine) Search queryA refusedWorld) =
    inl (CompileError "search" "Compile Error: unresolved reference 'fetch'") ∧
  compileEvents "search"
    (trace (snd (entryPoint Search queryA
                   (snd (entryPoint Search queryA refusedWorld))))) = 2.
Proof.
  destruct (compile_error_not_cached (eng := refusingEngine) Search queryA
              refusedWorld (mkRule [] "result = fetch()")
              "Compile Error: unresolved reference 'fetch'"
              ltac:(vm_compute; reflexivity) ltac:(vm_compute; reflexivity)
              eq_refl)
    as (Hfst & _ & _ & _ & _ & _ & Hn).
  split; [exact Hfst | exact Hn].
Defined.

(** A call for a rule the engine does not hold fails with rule-not-found
    without compiling or running anything, after it has stored the
    input in the environment and, with caching on, recorded it. *)
Theorem unknown_rule_side_effects {fmt : GoFmt} {eng : ScriptEngine}
    (c : Category) (envVars : gomap) (w : World) :
  compiledCache (engine w) !! ruleNameOf c = None →
  Rules (engine w) !! ruleNameOf c = None →
  let w1 := snd (entryPoint c envVars w) in
  fst (entryPoint c envVars w) = inl (RuleNotFound (ruleNameOf c)) ∧
  heap w1 = heap w ∧ outside w1 = outside w ∧
  compileEvents (ruleNameOf c) (trace w1) = compileEvents (ruleNameOf c) (trace w) ∧
  Env (engine w1) =
    Some (<[envKeyOf c := VMap envVars]> (default ∅ (Env (engine w)))) ∧
  (CacheEnabled (engine w) = true →
   lastInputs (engine w1) !! ruleNameOf c = Some (serializeEnv envVars)).
Proof.
  intros Hnone Hrule w1.
  set (rn := ruleNameOf c) in *.
  set (p := preparedEngine rn (envKeyOf c) envVars (engine w)).
  assert (Hmiss : missesCache rn p) by by apply preparedEngine_misses.
  destruct (preparedEngine_fields rn (envKeyOf c) envVars (engine w))
    as (Hon & Hrules & _ & _ & HEnv). fold p in Hon, Hrules, HEnv.
  assert (Hrun := RunRule_not_found rn (preparedWorld c envVars w)).
  unfold preparedWorld in Hrun at 1 2. cbn [engine] in Hrun. fold rn p in Hrun.
  rewrite Hrules in Hrun. specialize (Hrun Hmiss Hrule).
  apply entryPoint_RunRule_err in Hrun.
  unfold w1. rewrite Hrun. cbn [fst snd engine heap outside trace].
  unfold preparedWorld. cbn [engine heap outside trace]. fold rn p.
  split_and!; try done.
  - rewrite compileEvents_app. cbn [compileEvents]. lia.
  - intros Hen.
    destruct (preparedEngine_cache rn (envKeyOf c) envVars (engine w) Hen) as [Hl _].
    fold p in Hl. rewrite Hl. apply lookup_insert_eq.
Qed.

Lemma unknown_rule_side_effects_witness :
  fst (entryPoint Info queryA searchWorld) = inl (RuleNotFound "info") ∧
  lastInputs (engine (snd (entryPoint Info queryA searchWorld))) !! "info" =
    Some (serializeEnv queryA).
Proof.
  destruct (unknown_rule_side_effects Info queryA searchWorld
              ltac:(vm_compute; reflexivity) ltac:(vm_compute; reflexivity))
    as (Hfst & _ & _ & _ & _ & Hrec).
  split; [exact Hfst | exact (Hrec eq_refl)].
Defined.

(** The deny list is read when a rule is compiled: after it is changed,
    a call with the recorded input still runs the program compiled
    under the old list, and compiles nothing. *)
Theorem cache_hit_ignores_deny_list {fmt : GoFmt} {eng : ScriptEngine}
    (c : Category) (envVars : gomap) (w : World) (l : loc) (prog : Compiled)
    (deny : list string) :
  CacheEnabled (engine w) = true →
  compiledCache (engine w) !! ruleNameOf c = Some l →
  heap w !! l = Some prog →
  lastInputs (engine w) !! ruleNameOf c = Some (serializeEnv envVars) →
  let wd := mkWorld (SetDenyLibs deny (engine w)) (heap w) (outside w) (trace w) in
  let w1 := snd (entryPoint c envVars wd) in
  compileEvents (ruleNameOf c) (trace w1) = compileEvents (ruleNameOf c) (trace w) ∧
  EvRun (ruleNameOf c) l ∈ trace w1 ∧
  compiledCache (engine w1) !! ruleNameOf c = Some l ∧
  denyLibs (engine w1) = deny.
Proof.
  intros Hon Hc Hheap Hprev wd w1.
  set (rn := ruleNameOf c) in *.
  assert (Hond : CacheEnabled (engine wd) = true) by done.
  destruct (preparedEngine_fields rn (envKeyOf c) envVars (engine wd))
    as (Hon2 & _ & _ & Hdeny & _).
  destruct (preparedEngine_cache rn (envKeyOf c) envVars (engine wd) Hond)
    as (_ & Hc2).
  rewrite decide_True in Hc2 by done.
  set (pw := preparedWorld c envVars wd).
  assert (Hpon : CacheEnabled (engine pw) = true).
  { unfold pw, preparedWorld. cbn [engine]. fold rn. congruence. }
  assert (Hpc : compiledCache (engine pw) !! rn = Some l).
  { unfold pw, preparedWorld. cbn [engine]. fold rn. by rewrite Hc2. }
  assert (Hph : heap pw !! l = Some prog) by done.
  pose proof (RunRule_hit rn pw l prog Hpon Hpc Hph) as Hhit.
  pose proof (RunRuleAndGetResult_after rn pw) as (He & _ & _ & logs1 & Ht1 & Hl1).
  rewrite Hhit in He, Ht1. cbn [snd engine trace] in He, Ht1.
  assert (Hw1 : engine w1 = engine pw ∧
                ∃ logs, trace w1 = trace (snd (RunRuleAndGetResult rn pw)) ++ logs ∧
                        Forall isLog logs).
  { unfold w1. rewrite entryPoint_unfold. fold pw rn. unfold bind.
    destruct (RunRuleAndGetResult rn pw) as [[err|v] w'] eqn:Hrun; cbn [snd] in *.
    - split; [exact He|]. exists []. by rewrite app_nil_r.
    - pose proof (validateCategory_frame c v w') as (He2 & _ & _ & Ht2).
      split; [by rewrite He2, He | exact Ht2]. }
  destruct Hw1 as (Hew1 & logs2 & Ht2 & Hl2).
  split_and!.
  - rewrite Ht2, Ht1. unfold pw, preparedWorld, wd. cbn [trace].
    rewrite !compileEvents_app. cbn [compileEvents].
    rewrite compileEvents_logs, (compileEvents_isLog _ logs1 Hl1),
      (compileEvents_isLog _ logs2 Hl2). lia.
  - rewrite Ht2, Ht1. apply elem_of_app. left. apply elem_of_app. left.
    apply elem_of_app. right. right. left.
  - rewrite Hew1. unfold pw, preparedWorld. cbn [engine]. fold rn. by rewrite Hc2.
  - rewrite Hew1. unfold pw, preparedWorld. cbn [engine]. fold rn. by rewrite Hdeny.
Qed.

Lemma cache_hit_ignores_deny_list_witness :
  compileEvents "search"
    (trace (snd (entryPoint Search queryA
                   (mkWorld (SetDenyLibs ["os"] (engine searchedWorld))
                      (heap searchedWorld) (outside searchedWorld)
                      (trace searchedWorld))))) =
    compileEvents "search" (trace searchedWorld) ∧
  denyLibs (engine (snd (entryPoint Search queryA
                   (mkWorld (SetDenyLibs ["os"] (engine searchedWorld))
                      (heap searchedWorld) (outside searchedWorld)
                      (trace searchedWorld))))) = ["os"].
Proof.
  destruct (cache_hit_ignores_deny_list Search queryA searchedWorld 0
              (Some (VArray [])) ["os"]
              ltac:(vm_compute; reflexivity) ltac:(vm_compute; reflexivity)
              ltac:(vm_compute; reflexivity) ltac:(vm_compute; reflexivity))
    as (Hn & _ & _ & Hd).
  split; [exact Hn | exact Hd].
Defined.

(** ** Validation of what a rule produced *)

(** The content check: the first of title and content that is absent
    is reported; the record passes unchanged exactly when it has both. *)
Theorem validateContent_outcome {fmt : GoFmt} {eng : ScriptEngine}
    (content : gomap) (w : World) :
  (mapGet "title" content = None →
   validateContent content w = (inl (ContentMissingKey "title"), w)) ∧
  (is_Some (mapGet "title" content) → mapGet "content" content = None →
   validateContent content w = (inl (ContentMissingKey "content"), w)) ∧
  (succeeded (fst (validateContent content w)) ↔
   is_Some (mapGet "title" content) ∧ is_Some (mapGet "content" content)) ∧
  (succeeded (fst (validateContent content w)) →
   validateContent content w = (inr content, w)).
Proof.
  unfold validateContent. cbn [firstMissing].
  destruct (mapGet "title" content) as [t|];
    destruct (mapGet "content" content) as [b|]; cbn [fst succeeded fail ret].
  - split_and!; [done | done | | done].
    split; [intros _; split; by eexists | done].
  - split_and!; [done | done | | done].
    split; [done | by intros [_ [? ?]]].
  - split_and!; [done | by intros [? ?] | | done].
    split; [done | by intros [[? ?] _]].
  - split_and!; [done | by intros [? ?] | | done].
    split; [done | by intros [[? ?] _]].
Qed.

(** A sequence passes the item check exactly when every element is a
    record with title and url; what is returned then is the sequence
    itself, with nothing dropped and nothing logged. *)
Theorem validateItems_succeeds_iff {fmt : GoFmt} {eng : ScriptEngine}
    (spec : ItemsRule) (arr : list value) (w : World) :
  (succeeded (fst (validateItems spec arr w)) ↔
   ∃ records, arr = VMap <$> records ∧ Forall hasItemKeys records) ∧
  (∀ out w1, validateItems spec arr w = (inr out, w1) →
     w1 = w ∧ arr = VMap <$> out ∧ length out = length arr).
Proof.
  split.
  - split.
    + destruct (validateItems spec arr w) as [[err|out] w1] eqn:Hv; [done|].
      intros _. apply validateItems_ok in Hv as (_ & -> & Hall). eauto.
    + intros (records & -> & Hall). by rewrite validateItems_complete.
  - intros out w1 Hv. apply validateItems_ok in Hv as (-> & -> & _).
    split_and!; [done..|]. by rewrite length_fmap.
Qed.

(** A result of another kind than the category expects: a search or
    chapter-list rule whose result is not a sequence succeeds with no
    items; an info or content rule whose result is not a record fails
    as if its title were absent. *)
Theorem result_of_wrong_kind {fmt : GoFmt} {eng : ScriptEngine}
    (c : Category) (envVars : gomap) (w w1 : World) (v : value) :
  RunRuleAndGetResult (ruleNameOf c) (preparedWorld c envVars w) = (inr v, w1) →
  (asSlice v = None → c = Search ∨ c = ChapterList →
   entryPoint c envVars w = (inr (inl []), w1)) ∧
  (asMap v = None → c = Info →
   entryPoint c envVars w = (inl (InfoMissingKey "title"), w1)) ∧
  (asMap v = None → c = Content →
   entryPoint c envVars w = (inl (ContentMissingKey "title"), w1)).
Proof.
  intros Hrun. rewrite entryPoint_unfold. unfold bind. rewrite Hrun.
  split_and!.
  - intros Hv [->| ->]; by destruct v.
  - intros Hv ->. by destruct v.
  - intros Hv ->. by destruct v.
Qed.

Lemma result_of_wrong_kind_witness :
  fst (entryPoint Search queryA numberWorld) = inr (inl []).
Proof.
  destruct (result_of_wrong_kind Search queryA numberWorld
              (snd (RunRuleAndGetResult "search"
                      (preparedWorld Search queryA numberWorld)))
              (VInt 1) ltac:(vm_compute; reflexivity)) as (Hseq & _).
  rewrite (Hseq eq_refl (or_introl eq_refl)). reflexivity.
Defined.

(** ** The preamble and the module map *)

Section preamble_more.
Context (stdlibNames : list string).
Context (functions : gmap string string) (denyList : list string).

Lemma step_shape (imp : string) :
  let st := importStep stdlibNames functions denyList resolvingStart imp in
  length (written st) + length (warned st) = 1 ∧
  allowedModules st =
    (if allowedImport stdlibNames denyList imp then [imp] else []) ∧
  omap importOf (written st) = allowedModules st.
Proof.
  unfold importStep, allowedImport.
  destruct (HasPrefix imp "fn:"); cbn [negb andb].
  { by destruct (functions !! TrimPrefix imp "fn:"). }
  rewrite !ToSet_lookup.
  destruct (bool_decide (imp ∈ denyList)); cbn [negb andb]; [done|].
  unfold Contains.
  by destruct (bool_decide (imp ∈ stdlibNames) ||
               bool_decide (imp ∈ AllExtraModuleNames)).
Qed.
End preamble_more.

(** The modules allowed for a rule are its imports that pass
    [allowedImport], in their order. *)
Lemma resolveImports_allowed (stdlibNames : list string)
    (functions : gmap string string) (denyList : list string) (rule : Rule) :
  allowedModules (resolveImports stdlibNames functions denyList rule) =
    List.filter (allowedImport stdlibNames denyList) (Imports rule).
Proof.
  destruct rule as [imports code]. cbn [Imports].
  induction imports as [|imp imports IH]; [done|].
  rewrite resolveImports_cons. unfold resolvingApp. cbn [allowedModules].
  destruct (step_shape stdlibNames functions denyList imp) as (_ & Ha & _).
  rewrite Ha, IH. cbn [List.filter].
  by destruct (allowedImport stdlibNames denyList imp).
Qed.

(** Every import of a rule is either written to the preamble or logged,
    never both and never neither; the modules allowed are the imports
    that are no function import, not denied and known, in the order of
    the rule, and they are the import statements written. *)
Theorem resolveImports_accounts_for_every_import (stdlibNames : list string)
    (functions : gmap string string) (denyList : list string) (rule : Rule) :
  let st := resolveImports stdlibNames functions denyList rule in
  length (written st) + length (warned st) = length (Imports rule) ∧
  allowedModules st = List.filter (allowedImport stdlibNames denyList) (Imports rule) ∧
  omap importOf (written st) = allowedModules st.
Proof.
  destruct rule as [imports code]. cbn [Imports].
  induction imports as [|imp imports IH]; [done|].
  cbv zeta in *. rewrite resolveImports_cons. unfold resolvingApp.
  cbn [written allowedModules warned].
  destruct (step_shape stdlibNames functions denyList imp) as (Hn & Ha & Hw).
  destruct IH as (IHn & IHa & IHw).
  rewrite !length_app, omap_app, Hw, IHw, Ha, IHa. cbn [List.filter length].
  split_and!; [lia | | done].
  by destruct (allowedImport stdlibNames denyList imp).
Qed.

Lemma ToSet_lookup_raw (items : list string) (k : string) :
  ToSet items !! k = if decide (k ∈ items) then Some true else None.
Proof.
  unfold ToSet. induction items as [|x items IH] using rev_ind.
  - cbn [foldl]. rewrite lookup_empty. by rewrite decide_False by apply not_elem_of_nil.
  - rewrite foldl_snoc. destruct (decide (x = k)) as [->|Hne].
    + rewrite lookup_insert_eq. rewrite decide_True; [done|].
      apply elem_of_app. right. left.
    + rewrite lookup_insert_ne by done. rewrite IH.
      destruct (decide (k ∈ items)) as [Hin|Hnin].
      * rewrite decide_True; [done|]. apply elem_of_app. by left.
      * rewrite decide_False; [done|]. rewrite elem_of_app, list_elem_of_singleton.
        intros [?|?]; [done | congruence].
Qed.

(** [ToSet] has the members of the list and nothing else, whatever
    their order and however often they occur. *)
Theorem ToSet_is_a_set (items items' : list string) :
  (∀ k, setHas (ToSet items) k = true ↔ k ∈ items) ∧
  (ToSet items = ToSet items' ↔ ∀ k, k ∈ items ↔ k ∈ items').
Proof.
  split.
  - intros k. unfold setHas. rewrite ToSet_lookup_raw. by case_decide.
  - split.
    + intros Heq k.
      assert (Hk : ToSet items !! k = ToSet items' !! k) by by rewrite Heq.
      rewrite !ToSet_lookup_raw in Hk. by repeat case_decide.
    + intros Hsame. apply map_eq. intros k. rewrite !ToSet_lookup_raw.
      specialize (Hsame k). repeat case_decide; try done; tauto.
Qed.

Section moduleMap_facts.
Context (stdlibGetModuleMap : list string → gmap string ModuleOrigin).

Lemma GetExtraModuleMap_lookup (names : list string) (name : string) :
  GetExtraModuleMap names !! name =
    if decide (name ∈ names ∧ name ∈ AllExtraModuleNames)
    then Some ExtraModule else None.
Proof.
  unfold GetExtraModuleMap. induction names as [|x names IH] using rev_ind.
  - cbn [foldl]. rewrite lookup_empty. rewrite decide_False; [done|].
    intros [Hin _]. by apply elem_of_nil in Hin.
  - rewrite foldl_snoc. unfold Contains at 1.
    case_bool_decide as Hx.
    + destruct (decide (x = name)) as [->|Hne].
      * rewrite lookup_insert_eq. rewrite decide_True; [done|].
        split; [|done]. apply elem_of_app. right. left.
      * rewrite lookup_insert_ne by done. rewrite IH.
        apply decide_ext. rewrite elem_of_app, list_elem_of_singleton.
        split; [intros [? ?]; split; [by left | done]
               | intros [[?|?] ?]; [done | congruence]].
    + rewrite IH. apply decide_ext. rewrite elem_of_app, list_elem_of_singleton.
      split; [intros [? ?]; split; [by left | done]
             | intros [[?|?] ?]; [done | congruence]].
Qed.

Lemma GetCustomModuleMap_lookup (allowed : list string) (name : string) :
  GetCustomModuleMap stdlibGetModuleMap allowed !! name =
    if decide (name ∈ allowed ∧ name ∈ AllExtraModuleNames)
    then Some ExtraModule else stdlibGetModuleMap allowed !! name.
Proof.
  unfold GetCustomModuleMap. rewrite lookup_union, GetExtraModuleMap_lookup.
  assert (Hf : name ∈ List.filter (Contains AllExtraModuleNames) allowed ∧
               name ∈ AllExtraModuleNames ↔
               name ∈ allowed ∧ name ∈ AllExtraModuleNames).
  { rewrite list_elem_of_In, filter_In, <-list_elem_of_In. unfold Contains.
    rewrite bool_decide_eq_true. tauto. }
  destruct (decide (name ∈ allowed ∧ name ∈ AllExtraModuleNames)) as [Hy|Hn].
  - rewrite decide_True by by apply Hf.
    by destruct (stdlibGetModuleMap allowed !! name).
  - rewrite decide_False by by rewrite Hf.
    by destruct (stdlibGetModuleMap allowed !! name).
Qed.
End moduleMap_facts.

Lemma threeModules_names (names : list string) (name : string) :
  is_Some (threeModules names !! name) → name ∈ names.
Proof.
  unfold threeModules. intros [o Ho].
  apply elem_of_list_to_map_2 in Ho.
  apply list_elem_of_fmap in Ho as (n & Heq & Hn). simplify_eq.
  apply list_elem_of_In, filter_In in Hn as [Hn _]. by apply list_elem_of_In.
Qed.

(** The module map built for a rule binds no denied name; an extra
    module the rule may import is bound to the extra, also where the
    standard library has a module of that name; and every name bound is
    an import of the rule. *)
Theorem denied_module_not_importable
    (stdlibGetModuleMap : list string → gmap string ModuleOrigin)
    (stdlibNames : list string) (functions : gmap string string)
    (denyList : list string) (rule : Rule) (imp : string) :
  (∀ names name, is_Some (stdlibGetModuleMap names !! name) → name ∈ names) →
  imp ∈ denyList →
  let allowed := allowedModules (resolveImports stdlibNames functions denyList rule) in
  GetCustomModuleMap stdlibGetModuleMap allowed !! imp = None ∧
  (∀ name, name ∈ allowed → name ∈ AllExtraModuleNames →
     GetCustomModuleMap stdlibGetModuleMap allowed !! name = Some ExtraModule) ∧
  (∀ name, is_Some (GetCustomModuleMap stdlibGetModuleMap allowed !! name) →
     name ∈ Imports rule ∧ name ∉ denyList).
Proof.
  intros Hstd Hdeny allowed.
  pose proof (resolveImports_allowed stdlibNames functions denyList rule) as Hal.
  fold allowed in Hal.
  assert (Hin : ∀ name, name ∈ allowed → name ∈ Imports rule ∧ name ∉ denyList).
  { intros name. rewrite Hal, list_elem_of_In, filter_In, <-list_elem_of_In.
    unfold allowedImport. rewrite !andb_true_iff, !negb_true_iff.
    rewrite bool_decide_eq_false. tauto. }
  split_and!.
  - rewrite GetCustomModuleMap_lookup. rewrite decide_False.
    + destruct (stdlibGetModuleMap allowed !! imp) eqn:E; [|done].
      exfalso. assert (imp ∈ allowed) as Hi by (apply Hstd; by rewrite E).
      by apply Hin in Hi as [_ ?].
    + intros [Hi _]. by apply Hin in Hi as [_ ?].
  - intros name Hn He. rewrite GetCustomModuleMap_lookup. by rewrite decide_True.
  - intros name Hsome. apply Hin. rewrite GetCustomModuleMap_lookup in Hsome.
    case_decide as Hd; [by destruct Hd | by apply Hstd in Hsome].
Qed.

Lemma denied_module_not_importable_witness :
  "os" ∈ ["os"] ∧
  GetCustomModuleMap threeModules
    (allowedModules (resolveImports ["math"; "os"; "text"] ∅ ["os"] osRule))
    !! "os" = None.
Proof.
  assert (Hin : "os" ∈ ["os"]) by repeat constructor.
  destruct (denied_module_not_importable threeModules ["math"; "os"; "text"] ∅
              ["os"] osRule "os" threeModules_names Hin) as (Hnone & _).
  split; [exact Hin | exact Hnone].
Defined.

(** ** The log module *)

Lemma logPairs_Returned (fn : string) (args : list Object) (kv : list Attr) :
  logPairs fn args = Returned kv ↔
  ∃ pairs, stringPairs args = Some pairs ∧
           kv = (λ p, KV p.1 (VString p.2)) <$> pairs.
Proof.
  revert kv. induction args as [args IH] using (induction_ltof1 _ (@length Object)).
  unfold ltof in IH. intros kv.
  destruct args as [|k [|v rest]]; cbn [logPairs stringPairs].
  - split; [intros ?; simplify_eq; by exists [] | by intros (? & ? & ->); simplify_eq].
  - split; [done | intros (? & ? & _)]. by destruct k.
  - destruct k; cbn [asString]; try (split; [done | by intros (? & ? & _)]).
    destruct v; cbn [asString]; try (split; [done | by intros (? & ? & _)]).
    destruct (logPairs fn rest) as [kv'| |] eqn:Hrest.
    + destruct (proj1 (IH rest ltac:(cbn; lia) kv') Hrest) as (pairs & Hsp & ->).
      rewrite Hsp.
      split.
      * intros ?; simplify_eq. by eexists.
      * intros (? & ? & ->). by simplify_eq.
    + split; [done|]. intros (pairs & Hp & _).
      destruct (stringPairs rest) as [pairs'|] eqn:E; [|done].
      pose proof (proj2 (IH rest ltac:(cbn; lia) _) (ex_intro _ pairs' (conj E eq_refl))).
      congruence.
    + split; [done|]. intros (pairs & Hp & _).
      destruct (stringPairs rest) as [pairs'|] eqn:E; [|done].
      pose proof (proj2 (IH rest ltac:(cbn; lia) _) (ex_intro _ pairs' (conj E eq_refl))).
      congruence.
Qed.

Lemma logFunction_cases (name : string) (lvl : Level) (args : list Object) :
  (fst (logFunction name lvl args) = Returned tt ↔
   ∃ msg pairs, args = OString msg :: tail args ∧
                stringPairs (tail args) = Some pairs) ∧
  (∀ msg pairs, args = OString msg :: tail args →
     stringPairs (tail args) = Some pairs →
     snd (logFunction name lvl args) =
       [mkLog lvl msg ((λ p, KV p.1 (VString p.2)) <$> pairs)] ∧
     length args = S (2 * length pairs)) ∧
  (fst (logFunction name lvl args) ≠ Returned tt →
   snd (logFunction name lvl args) = []).
Proof.
  assert (Heven : ∀ l pairs, stringPairs l = Some pairs → length l = 2 * length pairs).
  { induction l as [l IH] using (induction_ltof1 _ (@length Object)).
    unfold ltof in IH. intros pairs.
    destruct l as [|[] [|[] rest]]; cbn [stringPairs]; try done.
    - by intros ?; simplify_eq.
    - destruct (stringPairs rest) as [kv|] eqn:E; [|done].
      intros ?; simplify_eq. cbn. rewrite (IH rest ltac:(cbn; lia) kv E). lia. }
  unfold logFunction.
  destruct args as [|first rest]; cbn [tail fst snd].
  { split_and!; [split; [done | by intros (? & ? & ? & _)] | done | done]. }
  destruct first; cbn [asString fst snd];
    try (split_and!; [split; [done | by intros (? & ? & ? & _)] | done | done]).
  destruct (Nat.even (length rest)) eqn:Hev; cbn [negb].
  - destruct (logPairs ("log." +:+ name) rest) as [kv| |] eqn:Hp; cbn [fst snd].
    + apply logPairs_Returned in Hp as (pairs & Hsp & ->).
      split_and!.
      * split; [intros _; by eauto | done].
      * intros msg pairs' ? Hsp'. simplify_eq. split; [done|].
        cbn. rewrite (Heven _ _ Hsp). lia.
      * done.
    + split_and!; [| |done].
      * split; [done|]. intros (msg & pairs & _ & Hsp).
        pose proof (proj2 (logPairs_Returned ("log." +:+ name) rest _)
                      (ex_intro _ pairs (conj Hsp eq_refl))). congruence.
      * intros msg pairs _ Hsp.
        pose proof (proj2 (logPairs_Returned ("log." +:+ name) rest _)
                      (ex_intro _ pairs (conj Hsp eq_refl))). congruence.
    + split_and!; [| |done].
      * split; [done|]. intros (msg & pairs & _ & Hsp).
        pose proof (proj2 (logPairs_Returned ("log." +:+ name) rest _)
                      (ex_intro _ pairs (conj Hsp eq_refl))). congruence.
      * intros msg pairs _ Hsp.
        pose proof (proj2 (logPairs_Returned ("log." +:+ name) rest _)
                      (ex_intro _ pairs (conj Hsp eq_refl))). congruence.
  - split_and!; [| |done].
    + split; [done|]. intros (msg & pairs & _ & Hsp).
      apply Heven in Hsp. rewrite Hsp in Hev.
      rewrite Nat.even_mul in Hev. done.
    + intros msg pairs _ Hsp. apply Heven in Hsp. rewrite Hsp in Hev.
      rewrite Nat.even_mul in Hev. done.
Qed.

Lemma stringPairs_pairArgs (args : list Object) (pairs : list (string * string)) :
  stringPairs args = Some pairs ↔ args = pairArgs pairs.
Proof.
  split.
  - revert pairs. induction args as [args IH] using (induction_ltof1 _ (@length Object)).
    unfold ltof in IH. intros pairs.
    destruct args as [|[] [|[] rest]]; cbn [stringPairs]; try done.
    + by intros ?; simplify_eq.
    + destruct (stringPairs rest) as [kv|] eqn:E; [|done].
      intros ?; simplify_eq. cbn. f_equal. f_equal.
      by apply (IH rest ltac:(cbn; lia)).
  - intros ->. induction pairs as [|[k v] pairs IH]; [done|].
    cbn. fold (pairArgs pairs). by rewrite IH.
Qed.

Lemma logPairs_app (fn : string) (pairs : list (string * string)) (rest : list Object) :
  logPairs fn (pairArgs pairs ++ rest) =
  match logPairs fn rest with
  | Returned kv => Returned (pairAttrs pairs ++ kv)
  | other => other
  end.
Proof.
  induction pairs as [|[k v] pairs IH].
  - cbn. by destruct (logPairs fn rest).
  - cbn. fold (pairArgs pairs). cbn in IH. rewrite IH.
    by destruct (logPairs fn rest).
Qed.

Lemma pairArgs_length (pairs : list (string * string)) :
  length (pairArgs pairs) = 2 * length pairs.
Proof. induction pairs as [|p pairs IH]; [done|]. cbn. fold (pairArgs pairs). lia. Qed.

(** A log function writes one record, at its level, with the message
    and the pairs, exactly when it is called with a string message
    followed by string keys and string values; a call that does not
    return normally writes nothing. *)
Theorem logFunction_logs_string_pairs (name : string) (lvl : Level) (args : list Object) :
  (∀ msg pairs, args = OString msg :: pairArgs pairs →
     logFunction name lvl args = (Returned tt, [mkLog lvl msg (pairAttrs pairs)])) ∧
  (fst (logFunction name lvl args) = Returned tt →
     ∃ msg pairs, args = OString msg :: pairArgs pairs) ∧
  (fst (logFunction name lvl args) ≠ Returned tt →
     snd (logFunction name lvl args) = []).
Proof.
  destruct (logFunction_cases name lvl args) as (Hiff & Hlog & Hquiet).
  split_and!; [| |done].
  - intros msg pairs Hargs.
    assert (Htl : stringPairs (tail args) = Some pairs).
    { rewrite Hargs. cbn [tail]. by apply stringPairs_pairArgs. }
    assert (Hhd : args = OString msg :: tail args) by (by rewrite Hargs).
    destruct (Hlog msg pairs Hhd Htl) as [Hsnd _].
    pose proof (proj2 Hiff (ex_intro _ msg (ex_intro _ pairs (conj Hhd Htl)))) as Hfst.
    destruct (logFunction name lvl args) as [o l]. cbn in *. by subst.
  - intros Hret. destruct (proj1 Hiff Hret) as (msg & pairs & Hhd & Htl).
    exists msg, pairs. rewrite Hhd. f_equal. by apply stringPairs_pairArgs.
Qed.

(** A value that is not a string, after a message and keys that are
    strings, makes the call panic: the nil pointer left by the failed
    type assertion is read. *)
Theorem logFunction_value_not_string (name : string) (lvl : Level) (msg key : string)
    (pairs : list (string * string)) (v : Object) (rest : list Object) :
  asString v = None → Nat.even (length rest) = true →
  logFunction name lvl (OString msg :: pairArgs pairs ++ OString key :: v :: rest) =
    (Panicked, []).
Proof.
  intros Hv Hrest. unfold logFunction. cbn [asString].
  rewrite length_app, pairArgs_length. cbn [length].
  replace (Nat.even (2 * length pairs + S (S (length rest)))) with true.
  2:{ rewrite Nat.even_add, Nat.even_mul. cbn [Nat.even orb]. by rewrite Hrest. }
  cbn [negb]. rewrite logPairs_app. cbn [logPairs asString]. by rewrite Hv.
Qed.

Lemma logFunction_value_not_string_witness :
  logFunction "info" LevelInfo
    [OString "fetched"; OString "url"; OString "u"; OString "count"; OInt 3] =
    (Panicked, []).
Proof.
  exact (logFunction_value_not_string "info" LevelInfo "fetched" "count"
           [("url", "u")] (OInt 3) [] eq_refl eq_refl).
Defined.

(** ** The fields of an error *)

Lemma string_cons_app (c : ascii) (a b : string) :
  String c a +:+ b = String c (a +:+ b).
Proof. done. Qed.

Lemma cutByte_Some (sep : ascii) (s a b : string) :
  cutByte sep s = Some (a, b) →
  s = a +:+ String sep b ∧ allBytes (λ c, negb (bool_decide (c = sep))) a = true.
Proof.
  revert a. induction s as [|c t IH]; intros a; cbn [cutByte]; [done|].
  case_decide as Hc.
  - intros ?; simplify_eq. done.
  - destruct (cutByte sep t) as [[a' b']|] eqn:E; [|done].
    cbn. intros ?; simplify_eq.
    destruct (IH a' eq_refl) as [-> Ha]. split; [done|].
    cbn [allBytes]. rewrite Ha, bool_decide_eq_false_2; done.
Qed.

Lemma cutByte_app (sep : ascii) (a b : string) :
  allBytes (λ c, negb (bool_decide (c = sep))) a = true →
  cutByte sep (a +:+ String sep b) = Some (a, b).
Proof.
  induction a as [|c a IH]; cbn [allBytes].
  - intros _. change ("" +:+ String sep b) with (String sep b).
    cbn [cutByte]. by rewrite decide_True.
  - intros [Hc Ha]%andb_prop. rewrite string_cons_app. cbn [cutByte].
    apply negb_true_iff, bool_decide_eq_false in Hc.
    rewrite decide_False by done. by rewrite IH.
Qed.

Lemma cutByte_None (sep : ascii) (s : string) :
  allBytes (λ c, negb (bool_decide (c = sep))) s = true → cutByte sep s = None.
Proof.
  induction s as [|c s IH]; cbn [allBytes cutByte]; [done|].
  intros [Hc Ha]%andb_prop.
  apply negb_true_iff, bool_decide_eq_false in Hc.
  rewrite decide_False by done. by rewrite IH.
Qed.

Lemma stripPrefix_app_l (prefix a b t : string) :
  stripPrefix prefix a = Some t → stripPrefix prefix (a +:+ b) = Some (t +:+ b).
Proof.
  revert a. induction prefix as [|c p IH]; intros a; cbn [stripPrefix].
  - by intros ?; simplify_eq.
  - destruct a as [|d a]; [done|]. rewrite string_cons_app. cbn [stripPrefix].
    case_decide; [|done]. apply IH.
Qed.

Lemma HasPrefix_app_l (prefix a b : string) :
  HasPrefix a prefix = true → HasPrefix (a +:+ b) prefix = true.
Proof.
  unfold HasPrefix. intros [t Ht]%bool_decide_eq_true.
  apply bool_decide_eq_true. rewrite (stripPrefix_app_l _ _ b _ Ht). by eexists.
Qed.

Section fields.
Context `{gs : GoStrings}.

(** The fields of any error text: an optional function, the message,
    an optional location that is not empty. *)
Lemma errorToFields_cases (s : string) :
  ∃ head loc,
    errorToFields s = head ++ (if decide (loc = "") then [] else ["at"; loc]) ∧
    ((∃ m, head = ["message"; m]) ∨
     (∃ f m, head = ["func"; f; "message"; m] ∧
             HasPrefix s "Runtime Error: " = true)).
Proof.
  unfold errorToFields. cbv zeta.
  set (parts := cutByte "010" s).
  set (location := from_option (TrimSpace ∘ snd) "" parts).
  set (loc := if HasPrefix location "at " then TrimPrefix location "at " else location).
  assert (Hpre : ∀ p, HasPrefix (from_option fst s parts) p = true → HasPrefix s p = true).
  { intros p. unfold parts. destruct (cutByte "010" s) as [[a b]|] eqn:E; [|done].
    cbn. apply cutByte_Some in E as [-> _]. apply HasPrefix_app_l. }
  destruct (findPrefix (from_option fst s parts) errorPrefixes) as [found header] eqn:Ef.
  destruct (decide (found = "Runtime Error: ")) as [Hfound|Hfound].
  - destruct (cutByte ":" header) as [[f m]|] eqn:Ec.
    + exists ["func"; TrimSpace f; "message"; TrimSpace m], loc. split.
      { destruct (decide (loc = "")); [by rewrite app_nil_r | done]. }
      right. eexists _, _. split; [done|]. apply Hpre.
      subst found. unfold errorPrefixes in Ef. cbn [findPrefix] in Ef.
      destruct (HasPrefix (from_option fst s parts) "Runtime Error: ") eqn:E1; [done|].
      destruct (HasPrefix (from_option fst s parts) "Compile Error: "); [by simplify_eq|].
      destruct (HasPrefix (from_option fst s parts) "Parse Error: "); by simplify_eq.
    + exists ["message"; TrimSpace header], loc. split.
      { destruct (decide (loc = "")); [by rewrite app_nil_r | done]. }
      left. by eexists.
  - exists ["message"; TrimSpace header], loc. split.
    { destruct (decide (loc = "")); [by rewrite app_nil_r | done]. }
    left. by eexists.
Qed.

(** [withPrefixes] hands the logger key/value pairs: the context pair,
    then at most one each of func, message and at, always a message, a
    location that is not empty, and a func only for a runtime error. *)
Theorem withPrefixes_key_value_pairs (ctxOne ctxTwo err : string) :
  ∃ pairs : list (string * string),
    loggerArgs (withPrefixes ctxOne ctxTwo err) =
      concat ((λ p, [VString p.1; VString p.2]) <$> ((ctxOne, ctxTwo) :: pairs)) ∧
    (∃ m, ("message", m) ∈ pairs) ∧
    (∀ k v, (k, v) ∈ pairs → k ∈ ["func"; "message"; "at"]) ∧
    (∀ v, ("at", v) ∈ pairs → v ≠ "") ∧
    NoDup pairs.*1 ∧
    ((∃ v, ("func", v) ∈ pairs) → HasPrefix err "Runtime Error: " = true).
Proof.
  unfold loggerArgs, withPrefixes. cbn [fmap list_fmap concat attrArgs app].
  destruct (errorToFields_cases err) as (head & loc & -> & Hhead).
  rewrite app_nil_r.
  destruct Hhead as [[m ->]|(f & m & -> & Hrt)]; case_decide as Hloc.
  - exists [("message", m)]. split_and!; [done|..].
    + exists m. repeat constructor.
    + intros k v ?%list_elem_of_singleton. simplify_eq. repeat constructor.
    + intros v Hv%list_elem_of_singleton. done.
    + cbn. repeat constructor. by intros ?%elem_of_nil.
    + intros [v Hv%list_elem_of_singleton]. done.
  - exists [("message", m); ("at", loc)]. split_and!; [done|..].
    + exists m. repeat constructor.
    + intros k v [?|?%list_elem_of_singleton]%elem_of_cons; simplify_eq;
        repeat constructor.
    + intros v [?|?%list_elem_of_singleton]%elem_of_cons; by simplify_eq.
    + cbn. repeat constructor; [|by intros ?%elem_of_nil].
      by intros ?%list_elem_of_singleton.
    + intros [v [?|?%list_elem_of_singleton]%elem_of_cons]; by simplify_eq.
  - exists [("func", f); ("message", m)]. split_and!; [done|..].
    + exists m. repeat constructor.
    + intros k v [?|?%list_elem_of_singleton]%elem_of_cons; simplify_eq;
        repeat constructor.
    + intros v [?|?%list_elem_of_singleton]%elem_of_cons; by simplify_eq.
    + cbn. repeat constructor; [|by intros ?%elem_of_nil].
      by intros ?%list_elem_of_singleton.
    + done.
  - exists [("func", f); ("message", m); ("at", loc)]. split_and!; [done|..].
    + exists m. repeat constructor.
    + intros k v [?|[?|?%list_elem_of_singleton]%elem_of_cons]%elem_of_cons;
        simplify_eq; repeat constructor.
    + intros v [?|[?|?%list_elem_of_singleton]%elem_of_cons]%elem_of_cons;
        by simplify_eq.
    + cbn. repeat constructor; [| |by intros ?%elem_of_nil].
      * intros [?|?%list_elem_of_singleton]%elem_of_cons; done.
      * by intros ?%list_elem_of_singleton.
    + done.
Qed.

Lemma location_TrimPrefix (location : string) :
  (if HasPrefix location "at " then TrimPrefix location "at " else location) =
  TrimPrefix location "at ".
Proof.
  unfold HasPrefix, TrimPrefix.
  destruct (stripPrefix "at " location) eqn:E; cbn; [done|].
  done.
Qed.

(** The text of a runtime error is split at its first colon into the
    function and the message, and the line after it gives the location;
    the text of a compile error keeps its colons; a runtime error
    without a colon is all message. *)
Theorem errorToFields_runtime_error (fn msg rest : string) :
  noByte ":" fn = true → noByte "010" fn = true → noByte "010" msg = true →
  errorToFields ("Runtime Error: " +:+ fn +:+ ":" +:+ msg +:+ newline +:+ rest) =
    ["func"; TrimSpace fn; "message"; TrimSpace msg] ++ atField rest ∧
  errorToFields ("Compile Error: " +:+ fn +:+ ":" +:+ msg +:+ newline +:+ rest) =
    ["message"; TrimSpace (fn +:+ ":" +:+ msg)] ++ atField rest ∧
  errorToFields ("Runtime Error: " +:+ fn) = ["message"; TrimSpace fn].
Proof.
  intros Hcolon Hnl Hmsg.
  assert (Happ : ∀ sep a b, noByte sep a = true → noByte sep b = true →
                            noByte sep (a +:+ b) = true).
  { intros sep a b. unfold noByte. induction a as [|c a IH]; [done|].
    rewrite string_cons_app. cbn [allBytes].
    intros [-> Ha]%andb_prop Hb. by rewrite IH. }
  assert (Hhead : ∀ pre, noByte "010" pre = true →
            cutByte "010" (pre +:+ fn +:+ ":" +:+ msg +:+ newline +:+ rest) =
              Some (pre +:+ fn +:+ ":" +:+ msg, rest)).
  { intros pre Hp.
    rewrite <-(cutByte_app "010" (pre +:+ fn +:+ ":" +:+ msg) rest).
    - unfold newline. by rewrite !string_app_assoc.
    - repeat apply Happ; done. }
  split_and!.
  - unfold errorToFields. rewrite (Hhead "Runtime Error: " eq_refl).
    cbn [from_option fst snd compose].
    unfold errorPrefixes. cbn [findPrefix].
    rewrite ?string_app_assoc, HasPrefix_app, TrimPrefix_app.
    destruct (decide ("Runtime Error: " = "Runtime Error: ")); [|done].
    change (":" +:+ msg) with (String ":" msg).
    rewrite (cutByte_app ":" fn msg Hcolon).
    rewrite location_TrimPrefix. unfold atField.
    case_decide; [by rewrite app_nil_r | done].
  - unfold errorToFields. rewrite (Hhead "Compile Error: " eq_refl).
    cbn [from_option fst snd compose].
    unfold errorPrefixes. cbn [findPrefix].
    rewrite ?string_app_assoc.
    replace (HasPrefix ("Compile Error: " +:+ fn +:+ ":" +:+ msg) "Runtime Error: ")
      with false by done.
    rewrite HasPrefix_app, TrimPrefix_app.
    destruct (decide ("Compile Error: " = "Runtime Error: ")); [done|].
    rewrite location_TrimPrefix. unfold atField.
    case_decide; [by rewrite app_nil_r | done].
  - unfold errorToFields.
    assert (Hn : cutByte "010" ("Runtime Error: " +:+ fn) = None).
    { apply cutByte_None. by apply (Happ "010"%char "Runtime Error: " fn). }
    rewrite Hn. cbn [from_option].
    unfold errorPrefixes. cbn [findPrefix].
    rewrite HasPrefix_app, TrimPrefix_app.
    destruct (decide ("Runtime Error: " = "Runtime Error: ")); [|done].
    by rewrite (cutByte_None ":" fn Hcolon).
Qed.
End fields.

Lemma errorToFields_runtime_error_witness :
  errorToFields ("Runtime Error: " +:+ "html.find" +:+ ":" +:+ " bad xpath: //a[" +:+
                 newline +:+ "  at search:3:12") =
    ["func"; "html.find"; "message"; "bad xpath: //a["; "at"; "search:3:12"].
Proof.
  exact (proj1 (errorToFields_runtime_error "html.find" " bad xpath: //a["
                  "  at search:3:12" eq_refl eq_refl eq_refl)).
Defined.

(** ** The [anko] module *)

Lemma allBytes_app (p : ascii → bool) (a b : string) :
  allBytes p (a +:+ b) = allBytes p a && allBytes p b.
Proof.
  induction a as [|c a IH]; [done|].
  rewrite string_cons_app. cbn [allBytes]. by rewrite IH, andb_assoc.
Qed.

Lemma allBytes_mapBytes (p : ascii → bool) (f : ascii → ascii) (s : string) :
  allBytes p (mapBytes f s) = allBytes (p ∘ f) s.
Proof. induction s as [|c s IH]; [done|]. cbn. by rewrite IH. Qed.

Lemma allBytes_impl (p q : ascii → bool) (s : string) :
  (∀ c, p c = true → q c = true) → allBytes p s = true → allBytes q s = true.
Proof.
  intros Hpq. induction s as [|c s IH]; [done|]. cbn [allBytes].
  intros [Hc Hs]%andb_prop. by rewrite (Hpq c Hc), IH.
Qed.

Lemma allBytes_true (p : ascii → bool) (s : string) :
  (∀ c, p c = true) → allBytes p s = true.
Proof. intros Hp. induction s as [|c s IH]; [done|]. cbn. by rewrite Hp, IH. Qed.

Lemma mapBytes_id (p : ascii → bool) (f : ascii → ascii) (s : string) :
  (∀ c, p c = true → f c = c) → allBytes p s = true → mapBytes f s = s.
Proof.
  intros Hf. induction s as [|c s IH]; [done|]. cbn [allBytes mapBytes].
  intros [Hc Hs]%andb_prop. by rewrite (Hf c Hc), IH.
Qed.

Lemma mapBytes_length (f : ascii → ascii) (s : string) :
  String.length (mapBytes f s) = String.length s.
Proof. induction s as [|c s IH]; [done|]. cbn. by rewrite IH. Qed.

Lemma ReplaceAllByte_mapBytes (s : string) (old new : ascii) :
  ReplaceAllByte s old new = mapBytes (λ c, if decide (c = old) then new else c) s.
Proof. induction s as [|c s IH]; [done|]. cbn. by rewrite IH. Qed.

Section misc.
Context `{gs : GoStrings}.

Lemma slug_ascii_bytes (s : string) :
  allBytes isASCIIByte s = true →
  slug s = mapBytes (λ c, lowerByte (if decide (c = " "%char) then "-"%char else c)) s.
Proof.
  intros Hs. unfold slug, ToLower. rewrite ReplaceAllByte_mapBytes.
  rewrite allBytes_mapBytes.
  assert (Hq : allBytes (isASCIIByte ∘
            (λ c, if decide (c = " "%char) then "-"%char else c)) s = true).
  { apply (allBytes_impl isASCIIByte); [|done]. intros c. each_byte c. }
  rewrite Hq. clear Hs Hq. induction s as [|c s IH]; [done|]. cbn [mapBytes]. by rewrite IH.
Qed.

(** The slug of an ASCII string has the length of the string, holds no
    space and no capital, and is its own slug; a string of such bytes
    is left as it is. *)
Theorem slugify_ascii (s : string) :
  allBytes isASCIIByte s = true →
  ∃ sl, slugify [OString s] = Returned (OString sl) ∧
        String.length sl = String.length s ∧
        allBytes slugByte sl = true ∧
        slugify [OString sl] = Returned (OString sl) ∧
        (allBytes slugByte s = true → sl = s).
Proof.
  intros Hs. exists (slug s). cbn [slugify asString].
  rewrite (slug_ascii_bytes s Hs).
  set (f := λ c : ascii, lowerByte (if decide (c = " "%char) then "-"%char else c)).
  assert (Hout : allBytes slugByte (mapBytes f s) = true).
  { rewrite allBytes_mapBytes.
    apply (allBytes_impl isASCIIByte); [|done]. intros c. unfold f. each_byte c. }
  assert (Hfix : ∀ t, allBytes slugByte t = true → mapBytes f t = t).
  { intros t. apply mapBytes_id. intros c. unfold f. each_byte c. }
  split_and!; [done | apply mapBytes_length | done | | apply Hfix].
  rewrite slug_ascii_bytes.
  - fold f. by rewrite (Hfix _ Hout).
  - apply (allBytes_impl slugByte); [|done]. intros c. each_byte c.
Qed.

Lemma is_chapter_url_true (o : Object) :
  is_chapter_url [o] = Returned (OBool true) ↔
  ∃ str, o = OString str ∧ ContainsStr (ToLower str) "chapter" = true.
Proof.
  cbn [is_chapter_url]. destruct o; cbn [asString];
    try (split; [done | by intros (? & ? & _)]).
  split.
  - intros ?; simplify_eq. by eexists.
  - intros (x & ? & Hc). simplify_eq. by rewrite Hc.
Qed.

Lemma chapterLinks_elem (items : list Object) (o : Object) :
  o ∈ chapterLinks items ↔
  o ∈ items ∧ is_chapter_url [o] = Returned (OBool true).
Proof.
  rewrite is_chapter_url_true.
  induction items as [|item rest IH]; cbn [chapterLinks].
  - split; [by intros ?%elem_of_nil | by intros [?%elem_of_nil _]].
  - destruct (asString item) as [str|] eqn:Hs.
    + destruct item; try done. cbn in Hs. simplify_eq.
      destruct (ContainsStr (ToLower str) "chapter") eqn:Hc.
      * rewrite !elem_of_cons, IH. split.
        -- intros [->|[? ?]]; [|by auto]. split; [by left | by eexists].
        -- intros [[->|?] ?]; by auto.
      * rewrite elem_of_cons, IH. split; [by intros [? ?]; auto|].
        intros [[->|?] (str' & ? & Hc')]; [|by eauto]. simplify_eq. congruence.
    + rewrite elem_of_cons, IH. split; [by intros [? ?]; auto|].
      intros [[->|?] (str' & ? & Hc')]; [|by eauto]. by simplify_eq.
Qed.

Lemma chapterLinks_sublist (items : list Object) :
  chapterLinks items `sublist_of` items.
Proof.
  induction items as [|item rest IH]; cbn [chapterLinks]; [done|].
  destruct (asString item); [|by constructor].
  destruct (ContainsStr _ _); by constructor.
Qed.

Lemma chapterLinks_fixed (items : list Object) :
  (∀ o, o ∈ items → is_chapter_url [o] = Returned (OBool true)) →
  chapterLinks items = items.
Proof.
  induction items as [|item rest IH]; [done|]. intros Hall. cbn [chapterLinks].
  destruct (proj1 (is_chapter_url_true item) (Hall item ltac:(by left)))
    as (str & -> & Hc).
  cbn [asString]. rewrite Hc, IH; [done|].
  intros o Ho. apply Hall. by right.
Qed.

Lemma chapterLinks_filter (items : list Object) :
  chapterLinks items = List.filter (λ o, answersTrue (is_chapter_url [o])) items.
Proof.
  induction items as [|item rest IH]; [done|].
  cbn [chapterLinks List.filter is_chapter_url]. rewrite IH.
  destruct (asString item) as [str|]; [|done]. cbn [answersTrue].
  by destruct (ContainsStr (ToLower str) "chapter").
Qed.

(** [filter_chapter_links] returns the array of the items for which
    [is_chapter_url] answers true, each as often as it occurs and in
    the order of the argument; everything else is dropped without an
    error, and running it on its own result changes nothing. *)
Theorem filter_chapter_links_is_chapter_url (items : list Object) :
  filter_chapter_links [OArray items] =
    Returned (OArray (List.filter (λ o, answersTrue (is_chapter_url [o])) items)) ∧
  (∀ o, answersTrue (is_chapter_url [o]) = true ↔
        is_chapter_url [o] = Returned (OBool true)) ∧
  ∃ kept,
    filter_chapter_links [OArray items] = Returned (OArray kept) ∧
    kept `sublist_of` items ∧
    (∀ o, o ∈ kept ↔ o ∈ items ∧ is_chapter_url [o] = Returned (OBool true)) ∧
    filter_chapter_links [OArray kept] = Returned (OArray kept).
Proof.
  split_and!.
  - cbn [filter_chapter_links]. by rewrite chapterLinks_filter.
  - intros o. destruct (is_chapter_url [o]) as [[| [] | | | | |]| |];
      cbn [answersTrue]; by split.
  - exists (chapterLinks items). cbn [filter_chapter_links].
    split_and!; [done | apply chapterLinks_sublist | apply chapterLinks_elem |].
    rewrite chapterLinks_fixed; [done|].
    by intros o [_ ?]%chapterLinks_elem.
Qed.
End misc.

(** *** Reading the number of a chapter *)

Lemma takeDigits_app (digits post : string) :
  allBytes isDigitByte digits = true → startsWithDigit post = false →
  takeDigits (digits +:+ post) = digits.
Proof.
  intros Hd Hp. induction digits as [|c d IH].
  - change ("" +:+ post) with post. destruct post as [|c post]; [done|].
    cbn [startsWithDigit] in Hp. cbn [takeDigits]. by rewrite Hp.
  - rewrite string_cons_app. cbn [allBytes takeDigits] in *.
    apply andb_prop in Hd as [-> Hd]. by rewrite IH.
Qed.

Lemma FindDigits_app (pre digits post : string) :
  allBytes (negb ∘ isDigitByte) pre = true →
  allBytes isDigitByte digits = true → digits ≠ "" →
  startsWithDigit post = false →
  FindDigits (pre +:+ digits +:+ post) = digits.
Proof.
  intros Hpre Hd Hne Hp. induction pre as [|c pre IH].
  - change ("" +:+ digits +:+ post) with (digits +:+ post).
    destruct digits as [|c d]; [done|]. rewrite string_cons_app.
    cbn [allBytes FindDigits] in *. apply andb_prop in Hd as [-> Hd].
    by rewrite takeDigits_app.
  - rewrite string_cons_app. cbn [allBytes FindDigits compose] in *.
    apply andb_prop in Hpre as [Hc Hpre]. apply negb_true_iff in Hc.
    rewrite Hc. by apply IH.
Qed.

Lemma FindDigits_none (s : string) :
  allBytes (negb ∘ isDigitByte) s = true → FindDigits s = "".
Proof.
  induction s as [|c s IH]; [done|]. cbn [allBytes FindDigits compose].
  intros [Hc Hs]%andb_prop. apply negb_true_iff in Hc. rewrite Hc. by apply IH.
Qed.

Lemma takeDigits_digits (s : string) : allBytes isDigitByte (takeDigits s) = true.
Proof.
  induction s as [|c s IH]; [done|]. cbn [takeDigits].
  destruct (isDigitByte c) eqn:Hc; [|done]. cbn [allBytes]. by rewrite Hc, IH.
Qed.

Lemma FindDigits_digits (s : string) : allBytes isDigitByte (FindDigits s) = true.
Proof.
  induction s as [|c s IH]; [done|]. cbn [FindDigits].
  destruct (isDigitByte c) eqn:Hc; [|done]. cbn [allBytes].
  by rewrite Hc, takeDigits_digits.
Qed.

Lemma decimalValue_nonneg (acc : Z) (digits : string) :
  (0 ≤ acc)%Z → allBytes isDigitByte digits = true →
  (acc ≤ decimalValue acc digits)%Z.
Proof.
  revert acc. induction digits as [|c d IH]; intros acc Hacc; cbn [allBytes decimalValue].
  - lia.
  - intros [Hc Hd]%andb_prop. unfold isDigitByte in Hc.
    apply bool_decide_eq_true in Hc.
    etrans; [|apply IH; [lia | done]]. lia.
Qed.

Lemma pretty_N_char_value (x : N) :
  (x < 10)%N →
  (Z.of_nat (nat_of_ascii (pretty_N_char x)) - 48)%Z = Z.of_N x ∧
  isDigitByte (pretty_N_char x) = true.
Proof.
  intros Hx.
  destruct x as [|p]; [done|].
  do 4 (destruct p as [p|p|]; try done; try lia).
Qed.

Lemma decimalValue_pretty_N_go (x : N) (s : string) :
  decimalValue 0 (pretty_N_go x s) = decimalValue (Z.of_N x) s.
Proof.
  revert s. induction (N.lt_wf_0 x) as [x _ IH]; intros s.
  destruct (decide (x = 0)%N) as [->|Hx]; [by rewrite pretty_N_go_0|].
  rewrite pretty_N_go_step by lia.
  rewrite IH by (apply N.div_lt; lia).
  cbn [decimalValue].
  destruct (pretty_N_char_value (x `mod` 10)%N) as [-> _]; [by apply N.mod_lt|].
  f_equal. rewrite N2Z.inj_div, N2Z.inj_mod. cbn.
  pose proof (Z.div_mod (Z.of_N x) 10). lia.
Qed.

Lemma pretty_N_go_digits (x : N) (s : string) :
  allBytes isDigitByte s = true → allBytes isDigitByte (pretty_N_go x s) = true.
Proof.
  revert s. induction (N.lt_wf_0 x) as [x _ IH]; intros s Hs.
  destruct (decide (x = 0)%N) as [->|Hx]; [by rewrite pretty_N_go_0|].
  rewrite pretty_N_go_step by lia.
  apply IH; [apply N.div_lt; lia|]. cbn [allBytes].
  destruct (pretty_N_char_value (x `mod` 10)%N) as [_ ->]; [by apply N.mod_lt|].
  done.
Qed.

Lemma pretty_N_decimal (n : N) :
  decimalValue 0 (pretty n) = Z.of_N n ∧
  allBytes isDigitByte (pretty n) = true ∧ pretty n ≠ "".
Proof.
  unfold pretty, pretty_N. case_decide as Hn; [by subst|].
  split_and!.
  - by rewrite decimalValue_pretty_N_go.
  - by apply pretty_N_go_digits.
  - rewrite pretty_N_go_step by lia.
    intros Heq.
    assert (Hlen : ∀ x s, String.length s ≤ String.length (pretty_N_go x s)).
    { intros x. induction (N.lt_wf_0 x) as [x _ IH]; intros s.
      destruct (decide (x = 0)%N) as [->|Hx]; [by rewrite pretty_N_go_0|].
      rewrite pretty_N_go_step by lia.
      etrans; [|apply IH; apply N.div_lt; lia]. cbn. lia. }
    pose proof (Hlen (n `div` 10)%N (String (pretty_N_char (n `mod` 10)) "")) as Hl.
    rewrite Heq in Hl. cbn in Hl. lia.
Qed.

(** [chapter_number] of a string never fails; its result is not
    negative and fits the integer type, and is 0 for a title without a
    digit. *)
Theorem chapter_number_range (intBits : Z) (title : string) :
  (0 < intBits)%Z →
  ∃ n, chapter_number intBits [OString title] = Returned (OInt n) ∧
       (0 ≤ n < 2 ^ (intBits - 1))%Z ∧
       (allBytes (negb ∘ isDigitByte) title = true → n = 0%Z).
Proof.
  intros Hbits. cbn [chapter_number asString].
  assert (Hpow : (0 < 2 ^ (intBits - 1))%Z) by (apply Z.pow_pos_nonneg; lia).
  case_decide as Hfound.
  - exists 0%Z. split; [done|]. split; [lia | done].
  - exists (scanInt intBits (FindDigits title)). split; [done|]. split.
    + unfold scanInt. cbv zeta.
      pose proof (decimalValue_nonneg 0 (FindDigits title) ltac:(done)
                    (FindDigits_digits title)).
      case_decide; lia.
    + intros Hnone. by rewrite FindDigits_none in Hfound.
Qed.

(** A number written in decimal is read back from the title it was
    put in, when no digit stands before it; a number too large for the
    integer type is read as 0. *)
Theorem chapter_number_reads_first_number (intBits : Z) (pre post : string) (n : N) :
  allBytes (negb ∘ isDigitByte) pre = true →
  startsWithDigit post = false →
  chapter_number intBits [OString (pre +:+ pretty n +:+ post)] =
    Returned (OInt (if decide (Z.of_N n < 2 ^ (intBits - 1))%Z
                    then Z.of_N n else 0%Z)).
Proof.
  intros Hpre Hpost. cbn [chapter_number asString].
  destruct (pretty_N_decimal n) as (Hval & Hdig & Hne).
  rewrite (FindDigits_app pre (pretty n) post Hpre Hdig Hne Hpost).
  rewrite decide_False by done.
  unfold scanInt. cbv zeta. by rewrite Hval.
Qed.

Lemma slugify_ascii_witness :
  allBytes isASCIIByte "The Great Novel 2" = true ∧
  ∃ sl, slugify [OString "The Great Novel 2"] = Returned (OString sl) ∧
        String.length sl = 17 ∧
        allBytes slugByte sl = true ∧
        slugify [OString sl] = Returned (OString sl) ∧
        (allBytes slugByte "The Great Novel 2" = true → sl = "The Great Novel 2").
Proof.
  split; [reflexivity|].
  apply (slugify_ascii "The Great Novel 2"). reflexivity.
Defined.

Lemma chapter_number_range_witness :
  ∃ n, chapter_number 64 [OString "Chapter 12: The End (part 3)"] = Returned (OInt n) ∧
       (0 ≤ n < 2 ^ 63)%Z.
Proof.
  destruct (chapter_number_range 64 "Chapter 12: The End (part 3)" eq_refl)
    as (n & Hn & Hr & _).
  exists n. split; [exact Hn | exact Hr].
Defined.

Lemma chapter_number_reads_first_number_witness :
  chapter_number 64 [OString ("Chapter " +:+ pretty 12%N +:+ ": The End (part 3)")] =
    Returned (OInt 12).
Proof.
  exact (chapter_number_reads_first_number 64 "Chapter " ": The End (part 3)" 12
           eq_refl eq_refl).
Defined.

(** ** The [req] module *)

Section req.
Context `{http : HttpClient}.

(** [get] with one string argument sends the request for that URL, with
    an empty map for [SetHeaders] and no body, and sends it a second
    time when, and only when, the first failed.  The response of the
    request that succeeded is returned; each failed request is logged
    as a retry with its number; after two failures the call fails with
    the error of the second.  With any other arguments, so also with a
    headers map as second argument, the call fails before anything is
    sent. *)
Theorem reqGet_requests (args : list Object) (net : Net) :
  (∀ url, args = [OString url] →
     let rq := mkRequest "GET" [] None url in
     let first := send rq net in
     let second := send rq (snd first) in
     (∀ r, fst first = inr r →
        reqGet args net =
          (Returned (responseObject r), mkSent [rq] [], snd first)) ∧
     (∀ err1 r, fst first = inl err1 → fst second = inr r →
        reqGet args net =
          (Returned (responseObject r),
           mkSent [rq; rq] [retryWarning "http.get" 1 err1], snd second)) ∧
     (∀ err1 err2, fst first = inl err1 → fst second = inl err2 →
        reqGet args net =
          (Failed ("http.get: " +:+ err2),
           mkSent [rq; rq]
             [retryWarning "http.get" 1 err1; retryWarning "http.get" 2 err2],
           snd second))) ∧
  ((∀ url, args ≠ [OString url]) →
     ∃ err, reqGet args net = (Failed err, mkSent [] [], net)) ∧
  (∀ hdr url, args = [OString url; hdr] →
     reqGet args net = (Failed "http.get: expected 1 argument", mkSent [] [], net)) ∧
  (let out := reqGet args net in
   let sent := snd (fst out) in
   length (requests sent) ≤ 2 ∧
   (∀ rq, rq ∈ requests sent →
      reqHeaders rq = [] ∧ reqBody rq = None ∧ args = [OString (reqURL rq)]) ∧
   length (warnings sent) =
     (if isFailed (fst (fst out)) then length (requests sent)
      else length (requests sent) - 1) ∧
   (isFailed (fst (fst out)) = true → length (requests sent) ≠ 1) ∧
   (requests sent = [] → snd out = net ∧ isFailed (fst (fst out)) = true)).
Proof.
  split_and!.
  - intros url -> rq first second. subst first second.
    unfold reqGet, withRetry. cbn [asString retryLoop]. fold rq.
    destruct (send rq net) as [[e1|r1] net1]; cbn [fst snd].
    + destruct (send rq net1) as [[e2|r2] net2]; cbn [fst snd].
      * split_and!; [done | done |]. intros ? ? ? ?. by simplify_eq.
      * split_and!; [done | | done]. intros ? ? ? ?. by simplify_eq.
    + split_and!; [|done..]. intros ? ?. by simplify_eq.
  - intros Hnot. unfold reqGet.
    destruct args as [|a [|b rest]]; [by eexists| |by eexists].
    destruct a; cbn [asString]; try by eexists.
    by destruct (Hnot s).
  - by intros hdr url ->.
  - assert (Hnone : ∀ e : string,
      let out := (Failed e, mkSent [] [], net) : Outcome Object * Sent * Net in
      let sent := snd (fst out) in
      length (requests sent) ≤ 2 ∧
      (∀ rq, rq ∈ requests sent →
         reqHeaders rq = [] ∧ reqBody rq = None ∧ args = [OString (reqURL rq)]) ∧
      length (warnings sent) =
        (if isFailed (fst (fst out)) then length (requests sent)
         else length (requests sent) - 1) ∧
      (isFailed (fst (fst out)) = true → length (requests sent) ≠ 1) ∧
      (requests sent = [] → snd out = net ∧ isFailed (fst (fst out)) = true)).
    { intros e. cbn. split_and!; try done; [lia | by intros ? ?%elem_of_nil]. }
    unfold reqGet.
    destruct args as [|a [|b rest]]; [apply Hnone| |apply Hnone].
    destruct (asString a) as [urlStr|] eqn:Ha; [|apply Hnone].
    destruct a; try done. cbn in Ha. simplify_eq.
    unfold withRetry. cbn [retryLoop].
    destruct (send _ net) as [[err1|r1] net1].
    + destruct (send _ net1) as [[err2|r2] net2]; cbn.
      * split_and!; try done.
        intros rq [->|[->|?%elem_of_nil]%elem_of_cons]%elem_of_cons; done.
      * split_and!; try done.
        intros rq [->|[->|?%elem_of_nil]%elem_of_cons]%elem_of_cons; done.
    + cbn. split_and!; try done; [lia|].
      intros rq [->|?%elem_of_nil]%elem_of_cons; done.
Qed.
End req.

(** A first request that times out and a second that is answered; a
    call with a headers map. *)
Example reqGet_examples :
  reqGet (H := scriptedClient) [OString "https://example.org/novel/1"]
    [inl "timeout"; inr pageResponse] =
    (Returned (OMap [("status", OInt 200); ("body", OString "<html></html>");
                     ("headers",
                      OMap [("Content-Type", OArray [OString "text/html"])])]),
     mkSent [mkRequest "GET" [] None "https://example.org/novel/1";
             mkRequest "GET" [] None "https://example.org/novel/1"]
       [mkLog LevelWarn "http.get: retry"
          [KV "attempt" (VInt 1); KV "error" (VString "timeout")]],
     []) ∧
  reqGet (H := scriptedClient)
    [OString "https://example.org/novel/1"; OMap [("Accept", OString "text/html")]]
    [inr pageResponse] =
    (Failed "http.get: expected 1 argument", mkSent [] [], [inr pageResponse]).
Proof. split; by vm_compute. Qed.
